(** * Domain decomposition and all-to-all exchange of gaepsi2 ([src/domain.py])

    A shallow embedding of [Rotator], [Layout] and [GridND] and the
    properties of them that the specification states.

    Conventions of the embedding.
    - Particle coordinates, grid edges and support radii are exact rationals
      ([Q]); the outputs of the kernel (bin indices, counts, indices) are
      integers, so all results are compared with Leibniz equality. The
      code computes in 64-bit floats: its comparisons are exact, its
      sums, differences and remainders are rounded where the embedding
      is exact. A statement about the endpoints [x - r] and [x + r] of a
      support is a statement about the exact endpoints; with a support
      radius of 0 the two agree.
    - numpy's fixed-width integers are [Z] with the wrap-around written out
      ([int16] for the ['i2'] arrays [sil]/[sir], [int32] for [dims],
      [counts] and the offsets).
    - Python exceptions are the constructors of [exn]; a computation that
      can raise returns an [outcome].
    - The process group is a list indexed by rank; a collective call is a
      function of the arguments of all ranks. *)

From Stdlib Require Import String ZArith QArith Qround List Lia Permutation Bool.
Import ListNotations.

Open Scope Z_scope.

(** ** Exceptions and the error monad *)

Inductive exn : Type :=
| AssertionError
| TypeError (observed : list string)
| IndexError
| ValueError
| MPIError.

Inductive outcome (T : Type) : Type :=
| Ok (x : T)
| Raise (e : exn).

Arguments Ok {T} x.
Arguments Raise {T} e.

Definition bind {T U : Type} (c : outcome T) (k : T -> outcome U) : outcome U :=
  match c with
  | Ok x => k x
  | Raise e => Raise e
  end.

Notation "'do' x <- c ; k" := (bind c (fun x => k))
  (at level 10, x name, c at level 100, k at level 200).
Notation "'do' ' p <- c ; k" := (bind c (fun x => match x with p => k end))
  (at level 10, p pattern, c at level 100, k at level 200).

Definition assert (b : bool) : outcome unit :=
  if b then Ok tt else Raise AssertionError.

(** Runs [f] on every element, left to right; the first exception wins. *)
Fixpoint mapM {T U : Type} (f : T -> outcome U) (l : list T) : outcome (list U) :=
  match l with
  | [] => Ok []
  | x :: t => do y <- f x; do ys <- mapM f t; Ok (y :: ys)
  end.

(** ** Fixed-width integers *)

Definition wrap (w : Z) (z : Z) : Z := (z + 2 ^ (w - 1)) mod 2 ^ w - 2 ^ (w - 1).
Definition int16 : Z -> Z := wrap 16.
Definition int32 : Z -> Z := wrap 32.

(** ** numpy helpers used by [GridND] *)

Module numpy.

(** [numpy.remainder] on floats, for a divisor different from zero: the
    result has the sign of the divisor. The exact value lies in [0, l)
    for a positive [l]; the float result is rounded and can be [l]
    itself, so nothing below relies on its being less than [l]. *)
Definition remainder (x l : Q) : Q := (x - inject_Z (Qfloor (x / l)) * l)%Q.

Fixpoint nondecreasing (a : list Q) : bool :=
  match a with
  | x :: (y :: _) as t => Qle_bool x y && nondecreasing t
  | _ => true
  end.

Fixpoint nonincreasing (a : list Q) : bool :=
  match a with
  | x :: (y :: _) as t => Qle_bool y x && nonincreasing t
  | _ => true
  end.

(** 1 for non-decreasing bins (also constant or empty ones), -1 for
    non-increasing ones, 0 otherwise. *)
Definition monotonicity (bins : list Q) : Z :=
  if nondecreasing bins then 1
  else if nonincreasing bins then -1
  else 0.

(** [searchsorted(a, x, side='right')] on a sorted [a]: the number of
    leading elements that are [<= x]. *)
Fixpoint searchsorted (a : list Q) (x : Q) : Z :=
  match a with
  | [] => 0
  | e :: t => if Qle_bool e x then 1 + searchsorted t x else 0
  end.

(** [numpy.digitize(x, bins)] with [right=False], on one value: the index
    [i] with [bins[i-1] <= x < bins[i]]. *)
Definition digitize1 (bins : list Q) (x : Q) : Z :=
  if monotonicity bins =? -1
  then Z.of_nat (length bins) - searchsorted (rev bins) x
  else searchsorted bins x.

Definition digitize (data bins : list Q) : outcome (list Z) :=
  if monotonicity bins =? 0 then Raise ValueError
  else Ok (map (digitize1 bins) data).

(** [numpy.clip(a, lo, hi)] is [minimum(maximum(a, lo), hi)]. *)
Definition clip (a lo hi : Z) : Z := Z.min (Z.max a lo) hi.

Definition product (l : list Z) : Z := fold_left Z.mul l 1.

Definition zeros (n : nat) : list Z := repeat 0 n.

End numpy.

(** ** [GridND]: the decomposition on a grid of bin edges *)

(** The support radius ([smoothing]) is a scalar or one value per
    particle; numpy broadcasts it against a column of positions. *)
Inductive radius : Type :=
| Uniform (r : Q)
| PerParticle (rs : list Q).

Record GridND : Type := mkGridND {
  dims : list Z;
  grid : list (list Q);
  periodic : bool;
  comm_size : nat
}.

(** [GridND.__init__]. The coordinates of the calling rank ([myrank],
    [mystart], [myend]) are not read by [decompose] and are left out. *)
Definition GridND_init (edges : list (list Q)) (size : nat) (per : bool)
  : outcome GridND :=
  let ds := map (fun g => int32 (Z.of_nat (length g) - 1)) edges in
  do _ <- assert (Z.of_nat size =? numpy.product ds);
  Ok (mkGridND ds edges per size).

Definition broadcast (n : nat) (s : radius) : outcome (list Q) :=
  match s with
  | Uniform r => Ok (repeat r n)
  | PerParticle [r] => Ok (repeat r n)
  | PerParticle rs => if Nat.eqb (length rs) n then Ok rs else Raise ValueError
  end.

(** [posT[j]] for an array [pos] of shape (Npoint, D). *)
Definition column (j : nat) (pos : list (list Q)) : outcome (list Q) :=
  if forallb (fun row => Nat.ltb j (length row)) pos
  then Ok (map (fun row => nth j row 0%Q) pos)
  else Raise IndexError.

(** [g[-1]] *)
Definition last_edge (g : list Q) : outcome Q :=
  match rev g with
  | [] => Raise IndexError
  | e :: _ => Ok e
  end.

Definition zip_with {A B C : Type} (f : A -> B -> C) (l : list A) (m : list B)
  : list C :=
  map (fun p => f (fst p) (snd p)) (combine l m).

(** One round of the loop over the dimensions in [decompose]: the rows
    [sil[j]] and [sir[j]]. The endpoints [tmp - sml] and [tmp + sml] are
    the exact ones. *)
Definition bin_bounds (g : GridND) (pos : list (list Q)) (smoothing : radius)
    (j : nat) : outcome (list Z * list Z) :=
  let dim := nth j (dims g) 0 in
  let edges := nth j (grid g) [] in
  do col <- column j pos;
  do tmp <- (if periodic g
             then do l <- last_edge edges;
                  Ok (map (fun x => numpy.remainder x l) col)
             else Ok col);
  do sml <- broadcast (length pos) smoothing;
  do lo <- numpy.digitize (zip_with Qminus tmp sml) edges;
  let sil := map (fun d => int16 (d - 1)) lo in
  do hi <- numpy.digitize (zip_with Qplus tmp sml) edges;
  let sir := map int16 hi in
  if periodic g then Ok (sil, sir)
  else Ok (map (fun a => int16 (numpy.clip a 0 dim)) sil,
           map (fun a => int16 (numpy.clip a 0 dim)) sir).

(** *** The fill kernel *)

(** The integer bins of the half-open range [lo, hi). *)
Definition bin_range (lo hi : Z) : list Z :=
  map (fun k => lo + Z.of_nat k) (seq 0 (Z.to_nat (hi - lo))).

(** All tuples of the product of the ranges, the last dimension varying
    fastest. *)
Fixpoint cartesian (ranges : list (list Z)) : list (list Z) :=
  match ranges with
  | [] => [[]]
  | r :: rest => flat_map (fun b => map (cons b) (cartesian rest)) r
  end.

(** Flat rank of a tuple of bins: row-major, the last dimension fastest,
    as [numpy.unravel_index] in [GridND.__init__]; each bin is wrapped
    modulo the mesh extent where the grid is periodic. *)
Definition ravel (ds : list Z) (per : bool) (t : list Z) : Z :=
  fold_left (fun acc db => acc * fst db + (if per then snd db mod fst db else snd db))
            (combine ds t) 0.

(** The destination ranks of one particle with bin bounds [lo], [hi]
    (one entry per dimension). *)
Definition destinations (ds : list Z) (per : bool) (lo hi : list Z) : list Z :=
  map (ravel ds per) (cartesian (zip_with bin_range lo hi)).

(** Bounds of particle [i] across the dimensions: column [i] of an array
    of shape (Ndim, Npoint). *)
Definition particle_bounds (a : list (list Z)) (i : nat) : list Z :=
  map (fun row => nth i row 0) a.

Definition particle_destinations (ds : list Z) (per : bool)
    (sil sir : list (list Z)) (i : nat) : list Z :=
  destinations ds per (particle_bounds sil i) (particle_bounds sir i).

(** Modelled from the spec: whether [r] is among the destination ranks
    [l] of a particle, 1 or 0. The destination ranks of a particle form
    a set, so a rank that several tuples of bins wrap to counts once. *)
Definition occurrences (r : Z) (l : list Z) : nat :=
  if existsb (Z.eqb r) l then 1 else 0.

(** Modelled from the spec: [gridnd_fill] of the Cython module [_domain]
    in mode 0 (the module is not among the sources). Pass 1 counts the
    occurrences of every destination rank, a particle counting once per
    destination rank, into the [int32] array [counts]. *)
Definition gridnd_fill_counts (npoint : nat) (counts ds : list Z)
    (sil sir : list (list Z)) (per : bool) : list Z :=
  map (fun rc =>
         int32 (snd rc + Z.of_nat (list_sum
           (map (fun i => occurrences (Z.of_nat (fst rc))
                            (particle_destinations ds per sil sir i))
                (seq 0 npoint)))))
      (combine (seq 0 (length counts)) counts).

(** Modelled from the spec: [gridnd_fill] of the Cython module [_domain]
    in mode 1. Pass 2 places the source index of a particle once per
    destination rank into the block of that rank; the blocks are in
    ascending rank order, and inside a block the particles keep their
    order. *)
Definition gridnd_fill_indices (npoint : nat) (counts ds : list Z)
    (sil sir : list (list Z)) (per : bool) : list Z :=
  flat_map (fun r =>
              flat_map (fun i =>
                          repeat (Z.of_nat i)
                                 (occurrences (Z.of_nat r)
                                    (particle_destinations ds per sil sir i)))
                       (seq 0 npoint))
           (seq 0 (length counts)).

(** *** [GridND.decompose], up to the construction of the layout *)

(** The body of [decompose] after the assertion on the number of
    particles: the count vector and the index sequence that are handed to
    [Layout]. *)
Definition assign (g : GridND) (pos : list (list Q)) (smoothing : radius)
  : outcome (list Z * list Z) :=
  let Npoint := length pos in
  let Ndim := length (dims g) in
  let counts := numpy.zeros (comm_size g) in
  if Nat.eqb Npoint 0 then Ok (counts, [])
  else
    do bounds <- mapM (bin_bounds g pos smoothing) (seq 0 Ndim);
    let sil := map fst bounds in
    let sir := map snd bounds in
    let counts' := gridnd_fill_counts Npoint counts (dims g) sil sir (periodic g) in
    let indices := gridnd_fill_indices Npoint counts' (dims g) sil sir (periodic g) in
    Ok (counts', indices).

Definition decompose_local (g : GridND) (pos : list (list Q)) (smoothing : radius)
  : outcome (list Z * list Z) :=
  do _ <- assert (Z.of_nat (length pos) <? 1024 * 1024 * 1024 * 2);
  assign g pos smoothing.

(** The grid of the examples of the specification: one dimension, edges
    0, 1, 2, 3, three ranks. *)
Definition grid3 (per : bool) : outcome GridND :=
  GridND_init [[0; 1; 2; 3]%Q] 3 per.

Definition on_grid3 (per : bool) (pos : list (list Q)) (s : radius)
  : outcome (list Z * list Z) :=
  do g <- grid3 per; decompose_local g pos s.

(** The destination ranks of every particle of a batch, in the order the
    kernel visits them. *)
Definition destination_ranks (g : GridND) (pos : list (list Q)) (smoothing : radius)
  : outcome (list (list Z)) :=
  do bounds <- mapM (bin_bounds g pos smoothing) (seq 0 (length (dims g)));
  Ok (map (particle_destinations (dims g) (periodic g)
             (map fst bounds) (map snd bounds))
          (seq 0 (length pos))).

(** ** [Rotator]: rank-ordered execution of a region *)

(** The calls on the communicator that the module makes. Only [Barrier]
    carries no data. *)
Inductive comm_call : Type :=
| Barrier
| Alltoall_call (sendbuf : list Z)
| allgather_call (obj : string)
| Alltoallv_call (sendcounts sendoffsets recvcounts recvoffsets : list Z).

Definition carries_data (c : comm_call) : bool :=
  match c with
  | Barrier => false
  | _ => true
  end.

(** [Rotator.__enter__]: one barrier, then one barrier per lower rank. *)
Definition Rotator_enter (rank : nat) : list comm_call :=
  Barrier :: map (fun _ => Barrier) (seq 0 rank).

(** [Rotator.__exit__]: one barrier for every [i] in [range(rank, size)],
    then one more. *)
Definition Rotator_exit (rank size : nat) : list comm_call :=
  map (fun _ => Barrier) (seq rank (size - rank)) ++ [Barrier].

(** What one rank does in [with Rotator(comm): body]. *)
Inductive action : Type :=
| Sync (c : comm_call)
| Work (rank : nat).

Definition with_Rotator (rank size : nat) : list action :=
  map Sync (Rotator_enter rank) ++ [Work rank] ++ map Sync (Rotator_exit rank size).

(** A run of the group is a sequence of global events: a barrier that all
    ranks pass together, or the body of one rank. *)
Inductive global_event : Type :=
| GBarrier
| GWork (rank : nat).

(** What rank [r] sees of a run. *)
Definition project (r : nat) (run : list global_event) : list action :=
  flat_map (fun e => match e with
                     | GBarrier => [Sync Barrier]
                     | GWork r' => if Nat.eqb r r' then [Work r] else []
                     end) run.

(** The bodies of a run, in the order in which they are executed. *)
Definition work_log (run : list global_event) : list nat :=
  flat_map (fun e => match e with GBarrier => [] | GWork r => [r] end) run.

(** A run of [size] ranks through the region: every body belongs to a rank
    of the group, and every rank sees its own program. *)
Definition rotator_run (size : nat) (run : list global_event) : Prop :=
  (forall r, In r (work_log run) -> (r < size)%nat)
  /\ (forall r, (r < size)%nat -> project r run = with_Rotator r size).

(** The run in which the ranks take their turns. *)
Definition rotator_schedule (size : nat) : list global_event :=
  GBarrier :: flat_map (fun r => [GWork r; GBarrier]) (seq 0 size) ++ [GBarrier].

(** ** [Layout]: the all-to-all communication layout *)

Definition int64 : Z -> Z := wrap 64.

Definition zsum (l : list Z) : Z := fold_right Z.add 0 l.

(** [a.cumsum()] of an [int32] array: accumulated in 64 bits. *)
Fixpoint cumsum_from (acc : Z) (l : list Z) : list Z :=
  match l with
  | [] => []
  | c :: t => int64 (acc + c) :: cumsum_from (int64 (acc + c)) t
  end.

Definition cumsum (l : list Z) : list Z := cumsum_from 0 l.

(** [a = zeros(n, int32); a[1:] = src]: the source is cast to [int32]; a
    source of another length is broadcast when it has one element and
    refused otherwise. *)
Definition assign_tail (n : nat) (src : list Z) : outcome (list Z) :=
  let k := pred n in
  do tail <- (if Nat.eqb (length src) k then Ok (map int32 src)
              else match src with
                   | [x] => Ok (repeat (int32 x) k)
                   | _ => Raise ValueError
                   end);
  Ok (firstn n (0 :: tail)).

Record Layout : Type := mkLayout {
  sendcounts : list Z;
  recvcounts : list Z;
  sendoffsets : list Z;
  recvoffsets : list Z;
  oldlength : Z;
  newlength : Z;
  indices : list Z
}.

(** [Layout.__init__] once the receive counts are known. *)
Definition make_layout (sendcnt idx recvcnt : list Z) : outcome Layout :=
  let n := length sendcnt in
  do so <- assign_tail n (removelast (cumsum sendcnt));
  do ro <- assign_tail n (removelast (cumsum recvcnt));
  Ok (mkLayout sendcnt recvcnt so ro
               (int64 (zsum sendcnt)) (int64 (zsum recvcnt)) idx).

(** [comm.Alltoall] on the count vectors of all ranks: rank [q] receives
    entry [q] of the vector of every rank [p]. *)
Definition Alltoall (send : list (list Z)) : list (list Z) :=
  map (fun q => map (fun s => nth q s 0) send) (seq 0 (length send)).

(** [Layout(comm, sendcounts, indices)] called by every rank of the
    group; an entry of [world] is the pair of arguments of one rank. *)
Definition Layout_init (world : list (list Z * list Z)) : outcome (list Layout) :=
  let size := length world in
  do _ <- mapM (fun w => assert (Nat.eqb size (length (fst w)))) world;
  let recv := Alltoall (map fst world) in
  mapM (fun wr => make_layout (fst (fst wr)) (snd (fst wr)) (snd wr))
       (combine world recv).

(** [Layout(comm, sendcounts, indices, recvcounts)]: no communication. *)
Definition Layout_init_with (size : nat) (sendcnt idx recvcnt : list Z)
  : outcome Layout :=
  do _ <- assert (Nat.eqb size (length sendcnt));
  make_layout sendcnt idx recvcnt.

(** [numpy.arange(n)]. *)
Definition arange (n : Z) : list Z := map Z.of_nat (seq 0 (Z.to_nat n)).

(** The layout of the way back: [Layout(comm, l.recvcounts,
    numpy.arange(l.newlength), recvcounts=l.sendcounts)]. The receive
    counts become the send counts and the other way round, so the
    offsets change roles with them; the items of the received array are
    sent in the order in which they arrived. *)
Definition Layout_swapped (size : nat) (l : Layout) : outcome Layout :=
  Layout_init_with size (recvcounts l) (arange (newlength l)) (sendcounts l).

(** [GridND.decompose] called by every rank of the group; an entry of
    [world] holds the positions and the support radius of one rank. *)
Definition decompose (g : GridND) (world : list (list (list Q) * radius))
  : outcome (list Layout) :=
  do local <- mapM (fun w => decompose_local g (fst w) (snd w)) world;
  Layout_init local.

(** ** [Layout.exchange] *)

Section Exchange.

(** One item of a payload: the block of the trailing dimensions that
    belongs to one particle. *)
Variable A : Type.

(** The bytes of one element of a dtype ([dtype.itemsize]). *)
Variable dtype_itemsize : string -> Z.

(** What the memory handed out by [numpy.empty] holds. *)
Variable uninit : nat -> A.

(** An array: the block of memory it owns, its element type
    ([dtype.str]), its shape without the leading dimension, and its items
    along the leading dimension. *)
Record ndarray : Type := mkarray {
  base : nat;
  dtype : string;
  trailing : list Z;
  items : list A
}.

(** [a.take(idx, axis=0)] on the items: an index in [-n, n) is accepted,
    a negative one counts from the end. *)
Definition take1 (l : list A) (k : Z) : outcome A :=
  let n := Z.of_nat (length l) in
  if (- n <=? k) && (k <? n)
  then match nth_error l (Z.to_nat (if k <? 0 then k + n else k)) with
       | Some x => Ok x
       | None => Raise IndexError
       end
  else Raise IndexError.

Definition take (l : list A) (idx : list Z) : outcome (list A) :=
  mapM (take1 l) idx.

(** [numpy.empty] with leading length [n]. *)
Definition numpy_empty (n : Z) : outcome (list A) :=
  if n <? 0 then Raise ValueError
  else Ok (map uninit (seq 0 (Z.to_nat n))).

(** One side of a vector message: buffer, counts and displacements in
    items, and the bytes of one item. *)
Record vmsg : Type := mkvmsg {
  buf : list A;
  counts : list Z;
  displs : list Z;
  stride : Z
}.

Definition slice (l : list A) (off cnt : Z) : list A :=
  firstn (Z.to_nat cnt) (skipn (Z.to_nat off) l).

Definition write (l : list A) (off : Z) (xs : list A) : list A :=
  firstn (Z.to_nat off) l ++ xs ++ skipn (Z.to_nat off + length xs) l.

(** The block from rank [p] to rank [q] is well defined: both ends agree
    on the number of items and, where items flow, on the item size, and
    the block lies inside both buffers. *)
Definition pair_ok (p q : nat) (s r : vmsg) : bool :=
  let sc := nth q (counts s) 0 in
  let so := nth q (displs s) 0 in
  let rc := nth p (counts r) 0 in
  let ro := nth p (displs r) 0 in
  (0 <=? sc) && (0 <=? so) && (so + sc <=? Z.of_nat (length (buf s)))
  && (0 <=? ro) && (ro + rc <=? Z.of_nat (length (buf r)))
  && (sc =? rc) && ((sc =? 0) || (stride s =? stride r)).

Definition vmsg_ok (size : nat) (m : vmsg) : bool :=
  Nat.eqb (length (counts m)) size && Nat.eqb (length (displs m)) size.

Definition indexed {T : Type} (l : list T) : list (nat * T) :=
  combine (seq 0 (length l)) l.

(** [comm.Alltoallv] on the messages of all ranks: the receive buffer of
    every rank after the call. [MPIError] stands for every call that MPI
    does not define (counts of the two ends that disagree, blocks outside
    a buffer, negative counts). *)
Definition Alltoallv (send recv : list vmsg) : outcome (list (list A)) :=
  let size := length send in
  if Nat.eqb (length recv) size
     && forallb (vmsg_ok size) send && forallb (vmsg_ok size) recv
     && forallb (fun ps =>
          forallb (fun qr => pair_ok (fst ps) (fst qr) (snd ps) (snd qr))
                  (indexed recv))
          (indexed send)
  then Ok (map (fun qr =>
                  fold_left (fun acc ps =>
                               write acc (nth (fst ps) (displs (snd qr)) 0)
                                     (slice (buf (snd ps))
                                            (nth (fst qr) (displs (snd ps)) 0)
                                            (nth (fst qr) (counts (snd ps)) 0)))
                            (indexed send) (buf (snd qr)))
               (indexed recv))
  else Raise MPIError.

(** The state of one rank when it calls [exchange]: the next unused block
    of memory, the layout and the payload. *)
Record process : Type := mkprocess {
  next_block : nat;
  layout : Layout;
  data : ndarray
}.

(** The part of [exchange] between the type check and the transfer, on
    one rank: the send buffer gathered by [take], the item size, and the
    receive buffer. *)
Definition stage (pr : process) : outcome (vmsg * vmsg) :=
  let l := layout pr in
  do buffer <- take (items (data pr)) (indices l);
  let duplicity := numpy.product (trailing (data pr)) in
  let itemsize := duplicity * dtype_itemsize (dtype (data pr)) in
  do recvbuffer <- numpy_empty (newlength l);
  Ok (mkvmsg buffer (sendcounts l) (sendoffsets l) itemsize,
      mkvmsg recvbuffer (recvcounts l) (recvoffsets l) itemsize).

(** [Layout.exchange] called by every rank of the group. The result of a
    rank is the next unused block and the returned array; [take] and
    [numpy.empty] allocate one block each. An exception of one rank is
    the outcome of the group: the other ranks never leave the following
    barrier. *)
Definition exchange (world : list process) : outcome (list (nat * ndarray)) :=
  let dtypes := map (fun pr => dtype (data pr)) world in
  if negb (Nat.eqb (length (nodup string_dec dtypes)) 1)
  then Raise (TypeError dtypes)
  else
    do staged <- mapM stage world;
    do received <- Alltoallv (map fst staged) (map snd staged);
    Ok (map (fun pr_items =>
               let pr := fst pr_items in
               (S (S (next_block pr)),
                mkarray (S (next_block pr)) (dtype (data pr))
                        (trailing (data pr)) (snd pr_items)))
            (combine world received)).

(** A payload sent through the layouts of the group and the result
    sent back through the swapped layouts. The arrays of the first
    transfer are the payloads of the second. *)
Definition round_trip (world : list process)
  : outcome (list (nat * ndarray)) :=
  do there <- exchange world;
  do back <- mapM (fun pr_res =>
                     do l <- Layout_swapped (length world)
                                            (layout (fst pr_res));
                     Ok (mkprocess (fst (snd pr_res)) l (snd (snd pr_res))))
                  (combine world there);
  exchange back.

End Exchange.

Arguments mkarray {A} base dtype trailing items.
Arguments base {A} n.
Arguments dtype {A} n.
Arguments trailing {A} n.
Arguments items {A} n.
Arguments mkprocess {A} next_block layout data.
Arguments next_block {A} p.
Arguments layout {A} p.
Arguments data {A} p.
Arguments take {A} l idx.
Arguments take1 {A} l k.
Arguments slice {A} l off cnt.
Arguments write {A} l off xs.

(** ** Notions used in the statements *)

(** A grid as [GridND.__init__] builds it from edge sequences that start
    at or after the origin, do not decrease, and are short enough for the
    16-bit bin indices. *)
Definition well_formed_edges (e : list Q) : Prop :=
  numpy.nondecreasing e = true
  /\ 0 < Z.of_nat (length e) <= 32767
  /\ (0 <= hd 0 e)%Q.

Definition well_formed_grid (g : GridND) : Prop :=
  dims g = map (fun e => int32 (Z.of_nat (length e) - 1)) (grid g)
  /\ Forall well_formed_edges (grid g).

(** A batch of shape (Npoint, D) with D at least the number of dimensions
    of the grid. *)
Definition well_formed_batch (g : GridND) (pos : list (list Q)) : Prop :=
  Forall (fun row => (length (dims g) <= length row)%nat) pos.

(** The rows [sil[j]] and [sir[j]] of a grid that is not periodic, as
    functions of the column of positions and of the radii. *)
Definition clamped_bounds (dim : Z) (edges col sml : list Q) : list Z * list Z :=
  (map (fun a => int16 (numpy.clip a 0 dim))
       (map (fun d => int16 (d - 1))
            (map (numpy.digitize1 edges) (zip_with Qminus col sml))),
   map (fun a => int16 (numpy.clip a 0 dim))
       (map int16 (map (numpy.digitize1 edges) (zip_with Qplus col sml)))).

Definition clamped_rows (g : GridND) (pos : list (list Q)) (sml : list Q)
    (j : nat) : list Z * list Z :=
  clamped_bounds (nth j (dims g) 0) (nth j (grid g) [])
                 (map (fun row => nth j row 0%Q) pos) sml.

(** The support interval [lo, hi] of a coordinate lies outside the
    domain of a dimension with the given edges: below the origin, or at
    or above the last edge. *)
Definition outside (edges : list Q) (lo hi : Q) : Prop :=
  ((lo < 0 /\ hi < 0) \/ (last edges 0 <= lo /\ last edges 0 <= hi))%Q.

(** The turns of the ranks [a], ..., [a + n - 1], one after the other. *)
Definition turns (a n : nat) : list global_event :=
  flat_map (fun r => [GWork r; GBarrier]) (seq a n).

(** ** The layout in the words of the specification *)

(** Offsets as exclusive prefix sums: entry [k] is the sum of the counts
    before [k], so entry 0 is 0. *)
Definition exclusive_prefix_sums (counts : list Z) : list Z :=
  map (fun k => zsum (firstn k counts)) (seq 0 (length counts)).

(** A count vector whose entries are not negative and whose total fits
    the 32-bit offsets. *)
Definition valid_counts (counts : list Z) : Prop :=
  Forall (fun c => 0 <= c) counts /\ zsum counts <= 2147483647.

(** The same sums with an accumulator, for the proofs. *)
Fixpoint prefix_sums_from (acc : Z) (counts : list Z) : list Z :=
  match counts with
  | [] => []
  | c :: t => acc :: prefix_sums_from (acc + c) t
  end.

(** The layout the specification describes for send counts, an index
    sequence and receive counts. *)
Definition layout_of (sendcnt idx recvcnt : list Z) : Layout :=
  mkLayout sendcnt recvcnt
           (exclusive_prefix_sums sendcnt) (exclusive_prefix_sums recvcnt)
           (zsum sendcnt) (zsum recvcnt) idx.

(** A group whose count vectors have one entry per rank and are valid on
    the sending and on the receiving side. *)
Definition valid_world (world : list (list Z * list Z)) : Prop :=
  Forall (fun w => length (fst w) = length world /\ valid_counts (fst w)) world
  /\ Forall valid_counts (Alltoall (map fst world)).

(** What the specification says of the array that [exchange] returns to
    a rank: it lives in a block that was not in use before the call, has
    the element type and trailing shape of the payload, and its leading
    length is [newlength]. *)
Definition returned_array {A : Type} (pr : process A) (res : nat * ndarray A)
  : Prop :=
  (next_block pr <= base (snd res))%nat
  /\ (base (snd res) < fst res)%nat
  /\ dtype (snd res) = dtype (data pr)
  /\ trailing (snd res) = trailing (data pr)
  /\ Z.of_nat (length (items (snd res))) = newlength (layout pr).

(** An index that [take] refuses for a payload of leading length [n]. *)
Definition out_of_range (n : nat) (k : Z) : Prop :=
  k < - Z.of_nat n \/ Z.of_nat n <= k.

(** The element types of all ranks agree. *)
Definition dtypes_agree {A : Type} (world : list (process A)) : Prop :=
  exists d, world <> [] /\ Forall (fun pr => dtype (data pr) = d) world.


(** ** The transfer in the words of the specification *)

(** The block that a rank with send counts [cnt] and send buffer [b]
    addresses to rank [q]. *)
Definition block_for {A : Type} (q : nat) (cnt : list Z) (b : list A)
  : list A :=
  slice b (nth q (exclusive_prefix_sums cnt) 0) (nth q cnt 0).

(** What rank [q] holds after a transfer with the send counts [M] and
    the send buffers [Bs] of all ranks: the blocks addressed to it, in
    the order of the sending ranks. *)
Definition gathered {A : Type} (M : list (list Z)) (Bs : list (list A))
    (q : nat) : list A :=
  concat (map (fun cb => block_for q (fst cb) (snd cb)) (combine M Bs)).

(** The send counts of all ranks of a group. *)
Definition send_matrix {A : Type} (world : list (process A))
  : list (list Z) :=
  map (fun pr => sendcounts (layout pr)) world.

(** The layouts of a group fit together: one count per rank, none
    negative, receive counts as the collective exchange of the send
    counts gives them, offsets as exclusive prefix sums, and the new
    length as the sum of the receive counts. *)
Definition consistent {A : Type} (world : list (process A)) : Prop :=
  Forall (fun pr =>
            let l := layout pr in
            length (sendcounts l) = length world
            /\ Forall (fun c => 0 <= c) (sendcounts l)
            /\ sendoffsets l = exclusive_prefix_sums (sendcounts l)
            /\ recvoffsets l = exclusive_prefix_sums (recvcounts l)
            /\ newlength l = zsum (recvcounts l))
         world
  /\ map (fun pr => recvcounts (layout pr)) world
     = Alltoall (send_matrix world).

(** Writes that follow each other without a gap from position [start]. *)
Fixpoint chained {A : Type} (start : nat) (obs : list (Z * list A)) : Prop :=
  match obs with
  | [] => True
  | ob :: t => fst ob = Z.of_nat start
               /\ chained (start + length (snd ob)) t
  end.

(** A count vector and the blocks it describes. *)
Definition sized {A : Type} (cnt : list Z) (bs : list (list A)) : Prop :=
  Forall2 (fun c b => 0 <= c /\ length b = Z.to_nat c) cnt bs.

(** The trailing shapes of all ranks agree. *)
Definition trailing_agree {A : Type} (world : list (process A)) : Prop :=
  exists t, Forall (fun pr => trailing (data pr) = t) world.

(** The index sequence of a layout names every item of the payload once
    and the send counts cover it: no item is left out or sent twice. *)
Definition bijective {A : Type} (pr : process A) : Prop :=
  Permutation (indices (layout pr))
              (arange (Z.of_nat (length (items (data pr)))))
  /\ zsum (sendcounts (layout pr)) = Z.of_nat (length (indices (layout pr))).

(** * The callers of the decomposition *)

(** ** [scripts/mpipaint.py]: the mesh of tiles and the work shares *)

Module mpipaint.

(** [buildgrid(PX, NX)]: the edges, in pixels, of [NX] strips that cover
    [PX] pixels with whole tiles of [TilePadding] pixels. [TilePadding]
    is a global of the script, 256 unless the configuration sets it.
    [numpy.arange] makes 64-bit integers, and numpy's integer floor
    division by 0 gives 0; [None] is the ZeroDivisionError of Python's
    own division by [TilePadding]. *)
Definition buildgrid (TilePadding PX NX : Z) : option (list Z) :=
  if TilePadding =? 0 then None
  else
    let ntile := PX / TilePadding + (if PX mod TilePadding =? 0 then 0 else 1) in
    Some (map (fun i =>
                 int64 (int64 (int64 (Z.of_nat i * ntile) / NX) * TilePadding))
              (seq 0 (Z.to_nat (NX + 1)))).

(** The loop [while comm.size % NX: NX = NX - 1] of [main]. [None] is
    the ZeroDivisionError of [comm.size % 0]. *)
Fixpoint mesh_width (size : Z) (NX : nat) : option Z :=
  match NX with
  | O => None
  | S k => if size mod Z.of_nat NX =? 0 then Some (Z.of_nat NX)
           else mesh_width size k
  end.

(** [NX] and [NY] of [main]. [root] is the value of
    [int(comm.size ** 0.5)], a floating-point computation. *)
Definition mesh_shape (size root : Z) : option (Z * Z) :=
  let NX := if root <? 1 then 1 else root in
  match mesh_width size (Z.to_nat NX) with
  | Some NX => Some (NX, size / NX)
  | None => None
  end.

(** [slice(i, j).indices(n)], start and stop: a negative bound counts
    from the end, and both are clamped to [0, n]. *)
Definition slice_indices (i j n : Z) : Z * Z :=
  let clamp k := if k <? 0 then Z.max (k + n) 0 else Z.min k n in
  (clamp i, clamp j).

(** [range(0, n, step)] for a positive [step]. *)
Definition chunk_starts (n step : Z) : list Z :=
  map (fun k => Z.of_nat k * step) (seq 0 (Z.to_nat ((n + step - 1) / step))).

(** [start] and [end] of a rank in the chunk that starts at [i]. *)
Definition share (NumPartTotal CHUNK_SIZE size rank i : Z) : Z * Z :=
  let FULL_CHUNK_SIZE := size * CHUNK_SIZE in
  let '(cstart, cend) :=
    slice_indices i (i + FULL_CHUNK_SIZE) NumPartTotal in
  (rank * (cend - cstart) / size + cstart,
   (rank + 1) * (cend - cstart) / size + cstart).

(** The rows that [block[start:end]] reads, for bounds inside the
    block. *)
Definition rows (se : Z * Z) : list Z :=
  map (fun k => fst se + Z.of_nat k) (seq 0 (Z.to_nat (snd se - fst se))).

(** The rows read by all ranks in all chunks: chunk after chunk, and in
    a chunk rank after rank. *)
Definition all_rows (NumPartTotal CHUNK_SIZE size : Z) : list Z :=
  flat_map (fun i =>
              flat_map (fun r =>
                          rows (share NumPartTotal CHUNK_SIZE size
                                      (Z.of_nat r) i))
                       (seq 0 (Z.to_nat size)))
           (chunk_starts NumPartTotal (size * CHUNK_SIZE)).

End mpipaint.

(** * The rest of [src/domain.py] *)

(** ** [GridND.__init__]: the cell of the calling rank *)

(** The loop of [numpy.unravel_index] in C order, from the last extent
    to the first: the coordinates and what is left of the index. *)
Fixpoint unravel (shape : list Z) (index : Z) : list Z * Z :=
  match shape with
  | [] => ([], index)
  | m :: rest =>
      let '(coords, val) := unravel rest index in
      (val mod m :: coords, val / m)
  end.

(** [numpy.unravel_index(index, shape)] for a shape without negative
    extents. *)
Definition unravel_index (index : Z) (shape : list Z) : outcome (list Z) :=
  if (0 <=? index) && (index <? numpy.product shape)
  then Ok (fst (unravel shape index))
  else Raise ValueError.

(** [g[r]] on a sequence: a negative [r] counts from the end. *)
Definition getitem {A : Type} (g : list A) (r : Z) : outcome A := take1 g r.

(** [myrank], [mystart] and [myend] of a [GridND]. *)
Record cell : Type := mkcell {
  myrank : list Z;
  mystart : list Q;
  myend : list Q
}.

(** [GridND.__init__] as the rank [rank] of a group of [size] ranks
    runs it, with the attributes that [GridND_init] leaves out. *)
Definition GridND_init_rank (edges : list (list Q)) (size : nat) (per : bool)
    (rank : nat) : outcome (GridND * cell) :=
  do g <- GridND_init edges size per;
  do coords <- unravel_index (Z.of_nat rank) (dims g);
  do start <- mapM (fun gr => getitem (fst gr) (snd gr)) (combine edges coords);
  do stop <- mapM (fun gr => getitem (fst gr) (snd gr + 1))
                  (combine edges coords);
  Ok (g, mkcell coords start stop).

(** The coordinate [r] names a cell of the dimension with the edges [e],
    and [a] and [b] are the edges of that cell. *)
Definition cell_of (e : list Q) (r : Z) (a b : Q) : Prop :=
  0 <= r < Z.of_nat (length e) - 1
  /\ nth_error e (Z.to_nat r) = Some a
  /\ nth_error e (S (Z.to_nat r)) = Some b
  /\ (a <= b)%Q.

(** The extents of the mesh of a list of edge vectors. *)
Definition mesh (edges : list (list Q)) : list Z :=
  map (fun e => Z.of_nat (length e) - 1) edges.

(** Coordinates inside a mesh. *)
Definition in_mesh (shape coords : list Z) : Prop :=
  Forall2 (fun m c => 0 <= c < m) shape coords.

(** ** The bin bounds of [GridND.decompose] in words *)

(** The coordinate that [decompose] bins: wrapped into the box where the
    grid is periodic. *)
Definition binned (per : bool) (edges : list Q) (x : Q) : Q :=
  if per then numpy.remainder x (last edges 0%Q) else x.

(** The support interval [lo, hi] of a particle meets the cell [k] of a
    dimension, the half-open interval between the edges [k] and
    [k + 1]. *)
Definition meets (edges : list Q) (k : nat) (lo hi : Q) : Prop :=
  (nth k edges 0 <= hi /\ lo < nth (S k) edges 0)%Q.

(** A support radius that numpy broadcasts against a batch of [n]
    particles. *)
Definition broadcasts (n : nat) (s : radius) : Prop :=
  match s with
  | Uniform _ => True
  | PerParticle rs => length rs = 1%nat \/ length rs = n
  end.

(** ** [Layout] and [Layout.exchange] in words *)

(** A payload with every item transformed. *)
Definition map_array {A B : Type} (f : A -> B) (a : ndarray A) : ndarray B :=
  mkarray (base a) (dtype a) (trailing a) (map f (items a)).

Definition map_process {A B : Type} (f : A -> B) (pr : process A)
  : process B :=
  mkprocess (next_block pr) (layout pr) (map_array f (data pr)).

Definition map_vmsg {A B : Type} (f : A -> B) (m : vmsg A) : vmsg B :=
  mkvmsg B (map f (buf A m)) (counts A m) (displs A m) (stride A m).

(** The result of a computation transformed, an exception passed on. *)
Definition map_outcome {T U : Type} (f : T -> U) (c : outcome T) : outcome U :=
  match c with
  | Ok x => Ok (f x)
  | Raise e => Raise e
  end.

(** The items that the ranks of a group hold after a transfer, rank
    after rank. *)
Definition received {A : Type} (results : list (nat * ndarray A)) : list A :=
  concat (map (fun res => items (snd res)) results).





(** ** Particles without extent *)

(** The bin of a particle without extent in a dimension with the edges
    [edges]: the index that [digitize] gives its binned coordinate, less
    one. *)
Definition point_bin (per : bool) (edges : list Q) (x : Q) : Z :=
  numpy.searchsorted edges (binned per edges x) - 1.

(** Every particle of the batch lies inside the domain of the grid: in
    every dimension, from the first edge up to but not including the
    last. *)
Definition inside_domain (g : GridND) (pos : list (list Q)) : Prop :=
  Forall (fun row =>
            forall j edges, nth_error (grid g) j = Some edges ->
              (hd 0 edges <= nth j row 0 /\ nth j row 0 < last edges 0)%Q)
         pos.

(** The cell of a particle without extent: its bin in every dimension
    of the grid. *)
Definition point_cell (g : GridND) (row : list Q) : list Z :=
  map (fun j => point_bin (periodic g) (nth j (grid g) []) (nth j row 0%Q))
      (seq 0 (length (dims g))).
(** * Properties *)

(** ** The examples of the specification *)

(** C2. On the periodic grid with edges 0, 1, 2, 3 and three ranks, the
    particle at 2.95 with support radius 0.1 has the bins [2, 4), which
    wrap to the destination ranks 2 and 0: [decompose] counts one item for
    rank 0, none for rank 1 and one for rank 2, and the index sequence
    holds the particle twice. *)
Theorem periodic_wrap_example :
  let pos := [[2.95%Q]] in
  let r := Uniform 0.1%Q in
  (do g <- grid3 true; bin_bounds g pos r 0) = Ok ([2], [4])
  /\ (do g <- grid3 true; destination_ranks g pos r) = Ok [[2; 0]]
  /\ on_grid3 true pos r = Ok ([1; 0; 1], [0; 0])
  /\ (forall k, In k [2; 0] <-> k = 2 \/ k = 0)
  /\ ~ In 1 [2; 0].
Proof.
  cbv zeta. repeat split; try (vm_compute; reflexivity).
  - simpl. intros [H | [H | []]]; auto.
  - simpl. intros [H | H]; auto.
  - simpl. intros [H | [H | []]]; discriminate.
Qed.

(** C3. On the same grid without periodicity, the particle at -0.05 with
    support radius 0.1 has its lower bin index clamped from -1 to 0: its
    bins are [0, 1), it is sent to rank 0 only, and nothing is raised. *)
Theorem nonperiodic_clamp_example :
  let pos := [[(-0.05)%Q]] in
  let r := Uniform 0.1%Q in
  (do g <- grid3 false; bin_bounds g pos r 0) = Ok ([0], [1])
  /\ (do g <- grid3 false; destination_ranks g pos r) = Ok [[0]]
  /\ on_grid3 false pos r = Ok ([1; 0; 0], [0])
  /\ (forall k, In k [0] <-> k = 0).
Proof.
  cbv zeta. repeat split; try (vm_compute; reflexivity).
  - simpl. intros [H | []]; auto.
  - simpl. auto.
Qed.

(** ** The empty batch *)

(** C9. For every grid and every number of processes, also a grid whose
    edges [numpy.digitize] would refuse, a batch of zero particles gives
    the count vector of [comm_size] zeros and the empty index sequence:
    the branch that computes bin indices is skipped. *)
Theorem decompose_empty_batch (g : GridND) (smoothing : radius) :
  decompose_local g [] smoothing = Ok (repeat 0 (comm_size g), [])
  /\ length (repeat 0 (comm_size g)) = comm_size g
  /\ Forall (fun c => c = 0) (repeat 0 (comm_size g)).
Proof.
  repeat split.
  - apply repeat_length.
  - apply Forall_forall. intros c Hc. now apply repeat_spec in Hc.
Qed.

(** ** Generic facts *)

Lemma mapM_pure {T U : Type} (f : T -> outcome U) (h : T -> U) (l : list T) :
  (forall x, In x l -> f x = Ok (h x)) -> mapM f l = Ok (map h l).
Proof.
  induction l as [| x t IH]; intros Hf; simpl.
  - reflexivity.
  - rewrite (Hf x) by (left; reflexivity). simpl.
    rewrite IH by (intros y Hy; apply Hf; right; exact Hy).
    reflexivity.
Qed.

Lemma mapM_raise {T U : Type} (f : T -> outcome U) (l : list T) (e : exn) :
  mapM f l = Raise e -> exists x, In x l /\ f x = Raise e.
Proof.
  induction l as [| x t IH]; simpl; intros H.
  - discriminate.
  - destruct (f x) as [y | e'] eqn:Hx; simpl in H.
    + destruct (mapM f t) as [ys | e''] eqn:Ht; simpl in H; [discriminate |].
      destruct (IH H) as [z [Hz Hfz]]. exists z. auto.
    + exists x. split; [now left | congruence].
Qed.

Lemma mapM_length {T U : Type} (f : T -> outcome U) (l : list T) (ys : list U) :
  mapM f l = Ok ys -> length ys = length l.
Proof.
  revert ys. induction l as [| x t IH]; simpl; intros ys H.
  - now inversion H.
  - destruct (f x) as [y | e]; simpl in H; [| discriminate].
    destruct (mapM f t) as [zs | e]; simpl in H; [| discriminate].
    inversion H. simpl. f_equal. now apply IH.
Qed.

Lemma nth_error_zip_with {T U V : Type} (f : T -> U -> V) l m i a b :
  nth_error l i = Some a -> nth_error m i = Some b ->
  nth_error (zip_with f l m) i = Some (f a b).
Proof.
  revert m i. induction l as [| x t IH]; intros [| y m] [| i]; simpl;
    try discriminate.
  - intros H1 H2. inversion H1. inversion H2. reflexivity.
  - intros H1 H2. exact (IH m i H1 H2).
Qed.

(** ** Bin indices *)

Lemma int16_small z : -32768 <= z <= 32767 -> int16 z = z.
Proof.
  intros H. unfold int16, wrap. change (2 ^ (16 - 1)) with 32768.
  change (2 ^ 16) with 65536. rewrite Z.mod_small; lia.
Qed.

Lemma int32_small z : -2147483648 <= z <= 2147483647 -> int32 z = z.
Proof.
  intros H. unfold int32, wrap. change (2 ^ (32 - 1)) with 2147483648.
  change (2 ^ 32) with 4294967296. rewrite Z.mod_small; lia.
Qed.

Lemma searchsorted_range a x :
  0 <= numpy.searchsorted a x <= Z.of_nat (length a).
Proof.
  induction a as [| e t IH]; cbn [numpy.searchsorted length].
  - lia.
  - rewrite Nat2Z.inj_succ. destruct (Qle_bool e x); lia.
Qed.

(** Below the first edge the bin index is 0. *)
Lemma searchsorted_below a x :
  (x < hd 0 a)%Q -> (0 < length a)%nat -> numpy.searchsorted a x = 0.
Proof.
  destruct a as [| e t]; simpl; intros Hx Hlen.
  - reflexivity.
  - destruct (Qle_bool e x) eqn:He; [| reflexivity].
    apply Qle_bool_iff in He. exfalso. apply (Qlt_not_le _ _ Hx He).
Qed.

Lemma nondecreasing_tail e t :
  numpy.nondecreasing (e :: t) = true -> numpy.nondecreasing t = true.
Proof.
  destruct t as [| y t]; simpl; intros H.
  - reflexivity.
  - apply andb_true_iff in H. apply H.
Qed.

(** At or above the last edge the bin index is the number of edges. *)
Lemma searchsorted_above a x :
  numpy.nondecreasing a = true -> (last a 0 <= x)%Q ->
  numpy.searchsorted a x = Z.of_nat (length a).
Proof.
  induction a as [| e t IH]; intros Hmono Hx.
  - reflexivity.
  - assert (Ht : numpy.searchsorted t x = Z.of_nat (length t)).
    { destruct t as [| y t']; [reflexivity |].
      apply IH; [exact (nondecreasing_tail _ _ Hmono) | exact Hx]. }
    assert (He : (e <= x)%Q).
    { destruct t as [| y t']; [exact Hx |].
      simpl in Hmono. apply andb_true_iff in Hmono. destruct Hmono as [Hey Hm].
      apply Qle_bool_iff in Hey.
      assert (Hy : numpy.searchsorted (y :: t') x = Z.of_nat (length (y :: t')))
        by exact Ht.
      cbn [numpy.searchsorted] in Hy. destruct (Qle_bool y x) eqn:Hyx.
      - apply Qle_bool_iff in Hyx. eapply Qle_trans; eassumption.
      - exfalso. cbn [length] in Hy. rewrite Nat2Z.inj_succ in Hy. lia. }
    apply Qle_bool_iff in He.
    change (numpy.searchsorted (e :: t) x)
      with (if Qle_bool e x then 1 + numpy.searchsorted t x else 0).
    rewrite He, Ht. cbn [length]. rewrite Nat2Z.inj_succ. lia.
Qed.

Lemma digitize1_nondecreasing bins x :
  numpy.nondecreasing bins = true ->
  numpy.digitize1 bins x = numpy.searchsorted bins x.
Proof.
  intros H. unfold numpy.digitize1, numpy.monotonicity. now rewrite H.
Qed.

Lemma digitize_nondecreasing data bins :
  numpy.nondecreasing bins = true ->
  numpy.digitize data bins = Ok (map (numpy.digitize1 bins) data).
Proof.
  intros H. unfold numpy.digitize, numpy.monotonicity. now rewrite H.
Qed.

(** ** The rows of bin bounds of a grid that is not periodic *)

Lemma column_ok (g : GridND) pos j :
  well_formed_batch g pos -> (j < length (dims g))%nat ->
  column j pos = Ok (map (fun row => nth j row 0%Q) pos).
Proof.
  intros Hwf Hj. unfold column.
  replace (forallb (fun row => Nat.ltb j (length row)) pos) with true;
    [reflexivity |].
  symmetry. apply forallb_forall. intros row Hrow.
  unfold well_formed_batch in Hwf. rewrite Forall_forall in Hwf.
  specialize (Hwf row Hrow). apply Nat.ltb_lt. lia.
Qed.

Lemma bin_bounds_nonperiodic (g : GridND) pos s j col sml :
  periodic g = false ->
  column j pos = Ok col ->
  broadcast (length pos) s = Ok sml ->
  numpy.nondecreasing (nth j (grid g) []) = true ->
  bin_bounds g pos s j
  = Ok (clamped_bounds (nth j (dims g) 0) (nth j (grid g) []) col sml).
Proof.
  intros Hper Hcol Hsml Hmono. unfold bin_bounds.
  rewrite Hcol, Hper. cbn [bind]. rewrite Hsml. cbn [bind].
  rewrite !(digitize_nondecreasing _ _ Hmono). cbn [bind].
  reflexivity.
Qed.

Lemma well_formed_dim (g : GridND) j edges :
  well_formed_grid g -> nth_error (grid g) j = Some edges ->
  nth j (dims g) 0 = Z.of_nat (length edges) - 1
  /\ nth j (grid g) [] = edges
  /\ well_formed_edges edges
  /\ (j < length (dims g))%nat.
Proof.
  intros [Hdims Hall] Hj.
  assert (Hin : In edges (grid g)) by (eapply nth_error_In; eassumption).
  rewrite Forall_forall in Hall. pose proof (Hall _ Hin) as Hwf.
  split; [| split; [| split]].
  - rewrite Hdims.
    rewrite (nth_error_nth _ _ _ (map_nth_error _ _ _ Hj)).
    destruct Hwf as [_ [Hlen _]]. apply int32_small. lia.
  - now apply nth_error_nth.
  - exact Hwf.
  - rewrite Hdims, length_map. apply nth_error_Some. congruence.
Qed.

(** A support interval that lies below the origin or at or above the last
    edge has equal clamped bounds. *)
Lemma clamped_outside (edges : list Q) (lo hi : Q) :
  well_formed_edges edges ->
  ((lo < 0 /\ hi < 0) \/ (last edges 0 <= lo /\ last edges 0 <= hi))%Q ->
  let dim := Z.of_nat (length edges) - 1 in
  int16 (numpy.clip (int16 (numpy.digitize1 edges lo - 1)) 0 dim)
  = int16 (numpy.clip (int16 (numpy.digitize1 edges hi)) 0 dim).
Proof.
  intros [Hmono [Hlen Hhd]] Hout dim.
  rewrite !(digitize1_nondecreasing _ _ Hmono).
  assert (Hpos : (0 < length edges)%nat) by lia.
  destruct Hout as [[Hlo Hhi] | [Hlo Hhi]].
  - rewrite !searchsorted_below; try assumption;
      try (eapply Qlt_le_trans; eassumption).
    rewrite (int16_small (0 - 1)), (int16_small 0) by lia.
    unfold numpy.clip. f_equal; lia.
  - rewrite !searchsorted_above by assumption.
    rewrite (int16_small (Z.of_nat (length edges) - 1)),
            (int16_small (Z.of_nat (length edges))) by lia.
    unfold numpy.clip. subst dim. f_equal; lia.
Qed.

Lemma nth_error_column (pos : list (list Q)) i j row x :
  nth_error pos i = Some row -> nth_error row j = Some x ->
  nth_error (map (fun row => nth j row 0%Q) pos) i = Some x.
Proof.
  intros Hrow Hx. rewrite (map_nth_error _ _ _ Hrow).
  f_equal. now apply nth_error_nth.
Qed.

(** The bounds of particle [i] in dimension [j], read off the rows. *)
Lemma clamped_bounds_nth dim edges col sml i x r :
  nth_error col i = Some x -> nth_error sml i = Some r ->
  nth_error (fst (clamped_bounds dim edges col sml)) i
  = Some (int16 (numpy.clip (int16 (numpy.digitize1 edges (x - r) - 1)) 0 dim))
  /\ nth_error (snd (clamped_bounds dim edges col sml)) i
     = Some (int16 (numpy.clip (int16 (numpy.digitize1 edges (x + r))) 0 dim)).
Proof.
  intros Hx Hr. unfold clamped_bounds. cbn [fst snd]. split.
  - pose proof (nth_error_zip_with Qminus _ _ _ _ _ Hx Hr) as Hz.
    now rewrite (map_nth_error _ _ _ (map_nth_error _ _ _ (map_nth_error _ _ _ Hz))).
  - pose proof (nth_error_zip_with Qplus _ _ _ _ _ Hx Hr) as Hz.
    now rewrite (map_nth_error _ _ _ (map_nth_error _ _ _ (map_nth_error _ _ _ Hz))).
Qed.

(** ** The fill kernel on a particle without bins *)

Lemma flat_map_nil {T U : Type} (l : list T) :
  flat_map (fun _ : T => @nil U) l = [].
Proof. induction l as [| x t IH]; simpl; auto. Qed.

Lemma cartesian_nil ranges : In [] ranges -> cartesian ranges = [].
Proof.
  induction ranges as [| r rest IH]; simpl; intros H.
  - contradiction.
  - destruct H as [H | H].
    + subst r. reflexivity.
    + rewrite (IH H). simpl. apply flat_map_nil.
Qed.

Lemma bin_range_empty a : bin_range a a = [].
Proof. unfold bin_range. now rewrite Z.sub_diag. Qed.

Lemma destinations_empty ds per lo hi j a :
  nth_error lo j = Some a -> nth_error hi j = Some a ->
  destinations ds per lo hi = [].
Proof.
  intros Hlo Hhi. unfold destinations.
  rewrite cartesian_nil; [reflexivity |].
  pose proof (nth_error_zip_with bin_range _ _ _ _ _ Hlo Hhi) as Hz.
  rewrite bin_range_empty in Hz. eapply nth_error_In; eassumption.
Qed.

Lemma particle_bounds_nth (a : list (list Z)) i j row v :
  nth_error a j = Some row -> nth_error row i = Some v ->
  nth_error (particle_bounds a i) j = Some v.
Proof.
  intros Hrow Hv. unfold particle_bounds.
  rewrite (map_nth_error _ _ _ Hrow). f_equal. now apply nth_error_nth.
Qed.

(** A particle without destination ranks does not occur in the index
    sequence. *)
Lemma fill_indices_skip npoint counts ds sil sir per i :
  particle_destinations ds per sil sir i = [] ->
  ~ In (Z.of_nat i) (gridnd_fill_indices npoint counts ds sil sir per).
Proof.
  intros Hnone Hin. unfold gridnd_fill_indices in Hin.
  apply in_flat_map in Hin. destruct Hin as [r [_ Hin]].
  apply in_flat_map in Hin. destruct Hin as [i' [_ Hin]].
  pose proof (repeat_spec _ _ _ Hin) as Heq.
  apply Nat2Z.inj in Heq. subst i'.
  rewrite Hnone in Hin. simpl in Hin. exact Hin.
Qed.

(** ** [decompose] on a grid that is not periodic *)

Lemma bounds_nonperiodic_total (g : GridND) pos s sml :
  periodic g = false -> well_formed_grid g -> well_formed_batch g pos ->
  broadcast (length pos) s = Ok sml ->
  mapM (bin_bounds g pos s) (seq 0 (length (dims g)))
  = Ok (map (clamped_rows g pos sml) (seq 0 (length (dims g)))).
Proof.
  intros Hper Hg Hpos Hsml. apply mapM_pure. intros j Hj.
  apply in_seq in Hj. destruct Hj as [_ Hj]. simpl in Hj.
  assert (Hlen : length (dims g) = length (grid g)).
  { destruct Hg as [Hd _]. rewrite Hd. apply length_map. }
  destruct (nth_error (grid g) j) as [edges |] eqn:He.
  2:{ apply nth_error_None in He. lia. }
  destruct (well_formed_dim g j edges Hg He) as [_ [Hnth [[Hmono _] _]]].
  unfold clamped_rows.
  apply bin_bounds_nonperiodic; try assumption.
  - now apply (column_ok g).
  - now rewrite Hnth.
Qed.

Lemma assign_nonperiodic (g : GridND) pos s sml :
  periodic g = false -> well_formed_grid g -> well_formed_batch g pos ->
  broadcast (length pos) s = Ok sml -> pos <> [] ->
  let bounds := map (clamped_rows g pos sml) (seq 0 (length (dims g))) in
  let counts := gridnd_fill_counts (length pos) (numpy.zeros (comm_size g))
                  (dims g) (map fst bounds) (map snd bounds) false in
  assign g pos s
  = Ok (counts,
        gridnd_fill_indices (length pos) counts (dims g)
          (map fst bounds) (map snd bounds) false).
Proof.
  intros Hper Hg Hpos Hsml Hne bounds counts. unfold assign.
  destruct pos as [| row pos']; [congruence |].
  cbn [length Nat.eqb].
  change (S (length pos')) with (length (row :: pos')).
  rewrite (bounds_nonperiodic_total g (row :: pos') s sml Hper Hg Hpos Hsml).
  cbn [bind]. rewrite Hper. reflexivity.
Qed.

Lemma decompose_local_small (g : GridND) pos s :
  Z.of_nat (length pos) < 2147483648 ->
  decompose_local g pos s = assign g pos s.
Proof.
  intros H. unfold decompose_local, assert.
  replace (Z.of_nat (length pos) <? 1024 * 1024 * 1024 * 2) with true;
    [reflexivity |].
  symmetry. apply Z.ltb_lt. lia.
Qed.

Lemma nth_error_seq0 n j : (j < n)%nat -> nth_error (seq 0 n) j = Some j.
Proof.
  intros H. rewrite (nth_error_nth' _ 0%nat) by (rewrite length_seq; exact H).
  now rewrite seq_nth.
Qed.

(** With radius 0 the support interval is the coordinate itself. *)
Lemma outside_radius_zero (edges : list Q) (x : Q) :
  (x < 0 \/ last edges 0 <= x)%Q -> outside edges (x - 0) (x + 0).
Proof.
  assert (Hm : (x - 0 == x)%Q) by ring.
  assert (Hp : (x + 0 == x)%Q) by ring.
  unfold outside. rewrite Hm, Hp. tauto.
Qed.

(** The bin bounds of a particle outside the domain in dimension [j]. *)
Lemma outside_rows (g : GridND) pos sml i j row edges x r :
  well_formed_grid g ->
  nth_error pos i = Some row -> nth_error row j = Some x ->
  nth_error sml i = Some r ->
  nth_error (grid g) j = Some edges ->
  outside edges (x - r) (x + r) ->
  exists a,
    nth_error (fst (clamped_rows g pos sml j)) i = Some a
    /\ nth_error (snd (clamped_rows g pos sml j)) i = Some a.
Proof.
  intros Hg Hrow Hx Hr He Hout.
  destruct (well_formed_dim g j edges Hg He) as [Hdim [Hnth [Hwf _]]].
  unfold clamped_rows. rewrite Hdim, Hnth.
  destruct (clamped_bounds_nth (Z.of_nat (length edges) - 1) edges
              (map (fun row => nth j row 0%Q) pos) sml i x r
              (nth_error_column pos i j row x Hrow Hx) Hr) as [Hlo Hhi].
  eexists. split; [exact Hlo |].
  rewrite Hhi. f_equal. symmetry. now apply clamped_outside.
Qed.

Lemma outside_no_destination (g : GridND) pos sml i j row edges x r :
  well_formed_grid g ->
  nth_error pos i = Some row -> nth_error row j = Some x ->
  nth_error sml i = Some r ->
  nth_error (grid g) j = Some edges ->
  outside edges (x - r) (x + r) ->
  let bounds := map (clamped_rows g pos sml) (seq 0 (length (dims g))) in
  particle_destinations (dims g) false (map fst bounds) (map snd bounds) i = [].
Proof.
  intros Hg Hrow Hx Hr He Hout bounds.
  destruct (outside_rows g pos sml i j row edges x r Hg Hrow Hx Hr He Hout)
    as [a [Hlo Hhi]].
  destruct (well_formed_dim g j edges Hg He) as [_ [_ [_ Hj]]].
  assert (Hb : nth_error bounds j = Some (clamped_rows g pos sml j)).
  { unfold bounds. now rewrite (map_nth_error _ _ _ (nth_error_seq0 _ _ Hj)). }
  unfold particle_destinations.
  apply (destinations_empty _ _ _ _ j a).
  - eapply particle_bounds_nth; [apply (map_nth_error _ _ _ Hb) | exact Hlo].
  - eapply particle_bounds_nth; [apply (map_nth_error _ _ _ Hb) | exact Hhi].
Qed.

(** C10. On a grid that is not periodic, a particle whose support
    interval lies outside the domain in some dimension [j] (below the
    origin, or at or above the last edge) has equal clamped lower and
    upper bin indices in that dimension, so it has no destination rank:
    [decompose] returns normally and the index sequence does not hold the
    particle. With [outside_radius_zero] this covers radius 0 and a
    coordinate below 0 or at or above the extent. *)
Theorem outside_particle_dropped (g : GridND) pos s sml i j row edges x r :
  periodic g = false -> well_formed_grid g -> well_formed_batch g pos ->
  Z.of_nat (length pos) < 2147483648 ->
  broadcast (length pos) s = Ok sml ->
  nth_error pos i = Some row -> nth_error row j = Some x ->
  nth_error sml i = Some r ->
  nth_error (grid g) j = Some edges ->
  outside edges (x - r) (x + r) ->
  exists sil sir a dests counts idx,
    bin_bounds g pos s j = Ok (sil, sir)
    /\ nth_error sil i = Some a /\ nth_error sir i = Some a
    /\ destination_ranks g pos s = Ok dests /\ nth_error dests i = Some []
    /\ decompose_local g pos s = Ok (counts, idx)
    /\ ~ In (Z.of_nat i) idx.
Proof.
  intros Hper Hg Hpos Hsmall Hsml Hrow Hx Hr He Hout.
  destruct (outside_rows g pos sml i j row edges x r Hg Hrow Hx Hr He Hout)
    as [a [Hlo Hhi]].
  destruct (well_formed_dim g j edges Hg He) as [_ [Hnth [[Hmono _] Hj]]].
  pose proof (outside_no_destination g pos sml i j row edges x r
                Hg Hrow Hx Hr He Hout) as Hnone.
  cbv zeta in Hnone.
  assert (Hne : pos <> []) by (intros ->; destruct i; discriminate).
  assert (Hi : (i < length pos)%nat) by (apply nth_error_Some; congruence).
  pose proof (assign_nonperiodic g pos s sml Hper Hg Hpos Hsml Hne) as Hassign.
  cbv zeta in Hassign.
  exists (fst (clamped_rows g pos sml j)), (snd (clamped_rows g pos sml j)), a.
  eexists. eexists. eexists.
  split; [| split; [exact Hlo | split; [exact Hhi | split; [| split; [| split]]]]].
  - rewrite <- surjective_pairing. unfold clamped_rows.
    apply bin_bounds_nonperiodic; try assumption.
    + now apply (column_ok g).
    + now rewrite Hnth.
  - unfold destination_ranks.
    rewrite (bounds_nonperiodic_total g pos s sml Hper Hg Hpos Hsml).
    cbn [bind]. rewrite Hper. reflexivity.
  - rewrite (map_nth_error _ _ _ (nth_error_seq0 _ _ Hi)).
    now rewrite Hnone.
  - rewrite (decompose_local_small g pos s Hsmall). exact Hassign.
  - now apply fill_indices_skip.
Qed.

Lemma outside_particle_dropped_witness :
  exists g,
    grid3 false = Ok g
    /\ exists sil sir a dests counts idx,
         bin_bounds g [[(-0.05)%Q]] (Uniform 0) 0 = Ok (sil, sir)
         /\ nth_error sil 0 = Some a /\ nth_error sir 0 = Some a
         /\ destination_ranks g [[(-0.05)%Q]] (Uniform 0) = Ok dests
         /\ nth_error dests 0 = Some []
         /\ decompose_local g [[(-0.05)%Q]] (Uniform 0) = Ok (counts, idx)
         /\ ~ In (Z.of_nat 0) idx.
Proof.
  eexists. split; [reflexivity |].
  apply (outside_particle_dropped _ [[(-0.05)%Q]] (Uniform 0) [0%Q] 0 0
           [(-0.05)%Q] [0; 1; 2; 3]%Q (-0.05)%Q 0%Q).
  - reflexivity.
  - split; [reflexivity |].
    repeat constructor; simpl; try lia; try discriminate.
  - repeat constructor.
  - simpl. lia.
  - reflexivity.
  - reflexivity.
  - reflexivity.
  - reflexivity.
  - reflexivity.
  - apply outside_radius_zero. left. reflexivity.
Defined.

(** ** The guard on the number of particles *)

Lemma bin_bounds_no_assertion (g : GridND) pos s j :
  bin_bounds g pos s j <> Raise AssertionError.
Proof.
  unfold bin_bounds, column, last_edge, broadcast, numpy.digitize.
  repeat (match goal with
          | |- context [match ?x with _ => _ end] => destruct x
          end; cbn [bind]);
    discriminate.
Qed.

Lemma assign_no_assertion (g : GridND) pos s :
  assign g pos s <> Raise AssertionError.
Proof.
  unfold assign. destruct (Nat.eqb (length pos) 0); [discriminate |].
  destruct (mapM (bin_bounds g pos s) (seq 0 (length (dims g))))
    as [bounds | e] eqn:Hm; cbn [bind]; [discriminate |].
  intros He. inversion He. subst e.
  destruct (mapM_raise _ _ _ Hm) as [j [_ Hj]].
  exact (bin_bounds_no_assertion g pos s j Hj).
Qed.

(** C6, as the code has it. [decompose] raises its [AssertionError]
    exactly when the batch holds 2^31 particles or more; the length of
    the index sequence is not examined, and below that number of
    particles the result is that of the two passes of the kernel. *)
Theorem decompose_guard (g : GridND) pos s :
  (decompose_local g pos s = Raise AssertionError
   <-> 2147483648 <= Z.of_nat (length pos))
  /\ (Z.of_nat (length pos) < 2147483648 ->
      decompose_local g pos s = assign g pos s).
Proof.
  split; [| apply decompose_local_small].
  destruct (Z.ltb_spec (Z.of_nat (length pos)) 2147483648) as [Hlt | Hge].
  - rewrite (decompose_local_small g pos s Hlt). split.
    + intros H. exfalso. exact (assign_no_assertion g pos s H).
    + lia.
  - split; [intros _; exact Hge |]. intros _.
    unfold decompose_local, assert.
    replace (Z.of_nat (length pos) <? 1024 * 1024 * 1024 * 2) with false;
      [reflexivity |].
    symmetry. apply Z.ltb_ge. lia.
Qed.

Lemma flat_map_all_nil {T U : Type} (f : T -> list U) (l : list T) :
  (forall x, In x l -> f x = []) -> flat_map f l = [].
Proof.
  induction l as [| x t IH]; simpl; intros H.
  - reflexivity.
  - rewrite (H x) by now left. simpl. apply IH. intros y Hy. apply H. now right.
Qed.

Lemma fill_indices_none npoint counts ds sil sir per :
  (forall i, (i < npoint)%nat -> particle_destinations ds per sil sir i = []) ->
  gridnd_fill_indices npoint counts ds sil sir per = [].
Proof.
  intros Hnone. unfold gridnd_fill_indices.
  apply flat_map_all_nil. intros r _.
  apply flat_map_all_nil. intros i Hi.
  apply in_seq in Hi. rewrite (Hnone i) by lia. reflexivity.
Qed.

(** A batch of [n] particles at -1 with radius 0 on the grid of the
    examples, not periodic: every particle is dropped. *)
Lemma all_outside_batch (g : GridND) (n : nat) :
  grid3 false = Ok g -> (0 < n)%nat ->
  exists counts, assign g (repeat [(-1)%Q] n) (Uniform 0) = Ok (counts, []).
Proof.
  intros Hg Hn. inversion Hg as [Hg']. clear Hg.
  set (g0 := mkGridND _ _ _ _) in *. subst g.
  set (pos := repeat [(-1)%Q] n).
  assert (Hlen : length pos = n) by apply repeat_length.
  assert (Hwf : well_formed_grid g0).
  { split; [reflexivity |].
    repeat constructor; simpl; try lia; try discriminate. }
  assert (Hpos : well_formed_batch g0 pos).
  { apply Forall_forall. intros row Hrow. apply repeat_spec in Hrow.
    subst row. simpl. lia. }
  assert (Hsml : broadcast (length pos) (Uniform 0) = Ok (repeat 0%Q n)).
  { simpl. now rewrite Hlen. }
  assert (Hne : pos <> []).
  { intros H. rewrite H in Hlen. simpl in Hlen. lia. }
  pose proof (assign_nonperiodic g0 pos (Uniform 0) (repeat 0%Q n)
                eq_refl Hwf Hpos Hsml Hne) as Hassign.
  cbv zeta in Hassign. rewrite Hassign. eexists. f_equal. f_equal.
  apply fill_indices_none. intros i Hi. rewrite Hlen in Hi.
  apply (outside_no_destination g0 pos (repeat 0%Q n) i 0 [(-1)%Q]
           [0; 1; 2; 3]%Q (-1)%Q 0%Q Hwf).
  - unfold pos. now apply nth_error_repeat.
  - reflexivity.
  - now apply nth_error_repeat.
  - reflexivity.
  - apply outside_radius_zero. left. reflexivity.
Qed.

Lemma big_batch_raises (g : GridND) (n : nat) :
  grid3 false = Ok g -> 2147483648 <= Z.of_nat n ->
  exists counts,
    assign g (repeat [(-1)%Q] n) (Uniform 0) = Ok (counts, [])
    /\ decompose_local g (repeat [(-1)%Q] n) (Uniform 0) = Raise AssertionError.
Proof.
  intros Hg Hn.
  destruct (all_outside_batch g n Hg) as [counts Hc]; [lia |].
  exists counts. split; [exact Hc |].
  unfold decompose_local, assert. rewrite repeat_length.
  replace (Z.of_nat n <? 1024 * 1024 * 1024 * 2) with false; [reflexivity |].
  symmetry. apply Z.ltb_ge. lia.
Qed.

(** C6, as the specification states it, fails: a batch of 2^31 particles that all
    lie outside a grid that is not periodic gives an empty index
    sequence, well inside any index width, and [decompose] raises. *)
Lemma decompose_guard_counterexample :
  exists g counts,
    grid3 false = Ok g
    /\ assign g (repeat [(-1)%Q] (Z.to_nat 2147483648)) (Uniform 0)
       = Ok (counts, [])
    /\ decompose_local g (repeat [(-1)%Q] (Z.to_nat 2147483648)) (Uniform 0)
       = Raise AssertionError.
Proof.
  exists (mkGridND [3] [[0; 1; 2; 3]%Q] false 3).
  assert (Hn : 2147483648 <= Z.of_nat (Z.to_nat 2147483648)).
  { rewrite Z2Nat.id; discriminate. }
  destruct (big_batch_raises _ (Z.to_nat 2147483648) eq_refl Hn)
    as [counts [Ha Hd]].
  exists counts. split; [reflexivity |]. split; assumption.
Qed.

Lemma decompose_guard_witness :
  exists g,
    grid3 true = Ok g
    /\ decompose_local g [[2.95%Q]] (Uniform 0.1%Q)
       = assign g [[2.95%Q]] (Uniform 0.1%Q).
Proof.
  eexists. split; [reflexivity |].
  apply (proj2 (decompose_guard _ [[2.95%Q]] (Uniform 0.1%Q))).
  simpl. lia.
Defined.

(** ** [Rotator] *)

Lemma map_const_seq {T : Type} (c : T) a n :
  map (fun _ : nat => c) (seq a n) = repeat c n.
Proof.
  revert a. induction n as [| n IH]; intros a; simpl; [reflexivity |].
  now rewrite IH.
Qed.

Lemma repeat_snoc {T : Type} (c : T) n : repeat c n ++ [c] = c :: repeat c n.
Proof. induction n as [| n IH]; simpl; [reflexivity |]. now rewrite IH. Qed.

Lemma Rotator_enter_shape rank : Rotator_enter rank = repeat Barrier (S rank).
Proof. unfold Rotator_enter. now rewrite map_const_seq. Qed.

Lemma Rotator_exit_shape rank size :
  Rotator_exit rank size = repeat Barrier (S (size - rank)).
Proof. unfold Rotator_exit. rewrite map_const_seq. apply repeat_snoc. Qed.

Lemma map_repeat {T U : Type} (f : T -> U) c n :
  map f (repeat c n) = repeat (f c) n.
Proof. induction n as [| n IH]; simpl; [reflexivity |]. now rewrite IH. Qed.

Lemma with_Rotator_shape rank size :
  with_Rotator rank size
  = repeat (Sync Barrier) (S rank)
    ++ Work rank :: repeat (Sync Barrier) (S (size - rank)).
Proof.
  unfold with_Rotator.
  rewrite Rotator_enter_shape, Rotator_exit_shape, !map_repeat. reflexivity.
Qed.

Lemma project_work_same r run :
  project r (GWork r :: run) = Work r :: project r run.
Proof. unfold project. simpl. now rewrite Nat.eqb_refl. Qed.

Lemma project_work_other r r' run :
  r <> r' -> project r (GWork r' :: run) = project r run.
Proof.
  intros H. unfold project. simpl.
  destruct (Nat.eqb r r') eqn:E; [apply Nat.eqb_eq in E; contradiction |].
  reflexivity.
Qed.

(** The invariant of a run: [k] barriers have passed, the ranks below [w]
    have run their bodies and only wait, every other rank [r] still has
    to pass the barriers up to number [S r] before its body. *)
Lemma rotator_order_from size run : forall k w,
  (forall r, In r (work_log run) -> (r < size)%nat) ->
  (forall r, (w <= r < size)%nat ->
     exists m, (m + k = S r)%nat
       /\ project r run
          = repeat (Sync Barrier) m
            ++ Work r :: repeat (Sync Barrier) (S (size - r))) ->
  (forall r, (r < w)%nat -> exists m, project r run = repeat (Sync Barrier) m) ->
  work_log run = seq w (size - w).
Proof.
  induction run as [| e rest IH]; intros k w Hworks Htodo Hdone.
  - destruct (Nat.lt_ge_cases w size) as [Hlt | Hge].
    + destruct (Htodo w (conj (Nat.le_refl w) Hlt)) as [m [_ Hm]].
      simpl in Hm. now apply app_cons_not_nil in Hm.
    + replace (size - w)%nat with 0%nat by lia. reflexivity.
  - destruct e as [| r'].
    + change (work_log (GBarrier :: rest)) with (work_log rest).
      apply (IH (S k) w).
      * exact Hworks.
      * intros r Hr. destruct (Htodo r Hr) as [m [Hk Hm]].
        change (project r (GBarrier :: rest))
          with (Sync Barrier :: project r rest) in Hm.
        destruct m as [| m']; simpl in Hm; [discriminate |].
        exists m'. split; [lia |]. now inversion Hm.
      * intros r Hr. destruct (Hdone r Hr) as [m Hm].
        change (project r (GBarrier :: rest))
          with (Sync Barrier :: project r rest) in Hm.
        destruct m as [| m']; simpl in Hm; [discriminate |].
        exists m'. now inversion Hm.
    + change (work_log (GWork r' :: rest)) with (r' :: work_log rest).
      assert (Hr' : (r' < size)%nat) by (apply Hworks; now left).
      assert (Hw : (w <= r')%nat).
      { destruct (Nat.le_gt_cases w r') as [H | H]; [exact H |].
        destruct (Hdone r' H) as [m Hm]. rewrite project_work_same in Hm.
        destruct m; discriminate. }
      destruct (Htodo r' (conj Hw Hr')) as [m [Hk Hm]].
      rewrite project_work_same in Hm.
      destruct m as [| m']; simpl in Hm; [| discriminate].
      inversion Hm as [Hrest]. clear Hm.
      assert (Heq : r' = w).
      { destruct (Htodo w) as [mw [Hkw _]]; lia. }
      subst r'.
      replace (size - w)%nat with (S (size - S w)) by lia.
      simpl. f_equal.
      apply (IH k (S w)).
      * intros r Hr. apply Hworks. now right.
      * intros r Hr. destruct (Htodo r) as [m [Hkm Hm]]; [lia |].
        rewrite project_work_other in Hm by lia. exists m. auto.
      * intros r Hr. destruct (Nat.eq_dec r w) as [-> | Hne].
        -- exists (S (size - w)). exact Hrest.
        -- destruct (Hdone r) as [m Hm]; [lia |].
           rewrite project_work_other in Hm by lia. exists m. exact Hm.
Qed.

(** In every run of the region the bodies are executed in rank order. *)
Lemma rotator_run_order size run :
  rotator_run size run -> work_log run = seq 0 size.
Proof.
  intros [Hworks Hprog].
  rewrite (rotator_order_from size run 0 0 Hworks).
  - now rewrite Nat.sub_0_r.
  - intros r [_ Hr]. exists (S r). split; [lia |].
    rewrite (Hprog r Hr). apply with_Rotator_shape.
  - intros r Hr. lia.
Qed.

Lemma project_turns_other r n : forall a,
  (r < a \/ a + n <= r)%nat ->
  project r (turns a n) = repeat (Sync Barrier) n.
Proof.
  induction n as [| n IH]; intros a Hr; [reflexivity |].
  change (turns a (S n)) with (GWork a :: GBarrier :: turns (S a) n).
  rewrite project_work_other by lia.
  change (project r (GBarrier :: turns (S a) n))
    with (Sync Barrier :: project r (turns (S a) n)).
  rewrite IH by lia. reflexivity.
Qed.

Lemma project_turns_own r n : forall a,
  (a <= r < a + n)%nat ->
  project r (turns a n)
  = repeat (Sync Barrier) (r - a)
    ++ Work r :: repeat (Sync Barrier) (a + n - r).
Proof.
  induction n as [| n IH]; intros a Hr; [lia |].
  change (turns a (S n)) with (GWork a :: GBarrier :: turns (S a) n).
  destruct (Nat.eq_dec r a) as [-> | Hne].
  - rewrite project_work_same.
    change (project a (GBarrier :: turns (S a) n))
      with (Sync Barrier :: project a (turns (S a) n)).
    rewrite project_turns_other by lia.
    replace (a - a)%nat with 0%nat by lia.
    replace (a + S n - a)%nat with (S n) by lia. reflexivity.
  - rewrite project_work_other by lia.
    change (project r (GBarrier :: turns (S a) n))
      with (Sync Barrier :: project r (turns (S a) n)).
    rewrite IH by lia.
    replace (r - a)%nat with (S (r - S a)) by lia.
    replace (S a + n - r)%nat with (a + S n - r)%nat by lia. reflexivity.
Qed.

Lemma work_log_turns n : forall a, work_log (turns a n) = seq a n.
Proof.
  induction n as [| n IH]; intros a; [reflexivity |].
  change (turns a (S n)) with (GWork a :: GBarrier :: turns (S a) n).
  change (work_log (GWork a :: GBarrier :: turns (S a) n))
    with (a :: work_log (turns (S a) n)).
  now rewrite IH.
Qed.

Lemma project_app r run1 run2 :
  project r (run1 ++ run2) = project r run1 ++ project r run2.
Proof. unfold project. apply flat_map_app. Qed.

Lemma work_log_app run1 run2 :
  work_log (run1 ++ run2) = work_log run1 ++ work_log run2.
Proof. unfold work_log. apply flat_map_app. Qed.

(** The schedule in which the ranks take their turns is a run of the
    region: the group does not stall. *)
Lemma rotator_schedule_run size : rotator_run size (rotator_schedule size).
Proof.
  unfold rotator_schedule. fold (turns 0 size). split.
  - intros r Hr.
    change (work_log (GBarrier :: turns 0 size ++ [GBarrier]))
      with (work_log (turns 0 size ++ [GBarrier])) in Hr.
    rewrite work_log_app, work_log_turns in Hr. simpl in Hr.
    rewrite app_nil_r in Hr. apply in_seq in Hr. lia.
  - intros r Hr.
    change (project r (GBarrier :: turns 0 size ++ [GBarrier]))
      with (Sync Barrier :: project r (turns 0 size ++ [GBarrier])).
    rewrite project_app, project_turns_own by lia.
    rewrite with_Rotator_shape.
    replace (r - 0)%nat with r by lia.
    replace (0 + size - r)%nat with (size - r)%nat by lia.
    change (project r [GBarrier]) with [Sync Barrier].
    rewrite <- app_assoc. cbn [app repeat]. f_equal. f_equal. f_equal.
    apply repeat_snoc.
Qed.

(** C5, as the code has it. On entry rank [r] passes one initial barrier
    and then one barrier for every lower rank ([r + 1] in all); on exit
    it passes one barrier for every rank from [r] to [size - 1] and one
    final barrier. Every rank passes [size + 2] barriers, none of the
    calls carries data, every run of the group executes the bodies in
    rank order, and such a run exists. *)
Theorem rotator_rounds (size rank : nat) :
  (rank < size)%nat ->
  Rotator_enter rank = Barrier :: repeat Barrier rank
  /\ Rotator_exit rank size = repeat Barrier (size - rank) ++ [Barrier]
  /\ length (Rotator_enter rank) = S rank
  /\ length (Rotator_exit rank size) = S (size - rank)
  /\ length (Rotator_enter rank ++ Rotator_exit rank size) = (size + 2)%nat
  /\ Forall (fun c => carries_data c = false)
            (Rotator_enter rank ++ Rotator_exit rank size)
  /\ (forall run, rotator_run size run -> work_log run = seq 0 size)
  /\ rotator_run size (rotator_schedule size).
Proof.
  intros Hr.
  assert (Hin : Rotator_enter rank = Barrier :: repeat Barrier rank).
  { unfold Rotator_enter. now rewrite map_const_seq. }
  assert (Hout : Rotator_exit rank size = repeat Barrier (size - rank) ++ [Barrier]).
  { unfold Rotator_exit. now rewrite map_const_seq. }
  split; [exact Hin |]. split; [exact Hout |].
  split; [| split; [| split; [| split; [| split]]]].
  - rewrite Rotator_enter_shape. apply repeat_length.
  - rewrite Rotator_exit_shape. apply repeat_length.
  - rewrite Rotator_enter_shape, Rotator_exit_shape, length_app, !repeat_length.
    lia.
  - rewrite Rotator_enter_shape, Rotator_exit_shape.
    apply Forall_app. split; apply Forall_forall; intros c Hc;
      apply repeat_spec in Hc; now subst c.
  - apply rotator_run_order.
  - apply rotator_schedule_run.
Qed.

Lemma rotator_rounds_witness :
  Rotator_enter 2 = [Barrier; Barrier; Barrier]
  /\ Rotator_exit 2 4 = [Barrier; Barrier; Barrier]
  /\ length (Rotator_enter 2) = 3%nat
  /\ length (Rotator_exit 2 4) = 3%nat
  /\ length (Rotator_enter 2 ++ Rotator_exit 2 4) = 6%nat
  /\ Forall (fun c => carries_data c = false)
            (Rotator_enter 2 ++ Rotator_exit 2 4)
  /\ (forall run, rotator_run 4 run -> work_log run = [0; 1; 2; 3]%nat)
  /\ rotator_run 4 (rotator_schedule 4).
Proof.
  apply (rotator_rounds 4 2). lia.
Defined.

(** C5, as the specification states it, fails on entry: rank 0 waits through one
    synchronization, not through none. *)
Lemma rotator_entry_counterexample :
  Rotator_enter 0 = [Barrier] /\ length (Rotator_enter 0) <> 0%nat.
Proof. split; [reflexivity | discriminate]. Qed.

(** ** The offsets of a layout *)

Lemma int64_small z :
  -9223372036854775808 <= z <= 9223372036854775807 -> int64 z = z.
Proof.
  intros H. unfold int64, wrap. change (2 ^ (64 - 1)) with 9223372036854775808.
  change (2 ^ 64) with 18446744073709551616. rewrite Z.mod_small; lia.
Qed.

Lemma prefix_sums_from_spec counts : forall acc,
  prefix_sums_from acc counts
  = map (fun k => acc + zsum (firstn k counts)) (seq 0 (length counts)).
Proof.
  induction counts as [| c t IH]; intros acc; [reflexivity |].
  cbn [prefix_sums_from length seq map firstn zsum fold_right].
  rewrite Z.add_0_r. f_equal.
  rewrite IH, <- seq_shift, map_map. apply map_ext. intros k.
  cbn [firstn]. unfold zsum. cbn [fold_right]. lia.
Qed.

Lemma exclusive_prefix_sums_from counts :
  exclusive_prefix_sums counts = prefix_sums_from 0 counts.
Proof.
  unfold exclusive_prefix_sums. rewrite prefix_sums_from_spec.
  apply map_ext. intros k. lia.
Qed.

Lemma zsum_nonneg counts : Forall (fun c => 0 <= c) counts -> 0 <= zsum counts.
Proof.
  induction 1 as [| c t Hc _ IH]; unfold zsum in *; simpl; lia.
Qed.

Lemma cumsum_from_length counts : forall acc,
  length (cumsum_from acc counts) = length counts.
Proof.
  induction counts as [| c t IH]; intros acc; simpl; [reflexivity |].
  now rewrite IH.
Qed.

Lemma removelast_length {T : Type} (l : list T) :
  length (removelast l) = pred (length l).
Proof.
  induction l as [| x t IH]; [reflexivity |].
  destruct t as [| y t']; [reflexivity |].
  change (removelast (x :: y :: t')) with (x :: removelast (y :: t')).
  cbn [length] in *. now rewrite IH.
Qed.

(** The code's offsets (cumulative sums without the last, cast to 32
    bits, behind a leading 0) are the exclusive prefix sums. *)
Lemma offsets_from counts : forall acc,
  0 <= acc -> Forall (fun c => 0 <= c) counts ->
  acc + zsum counts <= 2147483647 ->
  firstn (length counts)
         (acc :: map int32 (removelast (cumsum_from acc counts)))
  = prefix_sums_from acc counts.
Proof.
  induction counts as [| c t IH]; intros acc Hacc Hpos Hsum; [reflexivity |].
  inversion Hpos as [| c' t' Hc Ht]. subst c' t'.
  pose proof (zsum_nonneg t Ht) as Hnn.
  assert (Hs : zsum (c :: t) = c + zsum t) by reflexivity.
  cbn [length firstn prefix_sums_from cumsum_from]. f_equal.
  rewrite (int64_small (acc + c)) by lia.
  destruct t as [| c2 t2]; [reflexivity |].
  rewrite <- (IH (acc + c)) by (try assumption; lia).
  cbn [cumsum_from].
  change (removelast (?x :: ?y :: ?l)) with (x :: removelast (y :: l)).
  cbn [map length firstn]. rewrite (int32_small (acc + c)) by lia.
  reflexivity.
Qed.

Lemma assign_tail_offsets (n : nat) counts :
  length counts = n -> valid_counts counts ->
  assign_tail n (removelast (cumsum counts)) = Ok (exclusive_prefix_sums counts).
Proof.
  intros Hlen [Hpos Hsum]. unfold assign_tail, cumsum.
  rewrite removelast_length, cumsum_from_length, Hlen, Nat.eqb_refl.
  cbn [bind]. f_equal. rewrite exclusive_prefix_sums_from, <- Hlen.
  apply offsets_from; [lia | assumption | lia].
Qed.

Lemma make_layout_ok sendcnt idx recvcnt :
  length recvcnt = length sendcnt ->
  valid_counts sendcnt -> valid_counts recvcnt ->
  make_layout sendcnt idx recvcnt = Ok (layout_of sendcnt idx recvcnt).
Proof.
  intros Hlen Hs Hr. unfold make_layout, layout_of.
  rewrite (assign_tail_offsets _ sendcnt eq_refl Hs). cbn [bind].
  rewrite (assign_tail_offsets _ recvcnt Hlen Hr). cbn [bind].
  destruct Hs as [Hsp Hss], Hr as [Hrp Hrs].
  pose proof (zsum_nonneg _ Hsp). pose proof (zsum_nonneg _ Hrp).
  rewrite !int64_small by lia. reflexivity.
Qed.

Lemma Alltoall_length send : length (Alltoall send) = length send.
Proof. unfold Alltoall. now rewrite length_map, length_seq. Qed.

Lemma Alltoall_row_length send r :
  In r (Alltoall send) -> length r = length send.
Proof.
  unfold Alltoall. intros H. apply in_map_iff in H.
  destruct H as [q [<- _]]. apply length_map.
Qed.

Lemma Layout_init_ok world :
  valid_world world ->
  Layout_init world
  = Ok (map (fun wr => layout_of (fst (fst wr)) (snd (fst wr)) (snd wr))
            (combine world (Alltoall (map fst world)))).
Proof.
  intros [Hsend Hrecv]. unfold Layout_init.
  rewrite Forall_forall in Hsend, Hrecv.
  rewrite (mapM_pure _ (fun _ => tt)).
  2:{ intros w Hw. destruct (Hsend w Hw) as [Hl _].
      unfold assert. now rewrite Hl, Nat.eqb_refl. }
  cbn [bind]. apply mapM_pure. intros [w r] Hwr. cbn [fst snd].
  pose proof (in_combine_l _ _ _ _ Hwr) as Hw.
  pose proof (in_combine_r _ _ _ _ Hwr) as Hr.
  destruct (Hsend w Hw) as [Hl Hv].
  apply make_layout_ok; [| exact Hv | exact (Hrecv r Hr)].
  rewrite (Alltoall_row_length _ _ Hr), length_map. now rewrite Hl.
Qed.

(** ** Generic facts on lists used for [exchange] *)

Lemma mapM_Forall2 {T U : Type} (f : T -> outcome U) (l : list T) (ys : list U) :
  mapM f l = Ok ys -> Forall2 (fun x y => f x = Ok y) l ys.
Proof.
  revert ys. induction l as [| x t IH]; simpl; intros ys H.
  - inversion H. constructor.
  - destruct (f x) as [y | e] eqn:Hx; simpl in H; [| discriminate].
    destruct (mapM f t) as [zs | e] eqn:Ht; simpl in H; [| discriminate].
    inversion H. subst ys. constructor; [exact Hx | now apply IH].
Qed.

Lemma Forall2_nth_error {T U : Type} (R : T -> U -> Prop) l1 l2 :
  Forall2 R l1 l2 ->
  forall q x y, nth_error l1 q = Some x -> nth_error l2 q = Some y -> R x y.
Proof.
  induction 1 as [| a b l1 l2 Hab _ IH]; intros q x y Hx Hy.
  - destruct q; discriminate.
  - destruct q as [| q]; simpl in Hx, Hy.
    + inversion Hx. inversion Hy. now subst.
    + exact (IH q x y Hx Hy).
Qed.

Lemma Forall2_of_nth_error {T U : Type} (R : T -> U -> Prop) l1 l2 :
  length l1 = length l2 ->
  (forall q x y, nth_error l1 q = Some x -> nth_error l2 q = Some y -> R x y) ->
  Forall2 R l1 l2.
Proof.
  revert l2. induction l1 as [| a l1 IH]; intros [| b l2] Hlen H;
    try discriminate; constructor.
  - exact (H 0%nat a b eq_refl eq_refl).
  - apply IH; [simpl in Hlen; lia |].
    intros q x y Hx Hy. exact (H (S q) x y Hx Hy).
Qed.

Lemma nth_error_combine {T U : Type} (l1 : list T) (l2 : list U) q x y :
  nth_error (combine l1 l2) q = Some (x, y) <->
  nth_error l1 q = Some x /\ nth_error l2 q = Some y.
Proof.
  revert l2 q. induction l1 as [| a l1 IH]; intros l2 q.
  - simpl. destruct q; split; intros H; try discriminate; destruct H; discriminate.
  - destruct l2 as [| b l2].
    + simpl. destruct q; split; intros H; try discriminate;
        destruct H; discriminate.
    + destruct q as [| q]; simpl.
      * split; [intros H; inversion H; auto |].
        intros [H1 H2]. inversion H1. inversion H2. reflexivity.
      * apply IH.
Qed.

Lemma nth_error_indexed {T : Type} (l : list T) q x :
  nth_error l q = Some x -> nth_error (indexed l) q = Some (q, x).
Proof.
  intros H. unfold indexed. apply nth_error_combine. split; [| exact H].
  apply nth_error_seq0. apply nth_error_Some. congruence.
Qed.

Lemma in_indexed {T : Type} (l : list T) q x :
  In (q, x) (indexed l) -> nth_error l q = Some x.
Proof.
  intros H. apply In_nth_error in H. destruct H as [k Hk].
  apply nth_error_combine in Hk. destruct Hk as [Hq Hx].
  assert (Hlt : (k < length l)%nat) by (apply nth_error_Some; congruence).
  rewrite nth_error_seq0 in Hq by exact Hlt. inversion Hq. now subst.
Qed.

(** ** The transfer *)

Section ExchangeFacts.

Variable A : Type.
Variable dtype_itemsize : string -> Z.
Variable uninit : nat -> A.

Lemma pair_ok_spec p q (s r : vmsg A) :
  pair_ok A p q s r = true ->
  let sc := nth q (counts A s) 0 in
  let so := nth q (displs A s) 0 in
  let rc := nth p (counts A r) 0 in
  let ro := nth p (displs A r) 0 in
  0 <= sc /\ 0 <= so /\ so + sc <= Z.of_nat (length (buf A s))
  /\ 0 <= ro /\ ro + rc <= Z.of_nat (length (buf A r))
  /\ sc = rc /\ (sc = 0 \/ stride A s = stride A r).
Proof.
  unfold pair_ok. intros H. cbv zeta.
  repeat (apply andb_true_iff in H; destruct H as [H ?]).
  repeat match goal with
         | H : (_ <=? _) = true |- _ => apply Z.leb_le in H
         | H : (_ =? _) = true |- _ => apply Z.eqb_eq in H
         end.
  repeat split; try assumption.
  match goal with
  | H : (_ || _) = true |- _ => apply orb_true_iff in H; destruct H as [H | H];
                                 apply Z.eqb_eq in H; auto
  end.
Qed.

Lemma slice_length (l : list A) off cnt :
  0 <= off -> 0 <= cnt -> off + cnt <= Z.of_nat (length l) ->
  length (slice l off cnt) = Z.to_nat cnt.
Proof.
  intros Ho Hc Hl. unfold slice. rewrite length_firstn, length_skipn. lia.
Qed.

Lemma write_length (l : list A) off xs :
  0 <= off -> (Z.to_nat off + length xs <= length l)%nat ->
  length (write l off xs) = length l.
Proof.
  intros Ho Hl. unfold write.
  rewrite !length_app, length_firstn, length_skipn. lia.
Qed.

(** The writes of one receiving rank keep the length of its buffer. *)
Lemma received_length q (r : vmsg A) (ls : list (nat * vmsg A)) : forall acc,
  length acc = length (buf A r) ->
  (forall ps, In ps ls -> pair_ok A (fst ps) q (snd ps) r = true) ->
  length (fold_left
            (fun acc ps =>
               write acc (nth (fst ps) (displs A r) 0)
                     (slice (buf A (snd ps))
                            (nth q (displs A (snd ps)) 0)
                            (nth q (counts A (snd ps)) 0)))
            ls acc)
  = length (buf A r).
Proof.
  induction ls as [| ps ls IH]; intros acc Hacc Hok; [exact Hacc |].
  cbn [fold_left]. apply IH.
  - destruct (pair_ok_spec _ _ _ _ (Hok ps (or_introl eq_refl)))
      as [Hsc [Hso [Hsl [Hro [Hrl [Heq _]]]]]].
    rewrite write_length; [exact Hacc | exact Hro |].
    rewrite slice_length by assumption. rewrite Hacc. lia.
  - intros ps' Hin. apply Hok. now right.
Qed.

Lemma Alltoallv_lengths (send recv : list (vmsg A)) out :
  Alltoallv A send recv = Ok out ->
  Forall2 (fun r o => length o = length (buf A r)) recv out.
Proof.
  unfold Alltoallv.
  destruct (Nat.eqb (length recv) (length send)
            && forallb (vmsg_ok A (length send)) send
            && forallb (vmsg_ok A (length send)) recv
            && forallb _ (indexed send)) eqn:Hc; [| discriminate].
  intros H. inversion H as [Hout]. clear H.
  apply andb_true_iff in Hc. destruct Hc as [_ Hpairs].
  rewrite forallb_forall in Hpairs.
  apply Forall2_of_nth_error.
  - unfold indexed. rewrite length_map, length_combine, length_seq. lia.
  - intros q r o Hr Ho.
    rewrite (map_nth_error _ _ _ (nth_error_indexed _ _ _ Hr)) in Ho.
    inversion Ho as [Ho']. cbn [fst snd].
    apply received_length; [reflexivity |].
    intros ps Hps. specialize (Hpairs ps Hps).
    rewrite forallb_forall in Hpairs.
    apply (Hpairs (q, r)). apply nth_error_In with q.
    now apply nth_error_indexed.
Qed.

End ExchangeFacts.

Section ExchangeShape.

Variable A : Type.
Variable dtype_itemsize : string -> Z.
Variable uninit : nat -> A.

Lemma stage_recv_length (pr : process A) s r :
  stage A dtype_itemsize uninit pr = Ok (s, r) ->
  Z.of_nat (length (buf A r)) = newlength (layout pr).
Proof.
  unfold stage, numpy_empty.
  destruct (take (items (data pr)) (indices (layout pr))) as [b | e];
    cbn [bind]; [| discriminate].
  destruct (Z.ltb_spec (newlength (layout pr)) 0) as [Hneg | Hpos];
    cbn [bind]; [discriminate |].
  intros H. inversion H. cbn [buf].
  rewrite length_map, length_seq. lia.
Qed.

Lemma exchange_shape (world : list (process A)) results :
  exchange A dtype_itemsize uninit world = Ok results ->
  Forall2 returned_array world results.
Proof.
  unfold exchange.
  destruct (negb _); [discriminate |].
  destruct (mapM (stage A dtype_itemsize uninit) world) as [staged | e] eqn:Hst;
    cbn [bind]; [| discriminate].
  destruct (Alltoallv A (map fst staged) (map snd staged)) as [received | e]
    eqn:Hall; cbn [bind]; [| discriminate].
  intros H. inversion H as [Hres]. clear H.
  pose proof (mapM_length _ _ _ Hst) as Hlen1.
  pose proof (Alltoallv_lengths A _ _ _ Hall) as Hlens.
  pose proof (Forall2_length Hlens) as Hlen2. rewrite length_map in Hlen2.
  apply Forall2_of_nth_error.
  - rewrite length_map, length_combine. lia.
  - intros q pr res Hpr Hq.
    destruct (nth_error received q) as [its |] eqn:Hits.
    2:{ apply nth_error_None in Hits.
        assert ((q < length world)%nat) by (apply nth_error_Some; congruence).
        lia. }
    assert (Hc : nth_error (combine world received) q = Some (pr, its))
      by now apply nth_error_combine.
    rewrite (map_nth_error _ _ _ Hc) in Hq. inversion Hq as [Hq'].
    cbn [fst snd]. clear Hq Hq'.
    destruct (nth_error staged q) as [[s r] |] eqn:Hsq.
    2:{ apply nth_error_None in Hsq.
        assert ((q < length world)%nat) by (apply nth_error_Some; congruence).
        lia. }
    pose proof (Forall2_nth_error _ _ _ (mapM_Forall2 _ _ _ Hst) q pr (s, r)
                  Hpr Hsq) as Hstage.
    pose proof (Forall2_nth_error _ _ _ Hlens q r its
                  (map_nth_error snd _ _ Hsq) Hits) as Hl.
    cbn beta in Hl.
    unfold returned_array. cbn [fst snd base dtype trailing items].
    repeat split; try lia.
    rewrite Hl. exact (stage_recv_length pr s r Hstage).
Qed.

End ExchangeShape.

Lemma map_snd_combine {T U : Type} (l1 : list T) (l2 : list U) :
  length l1 = length l2 -> map snd (combine l1 l2) = l2.
Proof.
  revert l2. induction l1 as [| a l1 IH]; intros [| b l2] H;
    try discriminate; [reflexivity |].
  simpl. f_equal. apply IH. simpl in H. lia.
Qed.

Lemma Forall2_map_combine {T U V : Type} (R : T -> V -> Prop)
    (F : T * U -> V) (l1 : list T) (l2 : list U) :
  length l1 = length l2 ->
  (forall x y, In (x, y) (combine l1 l2) -> R x (F (x, y))) ->
  Forall2 R l1 (map F (combine l1 l2)).
Proof.
  revert l2. induction l1 as [| a l1 IH]; intros [| b l2] Hlen H;
    try discriminate; [constructor |].
  simpl. constructor.
  - apply H. now left.
  - apply IH; [simpl in Hlen; lia |]. intros x y Hin. apply H. now right.
Qed.

(** C8. For count vectors that are valid on both sides, the layout that
    every rank builds has the receive counts of the collective exchange,
    offsets equal to the exclusive prefix sums of its counts, and the
    totals [oldlength] and [newlength] equal to the sums of the send and
    of the receive counts. The array that [exchange] returns to a rank
    lives in a block not in use before the call, has leading length
    [newlength], and the trailing shape and element type of the
    payload. *)
Theorem layout_prefix_sums_and_result :
  (forall world, valid_world world ->
     exists layouts,
       Layout_init world = Ok layouts
       /\ map recvcounts layouts = Alltoall (map fst world)
       /\ Forall2 (fun w l =>
                     sendcounts l = fst w /\ indices l = snd w
                     /\ sendoffsets l = exclusive_prefix_sums (sendcounts l)
                     /\ recvoffsets l = exclusive_prefix_sums (recvcounts l)
                     /\ oldlength l = zsum (sendcounts l)
                     /\ newlength l = zsum (recvcounts l))
                  world layouts)
  /\ (forall (A : Type) itemsize uninit (procs : list (process A)) results,
        exchange A itemsize uninit procs = Ok results ->
        Forall2 returned_array procs results).
Proof.
  split.
  - intros world Hv. rewrite (Layout_init_ok world Hv).
    assert (Hlen : length world = length (Alltoall (map fst world))).
    { now rewrite Alltoall_length, length_map. }
    eexists. split; [reflexivity |]. split.
    + rewrite map_map. cbn [layout_of recvcounts].
      now apply map_snd_combine.
    + apply Forall2_map_combine; [exact Hlen |].
      intros w r _. cbn [fst snd layout_of sendcounts recvcounts sendoffsets
                          recvoffsets oldlength newlength indices].
      repeat split.
  - intros A itemsize uninit procs results. apply exchange_shape.
Qed.

Lemma layout_prefix_sums_and_result_witness :
  let world := [([1; 2], [0; 1; 2]); ([0; 1], [0])] in
  let procs :=
    [mkprocess 5%nat (layout_of [1; 2] [0; 1; 2] [1; 0])
               (mkarray 0%nat "<f4"%string [3] [10; 11; 12]);
     mkprocess 7%nat (layout_of [0; 1] [0] [2; 1])
               (mkarray 0%nat "<f4"%string [3] [20])] in
  (exists layouts,
     Layout_init world = Ok layouts
     /\ map recvcounts layouts = Alltoall (map fst world)
     /\ Forall2 (fun w l =>
                   sendcounts l = fst w /\ indices l = snd w
                   /\ sendoffsets l = exclusive_prefix_sums (sendcounts l)
                   /\ recvoffsets l = exclusive_prefix_sums (recvcounts l)
                   /\ oldlength l = zsum (sendcounts l)
                   /\ newlength l = zsum (recvcounts l))
                world layouts)
  /\ (exists results,
        exchange Z (fun _ => 4) (fun _ => -1) procs = Ok results
        /\ Forall2 returned_array procs results).
Proof.
  intros world procs. split.
  - apply (proj1 layout_prefix_sums_and_result world).
    split; repeat constructor; simpl; lia.
  - eexists. split; [reflexivity |].
    apply (proj2 layout_prefix_sums_and_result Z (fun _ => 4) (fun _ => -1)
             procs).
    reflexivity.
Defined.

(** ** The checks of [exchange] *)

Lemma mapM_first_raise {T U : Type} (f : T -> outcome U) (l : list T) (e : exn) :
  (forall x e', f x = Raise e' -> e' = e) ->
  (exists x, In x l /\ f x = Raise e) -> mapM f l = Raise e.
Proof.
  intros Hone. induction l as [| x t IH]; intros [y [Hy Hf]].
  - contradiction.
  - simpl. destruct (f x) as [u | e'] eqn:Hx; cbn [bind].
    + destruct Hy as [-> | Hy]; [congruence |].
      rewrite IH by (exists y; auto). reflexivity.
    + now rewrite (Hone x e' Hx).
Qed.

Lemma nodup_one (l : list string) :
  length (nodup string_dec l) = 1%nat
  <-> exists d, l <> [] /\ Forall (fun x => x = d) l.
Proof.
  split.
  - intros H. destruct (nodup string_dec l) as [| d [| d' t]] eqn:Hn;
      try discriminate.
    exists d. split.
    + intros ->. discriminate.
    + apply Forall_forall. intros x Hx.
      apply (nodup_In string_dec) in Hx. rewrite Hn in Hx.
      destruct Hx as [Hx | []]. now symmetry.
  - intros [d [Hne Hall]]. induction l as [| x t IH]; [congruence |].
    inversion Hall as [| x' t' Hx Ht]. subst x' t' x.
    destruct t as [| y t'].
    + reflexivity.
    + change (nodup string_dec (d :: y :: t'))
        with (if in_dec string_dec d (y :: t')
              then nodup string_dec (y :: t')
              else d :: nodup string_dec (y :: t')).
      destruct (in_dec string_dec d (y :: t')) as [Hin | Hnin].
      * apply IH; [discriminate | exact Ht].
      * exfalso. apply Hnin. inversion Ht. subst. now left.
Qed.

Section ExchangeChecks.

Variable A : Type.
Variable dtype_itemsize : string -> Z.
Variable uninit : nat -> A.

Lemma take1_raise (l : list A) k :
  (exists e, take1 l k = Raise e) <-> out_of_range (length l) k.
Proof.
  unfold take1, out_of_range.
  destruct (Z.leb_spec (- Z.of_nat (length l)) k) as [Hlo | Hlo];
    destruct (Z.ltb_spec k (Z.of_nat (length l))) as [Hhi | Hhi];
    cbn [andb]; try (split; [intros _; lia | intros _; eauto]).
  destruct (nth_error l (Z.to_nat (if k <? 0 then k + Z.of_nat (length l) else k)))
    as [x |] eqn:Hx.
  - split; [intros [e He]; discriminate | lia].
  - exfalso. apply nth_error_None in Hx.
    destruct (Z.ltb_spec k 0); lia.
Qed.

Lemma take1_raise_IndexError (l : list A) k e :
  take1 l k = Raise e -> e = IndexError.
Proof.
  unfold take1. destruct (_ && _); [| congruence].
  destruct (nth_error _ _); congruence.
Qed.

Lemma take_raise (l : list A) idx :
  take l idx = Raise IndexError <-> Exists (out_of_range (length l)) idx.
Proof.
  unfold take. rewrite Exists_exists. split.
  - intros H. destruct (mapM_raise _ _ _ H) as [k [Hk Hf]].
    exists k. split; [exact Hk |]. apply take1_raise. eauto.
  - intros [k [Hk Hout]]. apply mapM_first_raise.
    + apply take1_raise_IndexError.
    + exists k. split; [exact Hk |].
      apply take1_raise in Hout. destruct Hout as [e He].
      now rewrite He, (take1_raise_IndexError _ _ _ He).
Qed.

Lemma take_length (l : list A) idx b :
  take l idx = Ok b -> length b = length idx.
Proof. apply mapM_length. Qed.

Lemma stage_raise_IndexError (pr : process A) :
  stage A dtype_itemsize uninit pr = Raise IndexError
  <-> Exists (out_of_range (length (items (data pr)))) (indices (layout pr)).
Proof.
  rewrite <- take_raise. unfold stage, numpy_empty.
  destruct (take (items (data pr)) (indices (layout pr))) as [b | e];
    cbn [bind].
  - destruct (newlength (layout pr) <? 0); cbn [bind];
      split; intros H; discriminate.
  - split; intros H; inversion H; reflexivity.
Qed.

Lemma stage_no_TypeError (pr : process A) ds :
  stage A dtype_itemsize uninit pr <> Raise (TypeError ds).
Proof.
  unfold stage, numpy_empty.
  destruct (take (items (data pr)) (indices (layout pr))) as [b | e] eqn:Ht;
    cbn [bind].
  - destruct (newlength (layout pr) <? 0); cbn [bind]; discriminate.
  - intros H. inversion H. subst e.
    destruct (mapM_raise _ _ _ Ht) as [k [_ Hk]].
    apply take1_raise_IndexError in Hk. discriminate.
Qed.

Lemma Alltoallv_raise (send recv : list (vmsg A)) e :
  Alltoallv A send recv = Raise e -> e = MPIError.
Proof. unfold Alltoallv. destruct (_ && _); congruence. Qed.

End ExchangeChecks.

(** C1, as the code has it. [exchange] never compares the leading length
    of the payload with [oldlength]. The payload is gathered through the
    index sequence: a rank raises [IndexError] exactly when one of its
    indices lies outside [-n, n) for a payload of leading length [n],
    an [IndexError] of the group comes from such a rank, and the gathered
    send buffer has one item per index whatever the length of the
    payload. *)
Theorem exchange_index_check (A : Type) (itemsize : string -> Z)
    (uninit : nat -> A) :
  (forall pr : process A,
     stage A itemsize uninit pr = Raise IndexError
     <-> Exists (out_of_range (length (items (data pr))))
                (indices (layout pr)))
  /\ (forall world : list (process A),
        exchange A itemsize uninit world = Raise IndexError ->
        exists pr, In pr world
                   /\ Exists (out_of_range (length (items (data pr))))
                             (indices (layout pr)))
  /\ (forall (pr : process A) s r,
        stage A itemsize uninit pr = Ok (s, r) ->
        length (buf A s) = length (indices (layout pr))).
Proof.
  split; [| split].
  - apply stage_raise_IndexError.
  - intros world. unfold exchange.
    destruct (negb _); [discriminate |].
    destruct (mapM (stage A itemsize uninit) world) as [staged | e] eqn:Hst;
      cbn [bind].
    + destruct (Alltoallv A (map fst staged) (map snd staged)) as [rcv | e]
        eqn:Hall; cbn [bind]; [discriminate |].
      intros H. inversion H. subst e.
      apply Alltoallv_raise in Hall. discriminate.
    + intros H. inversion H. subst e.
      destruct (mapM_raise _ _ _ Hst) as [pr [Hin Hpr]].
      exists pr. split; [exact Hin |].
      now apply (stage_raise_IndexError A itemsize uninit).
  - intros pr s r. unfold stage, numpy_empty.
    destruct (take (items (data pr)) (indices (layout pr))) as [b | e] eqn:Ht;
      cbn [bind]; [| discriminate].
    destruct (newlength (layout pr) <? 0); cbn [bind]; [discriminate |].
    intros H. inversion H. cbn [buf]. exact (take_length A _ _ _ Ht).
Qed.

Lemma exchange_index_check_witness :
  let pr := mkprocess 1%nat (layout_of [2] [0; 0] [2])
                      (mkarray 0%nat "<f4"%string [] [42]) in
  exists s r,
    stage Z (fun _ => 4) (fun _ => -1) pr = Ok (s, r)
    /\ length (buf Z s) = length (indices (layout pr)).
Proof.
  intros pr. eexists. eexists. split; [reflexivity |].
  eapply (proj2 (proj2 (exchange_index_check Z (fun _ => 4) (fun _ => -1)))
            pr).
  reflexivity.
Defined.

(** C1, as the specification states it, fails: with one rank, the layout of a
    particle that is sent twice has [oldlength] 2; the payload of leading
    length 1 is exchanged without any error. *)
Lemma exchange_length_counterexample :
  let l := layout_of [2] [0; 0] [2] in
  let payload := mkarray 0%nat "<f4"%string [] [42] in
  oldlength l = 2
  /\ Z.of_nat (length (items payload)) <> oldlength l
  /\ Layout_init [([2], [0; 0])] = Ok [l]
  /\ exchange Z (fun _ => 4) (fun _ => -1) [mkprocess 1%nat l payload]
     = Ok [(3%nat, mkarray 2%nat "<f4"%string [] [42; 42])].
Proof. cbv zeta. repeat split; try reflexivity. discriminate. Qed.

Lemma dtypes_agree_nodup {A : Type} (world : list (process A)) :
  dtypes_agree world
  <-> length (nodup string_dec (map (fun pr => dtype (data pr)) world)) = 1%nat.
Proof.
  rewrite nodup_one. unfold dtypes_agree.
  split; intros [d [Hne Hall]]; exists d; split.
  - intros H. apply map_eq_nil in H. contradiction.
  - apply Forall_forall. intros x Hx. apply in_map_iff in Hx.
    destruct Hx as [pr [<- Hpr]]. rewrite Forall_forall in Hall. now apply Hall.
  - intros ->. now apply Hne.
  - apply Forall_forall. intros pr Hpr. rewrite Forall_forall in Hall.
    apply Hall. apply in_map_iff. eauto.
Qed.

(** C7, as the code has it. [exchange] gathers the element type string
    of every rank and raises [TypeError], naming the gathered list,
    exactly when the strings do not all agree; the trailing shapes are
    not compared. When the strings agree no [TypeError] is raised. *)
Theorem exchange_dtype_check (A : Type) (itemsize : string -> Z)
    (uninit : nat -> A) (world : list (process A)) :
  ((exists observed,
      exchange A itemsize uninit world = Raise (TypeError observed))
   <-> ~ dtypes_agree world)
  /\ (forall observed,
        exchange A itemsize uninit world = Raise (TypeError observed) ->
        observed = map (fun pr => dtype (data pr)) world).
Proof.
  rewrite dtypes_agree_nodup. unfold exchange.
  destruct (Nat.eqb_spec
              (length (nodup string_dec (map (fun pr => dtype (data pr)) world)))
              1) as [Heq | Hne]; cbn [negb].
  - assert (Hno : forall observed,
               (do staged <- mapM (stage A itemsize uninit) world;
                do received <- Alltoallv A (map fst staged) (map snd staged);
                Ok (map (fun pr_items =>
                           (S (S (next_block (fst pr_items))),
                            mkarray (S (next_block (fst pr_items)))
                                    (dtype (data (fst pr_items)))
                                    (trailing (data (fst pr_items)))
                                    (snd pr_items)))
                        (combine world received)))
               <> Raise (TypeError observed)).
    { intros observed.
      destruct (mapM (stage A itemsize uninit) world) as [staged | e] eqn:Hst;
        cbn [bind].
      - destruct (Alltoallv A (map fst staged) (map snd staged)) as [rcv | e]
          eqn:Hall; cbn [bind]; [discriminate |].
        intros H. inversion H. subst e.
        apply Alltoallv_raise in Hall. discriminate.
      - intros H. inversion H. subst e.
        destruct (mapM_raise _ _ _ Hst) as [pr [_ Hpr]].
        exact (stage_no_TypeError A itemsize uninit pr observed Hpr). }
    split.
    + split; [| intros H; contradiction].
      intros [observed H]. exfalso. exact (Hno observed H).
    + intros observed H. exfalso. exact (Hno observed H).
  - split.
    + split; [intros _; exact Hne | intros _; eauto].
    + intros observed H. now inversion H.
Qed.

Lemma exchange_dtype_check_witness :
  let world :=
    [mkprocess 1%nat (layout_of [1; 0] [0] [1; 0])
               (mkarray 0%nat "<f4"%string [] [10]);
     mkprocess 1%nat (layout_of [0; 1] [0] [0; 1])
               (mkarray 0%nat "<f8"%string [] [20])] in
  ~ dtypes_agree world
  /\ exchange Z (fun _ => 4) (fun _ => -1) world
     = Raise (TypeError ["<f4"%string; "<f8"%string]).
Proof.
  intros world. split; [| reflexivity].
  apply (proj1 (proj1 (exchange_dtype_check Z (fun _ => 4) (fun _ => -1)
                         world))).
  eexists. reflexivity.
Defined.

(** C7, as the specification states it, fails: two ranks hold payloads of the
    same element type with trailing shapes (3,) and (2,), each sends its
    item to itself; no error is raised and the transfer is done. *)
Lemma exchange_shape_counterexample :
  let p0 := mkprocess 1%nat (layout_of [1; 0] [0] [1; 0])
                      (mkarray 0%nat "<f4"%string [3] [10]) in
  let p1 := mkprocess 1%nat (layout_of [0; 1] [0] [0; 1])
                      (mkarray 0%nat "<f4"%string [2] [20]) in
  trailing (data p0) <> trailing (data p1)
  /\ Layout_init [([1; 0], [0]); ([0; 1], [0])] = Ok [layout p0; layout p1]
  /\ exchange Z (fun _ => 4) (fun _ => -1) [p0; p1]
     = Ok [(3%nat, mkarray 2%nat "<f4"%string [3] [10]);
           (3%nat, mkarray 2%nat "<f4"%string [2] [20])].
Proof. cbv zeta. repeat split; try reflexivity. discriminate. Qed.

(** ** The round trip *)

(** ** Lists addressed by rank *)

Lemma nth_map_seq {T : Type} (f : nat -> T) n i d :
  (i < n)%nat -> nth i (map f (seq 0 n)) d = f i.
Proof.
  intros H. rewrite (nth_indep _ d (f 0%nat)) by now rewrite length_map, length_seq.
  rewrite map_nth, seq_nth by exact H. reflexivity.
Qed.

Lemma map_nth_seq {T : Type} (l : list T) d :
  map (fun i => nth i l d) (seq 0 (length l)) = l.
Proof.
  apply (nth_ext _ _ d d).
  - now rewrite length_map, length_seq.
  - intros i Hi. rewrite length_map, length_seq in Hi.
    exact (nth_map_seq (fun k => nth k l d) _ _ _ Hi).
Qed.

Lemma combine_map_seq {T U : Type} (l1 : list T) (l2 : list U) d1 d2 n :
  length l1 = n -> length l2 = n ->
  combine l1 l2 = map (fun i => (nth i l1 d1, nth i l2 d2)) (seq 0 n).
Proof.
  intros H1 H2. apply (nth_ext _ _ (d1, d2) (d1, d2)).
  - rewrite length_combine, length_map, length_seq. lia.
  - intros i Hi. rewrite length_combine in Hi.
    rewrite combine_nth by lia.
    rewrite (nth_map_seq (fun k => (nth k l1 d1, nth k l2 d2))) by lia.
    reflexivity.
Qed.

Lemma fold_left_map {T U V : Type} (F : V -> U -> V) (h : T -> U) l : forall a,
  fold_left (fun acc x => F acc (h x)) l a = fold_left F (map h l) a.
Proof. induction l as [| x t IH]; intros a; [reflexivity | apply IH]. Qed.

Lemma Forall2_map_same {T U V : Type} (R : U -> V -> Prop) (f : T -> U)
    (g : T -> V) (l : list T) :
  (forall x, In x l -> R (f x) (g x)) -> Forall2 R (map f l) (map g l).
Proof.
  induction l as [| x t IH]; intros H; simpl; constructor.
  - apply H. now left.
  - apply IH. intros y Hy. apply H. now right.
Qed.

Lemma mapM_of_Forall2 {T U : Type} (f : T -> outcome U) (l : list T) ys :
  Forall2 (fun x y => f x = Ok y) l ys -> mapM f l = Ok ys.
Proof.
  induction 1 as [| x y l ys Hx _ IH]; [reflexivity |].
  cbn [mapM]. rewrite Hx. cbn [bind]. rewrite IH. reflexivity.
Qed.

Lemma mapM_Permutation {T U : Type} (f : T -> outcome U) (l l' : list T) :
  Permutation l l' ->
  forall ys', mapM f l' = Ok ys' ->
  exists ys, mapM f l = Ok ys /\ Permutation ys ys'.
Proof.
  induction 1 as [| x l l' _ IH | x y l | l l' l'' _ IH1 _ IH2]; intros ys' H.
  - exists ys'. split; [exact H | apply Permutation_refl].
  - cbn [mapM] in *. destruct (f x) as [v | e]; cbn [bind] in *; [| discriminate].
    destruct (mapM f l') as [t' | e] eqn:Ht; cbn [bind] in *; [| discriminate].
    inversion H. subst ys'. destruct (IH t' eq_refl) as [t [-> Hp]].
    exists (v :: t). split; [reflexivity | now constructor].
  - cbn [mapM] in *.
    destruct (f x) as [v | e]; cbn [bind] in *; [| discriminate].
    destruct (f y) as [w | e]; cbn [bind] in *; [| discriminate].
    destruct (mapM f l) as [t | e]; cbn [bind] in *; [| discriminate].
    inversion H. subst ys'. exists (w :: v :: t).
    split; [reflexivity | apply perm_swap].
  - destruct (IH2 ys' H) as [ys1 [H1 Hp1]].
    destruct (IH1 ys1 H1) as [ys [H0 Hp0]].
    exists ys. split; [exact H0 | now apply Permutation_trans with ys1].
Qed.

(** ** Blocks at prefix-sum offsets *)

Lemma zsum_cons c t : zsum (c :: t) = c + zsum t.
Proof. reflexivity. Qed.

Lemma nth_prefix_sums_from counts : forall acc q,
  (q < length counts)%nat -> Forall (fun c => 0 <= c) counts ->
  acc <= nth q (prefix_sums_from acc counts) 0
  /\ nth q (prefix_sums_from acc counts) 0 + nth q counts 0
     <= acc + zsum counts.
Proof.
  induction counts as [| c t IH]; intros acc q Hq Hpos; [simpl in Hq; lia |].
  inversion Hpos as [| c' t' Hc Ht]. subst c' t'.
  pose proof (zsum_nonneg t Ht) as Hnn. rewrite zsum_cons.
  destruct q as [| q]; cbn [prefix_sums_from nth]; [lia |].
  cbn [length] in Hq. destruct (IH (acc + c) q ltac:(lia) Ht). lia.
Qed.

Lemma nth_offsets_bounds counts q :
  (q < length counts)%nat -> Forall (fun c => 0 <= c) counts ->
  0 <= nth q (exclusive_prefix_sums counts) 0
  /\ nth q (exclusive_prefix_sums counts) 0 + nth q counts 0 <= zsum counts.
Proof.
  intros Hq Hpos. rewrite exclusive_prefix_sums_from.
  destruct (nth_prefix_sums_from counts 0 q Hq Hpos). lia.
Qed.

Lemma exclusive_prefix_sums_length counts :
  length (exclusive_prefix_sums counts) = length counts.
Proof. unfold exclusive_prefix_sums. now rewrite length_map, length_seq. Qed.

Lemma nth_nonneg counts q :
  Forall (fun c => 0 <= c) counts -> 0 <= nth q counts 0.
Proof.
  intros H. destruct (Nat.lt_ge_cases q (length counts)) as [Hq | Hq].
  - rewrite Forall_forall in H. apply H. now apply nth_In.
  - rewrite nth_overflow by exact Hq. lia.
Qed.

Section Blocks.

Variable A : Type.

Lemma sized_length cnt (bs : list (list A)) :
  sized cnt bs -> Z.of_nat (length (concat bs)) = zsum cnt.
Proof.
  induction 1 as [| c b cnt bs [Hc Hb] _ IH]; [reflexivity |].
  cbn [concat]. rewrite length_app, zsum_cons. lia.
Qed.

Lemma firstn_skipn_app (pre b rest : list A) :
  firstn (length b) (skipn (length pre) (pre ++ b ++ rest)) = b.
Proof.
  rewrite skipn_app, skipn_all, Nat.sub_diag. cbn [app skipn].
  rewrite firstn_app, firstn_all, Nat.sub_diag. cbn [firstn].
  apply app_nil_r.
Qed.

(** The writes of chained blocks fill the buffer behind [pre] with the
    blocks in their order. *)
Lemma fold_write_chained (obs : list (Z * list A)) : forall (pre rest : list A),
  chained (length pre) obs ->
  length rest = length (concat (map snd obs)) ->
  fold_left (fun acc ob => write acc (fst ob) (snd ob)) obs (pre ++ rest)
  = pre ++ concat (map snd obs).
Proof.
  induction obs as [| [o b] obs IH]; intros pre rest Hch Hlen.
  - cbn [map concat] in *. destruct rest; [reflexivity | discriminate].
  - cbn [chained fst snd] in Hch. destruct Hch as [-> Hch].
    cbn [fold_left fst snd map concat] in *. rewrite length_app in Hlen.
    unfold write. rewrite Nat2Z.id.
    rewrite firstn_app, firstn_all, Nat.sub_diag. cbn [firstn].
    rewrite app_nil_r.
    rewrite skipn_app.
    replace (length pre + length b - length pre)%nat with (length b) by lia.
    rewrite (skipn_all2 pre) by lia. cbn [app].
    rewrite (app_assoc pre b). rewrite (app_assoc pre b).
    apply IH.
    + now rewrite length_app.
    + rewrite length_skipn. lia.
Qed.

Lemma chained_prefix_sums cnt (bs : list (list A)) : forall acc,
  0 <= acc -> sized cnt bs ->
  chained (Z.to_nat acc) (combine (prefix_sums_from acc cnt) bs).
Proof.
  intros acc Hacc H. revert acc Hacc.
  induction H as [| c b cnt bs [Hc Hb] _ IH]; intros acc Hacc; [exact I |].
  cbn [prefix_sums_from combine chained fst snd]. split; [lia |].
  replace (Z.to_nat acc + length b)%nat with (Z.to_nat (acc + c)) by lia.
  apply IH. lia.
Qed.

(** A block read back from the concatenation of the blocks. *)
Lemma slice_concat_from cnt (bs : list (list A)) : forall acc (pre : list A) p,
  sized cnt bs -> 0 <= acc -> length pre = Z.to_nat acc ->
  (p < length cnt)%nat ->
  slice (pre ++ concat bs) (nth p (prefix_sums_from acc cnt) 0) (nth p cnt 0)
  = nth p bs [].
Proof.
  intros acc pre p H. revert acc pre p.
  induction H as [| c b cnt bs [Hc Hb] _ IH]; intros acc pre p Hacc Hpre Hp;
    [simpl in Hp; lia |].
  destruct p as [| p]; cbn [prefix_sums_from nth concat].
  - unfold slice. rewrite <- Hpre, <- Hb. apply firstn_skipn_app.
  - rewrite app_assoc. apply IH; [lia | rewrite length_app; lia |].
    cbn [length] in Hp. lia.
Qed.

Lemma slice_concat cnt (bs : list (list A)) p :
  sized cnt bs -> (p < length cnt)%nat ->
  slice (concat bs) (nth p (exclusive_prefix_sums cnt) 0) (nth p cnt 0)
  = nth p bs [].
Proof.
  intros H Hp. rewrite exclusive_prefix_sums_from.
  exact (slice_concat_from cnt bs 0 [] p H (Z.le_refl 0) eq_refl Hp).
Qed.

Lemma slice_app (l : list A) off a b :
  0 <= off -> 0 <= a -> 0 <= b ->
  slice l off a ++ slice l (off + a) b = slice l off (a + b).
Proof.
  intros Ho Ha Hb. unfold slice.
  rewrite (Z2Nat.inj_add off a) by assumption.
  rewrite (Z2Nat.inj_add a b) by assumption.
  rewrite Nat.add_comm, <- skipn_skipn.
  generalize (skipn (Z.to_nat off) l) as m. generalize (Z.to_nat a) as n.
  induction n as [| n IH]; intros m; [reflexivity |].
  destruct m as [| x m];
    [cbn [firstn skipn app Nat.add]; apply firstn_nil |].
  cbn [firstn skipn Nat.add app]. f_equal. apply IH.
Qed.

(** The blocks of a send buffer, one after the other, are the buffer. *)
Lemma concat_slices_from cnt (l : list A) : forall acc,
  0 <= acc -> Forall (fun c => 0 <= c) cnt ->
  concat (map (fun oc => slice l (fst oc) (snd oc))
              (combine (prefix_sums_from acc cnt) cnt))
  = slice l acc (zsum cnt).
Proof.
  induction cnt as [| c t IH]; intros acc Hacc Hpos.
  - cbn. unfold slice. reflexivity.
  - inversion Hpos as [| c' t' Hc Ht]. subst c' t'.
    cbn [prefix_sums_from combine map concat fst snd]. rewrite zsum_cons.
    rewrite IH by (try assumption; lia).
    apply slice_app; try assumption. now apply zsum_nonneg.
Qed.

Lemma concat_blocks cnt (l : list A) :
  Forall (fun c => 0 <= c) cnt -> Z.of_nat (length l) = zsum cnt ->
  concat (map (fun q => block_for q cnt l) (seq 0 (length cnt))) = l.
Proof.
  intros Hpos Hlen.
  transitivity (concat (map (fun oc => slice l (fst oc) (snd oc))
                            (combine (prefix_sums_from 0 cnt) cnt))).
  - f_equal.
    rewrite (combine_map_seq _ _ 0 0 (length cnt)); [| | reflexivity].
    2:{ now rewrite <- exclusive_prefix_sums_from, exclusive_prefix_sums_length. }
    rewrite map_map. apply map_ext. intros q. cbn [fst snd].
    unfold block_for. now rewrite exclusive_prefix_sums_from.
  - rewrite concat_slices_from by (try assumption; lia).
    unfold slice. rewrite <- Hlen, Nat2Z.id. cbn [Z.to_nat skipn].
    apply firstn_all.
Qed.

End Blocks.

(** ** The collective transfer on consistent messages *)

Lemma nth_column (M : list (list Z)) p q :
  nth p (map (fun s => nth q s 0) M) 0 = nth q (nth p M []) 0.
Proof.
  destruct (Nat.lt_ge_cases p (length M)) as [Hp | Hp].
  - rewrite (nth_indep _ 0 (nth q [] 0)) by now rewrite length_map.
    apply (map_nth (fun s => nth q s 0)).
  - rewrite (nth_overflow (map _ M)) by now rewrite length_map.
    rewrite (nth_overflow M) by exact Hp. now destruct q.
Qed.

Lemma nth_Alltoall (M : list (list Z)) q :
  (q < length M)%nat ->
  nth q (Alltoall M) [] = map (fun s => nth q s 0) M.
Proof.
  intros Hq. unfold Alltoall.
  exact (nth_map_seq (fun q => map (fun s => nth q s 0) M) _ _ _ Hq).
Qed.

Lemma Alltoall_involutive (M : list (list Z)) :
  Forall (fun row => length row = length M) M -> Alltoall (Alltoall M) = M.
Proof.
  intros H. apply (nth_ext _ _ [] []).
  - now rewrite !Alltoall_length.
  - intros p Hp. rewrite !Alltoall_length in Hp.
    rewrite nth_Alltoall by now rewrite Alltoall_length.
    assert (Hrow : length (nth p M []) = length M).
    { rewrite Forall_forall in H. apply H. now apply nth_In. }
    apply (nth_ext _ _ 0 0).
    + now rewrite length_map, Alltoall_length.
    + intros q Hq. rewrite length_map, Alltoall_length in Hq.
      rewrite nth_column, nth_Alltoall by exact Hq. apply nth_column.
Qed.

Lemma column_nonneg (M : list (list Z)) q :
  Forall (Forall (fun c => 0 <= c)) M ->
  Forall (fun c => 0 <= c) (map (fun s => nth q s 0) M).
Proof.
  intros H. apply Forall_forall. intros c Hc. apply in_map_iff in Hc.
  destruct Hc as [s [<- Hs]]. apply nth_nonneg.
  rewrite Forall_forall in H. now apply H.
Qed.

Lemma map_fst_combine_seq {T : Type} (l : list T) :
  map fst (indexed l) = seq 0 (length l).
Proof.
  unfold indexed. generalize 0%nat as a.
  induction l as [| x t IH]; intros a; [reflexivity |].
  cbn [length seq combine map fst]. f_equal. apply IH.
Qed.

Lemma map_indexed {T U : Type} (F : nat * T -> U) (G : nat -> U) (l : list T) :
  (forall q x, nth_error l q = Some x -> F (q, x) = G q) ->
  map F (indexed l) = map G (seq 0 (length l)).
Proof.
  intros H. rewrite <- map_fst_combine_seq, map_map.
  apply map_ext_in. intros [q x] Hin. cbn [fst].
  apply H. now apply in_indexed.
Qed.

Section Transfer.

Variable A : Type.

Lemma fold_write_pairs {T : Type} (off : T -> Z) (blk : T -> list A)
    (l : list T) : forall a,
  fold_left (fun acc x => write acc (off x) (blk x)) l a
  = fold_left (fun acc ob => write acc (fst ob) (snd ob))
              (map (fun x => (off x, blk x)) l) a.
Proof. induction l as [| x t IH]; intros a; [reflexivity | apply IH]. Qed.

(** The blocks addressed to rank [q] have the sizes that column [q] of
    the send counts gives. *)
Lemma sized_column (M : list (list Z)) (Bs : list (list A)) q :
  Forall2 (fun cnt B => (q < length cnt)%nat
                        /\ Forall (fun c => 0 <= c) cnt
                        /\ Z.of_nat (length B) = zsum cnt) M Bs ->
  sized (map (fun s => nth q s 0) M)
        (map (fun cb => block_for q (fst cb) (snd cb)) (combine M Bs)).
Proof.
  induction 1 as [| cnt B M Bs [Hq [Hpos Hlen]] _ IH]; [constructor |].
  cbn [map combine fst snd]. constructor; [| exact IH].
  destruct (nth_offsets_bounds cnt q Hq Hpos) as [Hlo Hhi].
  pose proof (nth_nonneg cnt q Hpos) as Hc.
  split; [exact Hc |]. unfold block_for.
  apply slice_length; [exact Hlo | exact Hc | lia].
Qed.

Lemma nth_blocks (M : list (list Z)) (Bs : list (list A)) q p :
  length M = length Bs ->
  nth p (map (fun cb => block_for q (fst cb) (snd cb)) (combine M Bs)) []
  = block_for q (nth p M []) (nth p Bs []).
Proof.
  intros Hlen. destruct (Nat.lt_ge_cases p (length M)) as [Hp | Hp].
  - rewrite (nth_indep _ (@nil A) ((fun cb : list Z * list A =>
                                      block_for q (fst cb) (snd cb)) ([], [])))
      by (rewrite length_map, length_combine; lia).
    rewrite (map_nth (fun cb : list Z * list A =>
                        block_for q (fst cb) (snd cb))).
    now rewrite combine_nth.
  - rewrite (nth_overflow (map _ _))
      by (rewrite length_map, length_combine; lia).
    rewrite (nth_overflow Bs) by lia.
    unfold block_for, slice. now rewrite skipn_nil, firstn_nil.
Qed.

Lemma prefix_sums_from_length cnt : forall acc,
  length (prefix_sums_from acc cnt) = length cnt.
Proof.
  induction cnt as [| c t IH]; intros acc; [reflexivity |].
  cbn [prefix_sums_from length]. now rewrite IH.
Qed.

Lemma indexed_length {T : Type} (l : list T) : length (indexed l) = length l.
Proof. unfold indexed. rewrite length_combine, length_seq. lia. Qed.

(** On messages whose counts fit together and whose displacements are
    the exclusive prefix sums of the counts, [Alltoallv] succeeds and
    hands every rank the blocks addressed to it, in the order of the
    sending ranks. *)
Lemma Alltoallv_gathered (send recv : list (vmsg A)) (t : Z) :
  length recv = length send ->
  Forall (fun s => length (counts A s) = length send
                   /\ Forall (fun c => 0 <= c) (counts A s)
                   /\ displs A s = exclusive_prefix_sums (counts A s)
                   /\ Z.of_nat (length (buf A s)) = zsum (counts A s)
                   /\ stride A s = t) send ->
  map (counts A) recv = Alltoall (map (counts A) send) ->
  Forall (fun r => displs A r = exclusive_prefix_sums (counts A r)
                   /\ Z.of_nat (length (buf A r)) = zsum (counts A r)
                   /\ stride A r = t) recv ->
  Alltoallv A send recv
  = Ok (map (gathered (map (counts A) send) (map (buf A) send))
            (seq 0 (length send))).
Proof.
  intros Hlen Hsend Hcnt Hrecv.
  rewrite Forall_forall in Hsend, Hrecv.
  remember (map (counts A) send) as M eqn:HM.
  remember (map (buf A) send) as Bs eqn:HBs.
  assert (HlM : length M = length send) by (subst M; apply length_map).
  assert (HlB : length Bs = length send) by (subst Bs; apply length_map).
  assert (Hcol : forall q r, nth_error recv q = Some r ->
                   (q < length send)%nat
                   /\ counts A r = map (fun s => nth q s 0) M).
  { intros q r Hr.
    assert (Hq : (q < length send)%nat)
      by (rewrite <- Hlen; apply nth_error_Some; congruence).
    split; [exact Hq |].
    rewrite <- (nth_Alltoall M q) by lia. rewrite <- Hcnt.
    symmetry. apply nth_error_nth. now apply map_nth_error. }
  assert (Hrow : forall p s, nth_error send p = Some s ->
                   (p < length send)%nat
                   /\ nth p M [] = counts A s /\ nth p Bs [] = buf A s).
  { intros p s Hs. split; [apply nth_error_Some; congruence |].
    subst M Bs. split; apply nth_error_nth; now apply map_nth_error. }
  assert (Hrows : Forall (Forall (fun c => 0 <= c)) M).
  { subst M. apply Forall_forall. intros c Hc. apply in_map_iff in Hc.
    destruct Hc as [s [<- Hs]]. now destruct (Hsend s Hs) as [_ [H _]]. }
  assert (Hsized : forall q, (q < length send)%nat ->
            sized (map (fun s => nth q s 0) M)
                  (map (fun cb => block_for q (fst cb) (snd cb))
                       (combine M Bs))).
  { intros q Hq. apply sized_column. subst M Bs. apply Forall2_map_same.
    intros s Hs. destruct (Hsend s Hs) as [H1 [H2 [_ [H4 _]]]].
    repeat split; [lia | exact H2 | exact H4]. }
  unfold Alltoallv.
  replace (Nat.eqb (length recv) (length send)
           && forallb (vmsg_ok A (length send)) send
           && forallb (vmsg_ok A (length send)) recv
           && forallb _ (indexed send)) with true.
  - f_equal. rewrite <- Hlen. apply map_indexed.
    intros q r Hr. cbn [fst snd].
    destruct (Hcol q r Hr) as [Hq Hcr].
    destruct (Hrecv r (nth_error_In _ _ Hr)) as [Hdr [Hbr _]].
    pose proof (Hsized q Hq) as Hsz. rewrite <- Hcr in Hsz.
    set (bs := map (fun cb => block_for q (fst cb) (snd cb)) (combine M Bs))
      in *.
    assert (Hlbs : length bs = length send).
    { unfold bs. rewrite length_map, length_combine. lia. }
    assert (Hlcr : length (counts A r) = length send).
    { rewrite Hcr, length_map. exact HlM. }
    transitivity
      (fold_left (fun acc ob => write acc (fst ob) (snd ob))
                 (map (fun ps : nat * vmsg A =>
                         (nth (fst ps) (displs A r) 0,
                          slice (buf A (snd ps))
                                (nth q (displs A (snd ps)) 0)
                                (nth q (counts A (snd ps)) 0)))
                      (indexed send))
                 (buf A r)).
    { apply (fold_write_pairs
               (fun ps : nat * vmsg A => nth (fst ps) (displs A r) 0)
               (fun ps : nat * vmsg A =>
                  slice (buf A (snd ps)) (nth q (displs A (snd ps)) 0)
                        (nth q (counts A (snd ps)) 0))). }
    assert (HY : map (fun ps : nat * vmsg A =>
                        (nth (fst ps) (displs A r) 0,
                         slice (buf A (snd ps))
                               (nth q (displs A (snd ps)) 0)
                               (nth q (counts A (snd ps)) 0)))
                     (indexed send)
                 = combine (prefix_sums_from 0 (counts A r)) bs).
    { apply (nth_ext _ _ (0, []) (0, [])).
      - rewrite length_map, indexed_length, length_combine,
          prefix_sums_from_length. lia.
      - intros i Hi. rewrite length_map, indexed_length in Hi.
        destruct (nth_error send i) as [s |] eqn:Hs;
          [| apply nth_error_None in Hs; lia].
        destruct (Hrow i s Hs) as [_ [HMi HBi]].
        destruct (Hsend s (nth_error_In _ _ Hs)) as [_ [_ [Hds _]]].
        rewrite (nth_error_nth _ i (0, [])
                   (map_nth_error _ _ _ (nth_error_indexed _ _ _ Hs))).
        rewrite combine_nth by (rewrite prefix_sums_from_length; lia).
        cbn [fst snd]. unfold bs. rewrite nth_blocks by lia.
        rewrite HMi, HBi, Hdr, Hds, exclusive_prefix_sums_from.
        reflexivity. }
    rewrite HY. change (buf A r) with ([] ++ buf A r).
    rewrite fold_write_chained.
    + cbn [app]. rewrite map_snd_combine
        by (rewrite prefix_sums_from_length; lia).
      reflexivity.
    + apply (chained_prefix_sums A (counts A r) bs 0 (Z.le_refl 0) Hsz).
    + rewrite map_snd_combine by (rewrite prefix_sums_from_length; lia).
      pose proof (sized_length A _ _ Hsz). lia.
  - symmetry. rewrite Hlen, Nat.eqb_refl. cbn [andb].
    repeat (apply andb_true_iff; split).
    + apply forallb_forall. intros s Hs.
      destruct (Hsend s Hs) as [H1 [_ [H3 _]]]. unfold vmsg_ok.
      rewrite H3, exclusive_prefix_sums_length, H1, Nat.eqb_refl.
      reflexivity.
    + apply forallb_forall. intros r Hr.
      destruct (In_nth_error _ _ Hr) as [q Hq].
      destruct (Hcol q r Hq) as [_ Hcr].
      destruct (Hrecv r Hr) as [H1 _]. unfold vmsg_ok.
      rewrite H1, exclusive_prefix_sums_length, Hcr, length_map, HlM,
        Nat.eqb_refl.
      reflexivity.
    + apply forallb_forall. intros [p s] Hps.
      apply forallb_forall. intros [q r] Hqr. cbn [fst snd].
      apply in_indexed in Hps. apply in_indexed in Hqr.
      destruct (Hcol q r Hqr) as [Hq Hcr].
      destruct (Hrow p s Hps) as [Hp [HMp _]].
      destruct (Hsend s (nth_error_In _ _ Hps)) as [Hs1 [Hs2 [Hs3 [Hs4 Hs5]]]].
      destruct (Hrecv r (nth_error_In _ _ Hqr)) as [Hr1 [Hr2 Hr3]].
      assert (Hrpos : Forall (fun c => 0 <= c) (counts A r))
        by (rewrite Hcr; now apply column_nonneg).
      assert (Hrc : nth p (counts A r) 0 = nth q (counts A s) 0)
        by (rewrite Hcr, nth_column, HMp; reflexivity).
      destruct (nth_offsets_bounds (counts A s) q ltac:(lia) Hs2) as [Ha Hb].
      destruct (nth_offsets_bounds (counts A r) p
                  ltac:(rewrite Hcr, length_map; lia) Hrpos) as [Hc Hd].
      pose proof (nth_nonneg (counts A s) q Hs2) as Hsc.
      unfold pair_ok. rewrite Hs3, Hr1, Hs5, Hr3, Hrc in *.
      repeat (apply andb_true_iff; split);
        try (apply Z.leb_le; lia); try (apply Z.eqb_eq; reflexivity).
      apply orb_true_iff. right. apply Z.eqb_eq. reflexivity.
Qed.

End Transfer.

Lemma map_fst_combine {T U : Type} (l1 : list T) (l2 : list U) :
  length l1 = length l2 -> map fst (combine l1 l2) = l1.
Proof.
  revert l2. induction l1 as [| a l1 IH]; intros [| b l2] H;
    try discriminate; [reflexivity |].
  simpl. f_equal. apply IH. simpl in H. lia.
Qed.

Lemma Forall2_In_combine {T U : Type} (R : T -> U -> Prop) l1 l2 x y :
  Forall2 R l1 l2 -> In (x, y) (combine l1 l2) -> R x y.
Proof.
  induction 1 as [| a b l1 l2 Hab _ IH]; intros Hin; [contradiction |].
  destruct Hin as [Heq | Hin]; [inversion Heq; now subst | now apply IH].
Qed.

Lemma Alltoall_rows_nonneg (M : list (list Z)) row :
  Forall (Forall (fun c => 0 <= c)) M -> In row (Alltoall M) ->
  Forall (fun c => 0 <= c) row.
Proof.
  intros H Hin. unfold Alltoall in Hin. apply in_map_iff in Hin.
  destruct Hin as [q [<- _]]. now apply column_nonneg.
Qed.

Section ExchangeGathered.

Variable A : Type.
Variable dtype_itemsize : string -> Z.
Variable uninit : nat -> A.

Lemma consistent_rows (world : list (process A)) :
  consistent world -> Forall (Forall (fun c => 0 <= c)) (send_matrix world).
Proof.
  intros [H _]. unfold send_matrix. apply Forall_forall. intros c Hc.
  apply in_map_iff in Hc. destruct Hc as [pr [<- Hpr]].
  rewrite Forall_forall in H. now destruct (H pr Hpr) as [_ [Hpos _]].
Qed.

Lemma consistent_recv_nonneg (world : list (process A)) pr :
  consistent world -> In pr world ->
  Forall (fun c => 0 <= c) (recvcounts (layout pr)).
Proof.
  intros Hc Hpr. apply (Alltoall_rows_nonneg (send_matrix world)).
  - now apply consistent_rows.
  - destruct Hc as [_ <-].
    exact (in_map (fun pr => recvcounts (layout pr)) _ _ Hpr).
Qed.

(** On a group whose layouts fit together and whose payloads have one
    element type and one trailing shape, [exchange] returns to every
    rank the blocks addressed to it. *)
Lemma exchange_gathered (world : list (process A)) (Bs : list (list A)) :
  consistent world -> dtypes_agree world -> trailing_agree world ->
  Forall2 (fun pr B =>
             take (items (data pr)) (indices (layout pr)) = Ok B
             /\ Z.of_nat (length B) = zsum (sendcounts (layout pr)))
          world Bs ->
  exchange A dtype_itemsize uninit world
  = Ok (map (fun x =>
               (S (S (next_block (fst x))),
                mkarray (S (next_block (fst x))) (dtype (data (fst x)))
                        (trailing (data (fst x))) (snd x)))
            (combine world
                     (map (gathered (send_matrix world) Bs)
                          (seq 0 (length world))))).
Proof.
  intros Hcons Hd Ht Htake.
  pose proof (Forall2_length Htake) as HlB.
  unfold exchange.
  rewrite (proj1 (dtypes_agree_nodup world) Hd). cbn [Nat.eqb negb].
  destruct Hd as [d [_ Hd]]. destruct Ht as [tr Ht].
  rewrite Forall_forall in Hd, Ht.
  set (t := numpy.product tr * dtype_itemsize d).
  set (F := fun prB : process A * list A =>
              let l := layout (fst prB) in
              (mkvmsg A (snd prB) (sendcounts l) (sendoffsets l) t,
               mkvmsg A (map uninit (seq 0 (Z.to_nat (newlength l))))
                      (recvcounts l) (recvoffsets l) t)).
  assert (Hst : mapM (stage A dtype_itemsize uninit) world
                = Ok (map F (combine world Bs))).
  { apply mapM_of_Forall2. apply Forall2_map_combine; [exact HlB |].
    intros pr B Hin. destruct (Forall2_In_combine _ _ _ _ _ Htake Hin) as [Hb _].
    pose proof (in_combine_l _ _ _ _ Hin) as Hpr.
    unfold stage. rewrite Hb. cbn [bind]. unfold numpy_empty.
    destruct Hcons as [Hall Hrecv]. rewrite Forall_forall in Hall.
    destruct (Hall pr Hpr) as [_ [_ [_ [_ Hnl]]]].
    pose proof (zsum_nonneg _ (consistent_recv_nonneg world pr
                                 (conj (proj2 (Forall_forall _ _) Hall) Hrecv)
                                 Hpr)) as Hnn.
    destruct (Z.ltb_spec (newlength (layout pr)) 0) as [Hneg | _]; [lia |].
    cbn [bind]. unfold F, t. cbn [fst snd].
    now rewrite (Hd pr Hpr), (Ht pr Hpr). }
  rewrite Hst. cbn [bind].
  assert (Hsend : map (counts A) (map fst (map F (combine world Bs)))
                  = send_matrix world).
  { rewrite !map_map. unfold F. cbn [fst snd counts].
    rewrite <- (map_map fst (fun pr => sendcounts (layout pr))).
    now rewrite map_fst_combine. }
  assert (Hbuf : map (buf A) (map fst (map F (combine world Bs))) = Bs).
  { rewrite !map_map. unfold F. cbn [fst snd buf].
    now apply map_snd_combine. }
  assert (Hrecv : map (counts A) (map snd (map F (combine world Bs)))
                  = map (fun pr => recvcounts (layout pr)) world).
  { rewrite !map_map. unfold F. cbn [fst snd counts].
    rewrite <- (map_map fst (fun pr => recvcounts (layout pr))).
    now rewrite map_fst_combine. }
  assert (Hls : length (map fst (map F (combine world Bs))) = length world).
  { rewrite !length_map, length_combine. lia. }
  rewrite (Alltoallv_gathered A _ _ t).
  - cbn [bind]. now rewrite Hsend, Hbuf, Hls.
  - now rewrite !length_map.
  - apply Forall_forall. intros s Hs. rewrite map_map in Hs.
    apply in_map_iff in Hs. destruct Hs as [[pr B] [<- Hin]].
    destruct (Forall2_In_combine _ _ _ _ _ Htake Hin) as [Hb HB].
    pose proof (in_combine_l _ _ _ _ Hin) as Hpr.
    destruct Hcons as [Hall _]. rewrite Forall_forall in Hall.
    destruct (Hall pr Hpr) as [H1 [H2 [H3 _]]].
    rewrite Hls. unfold F. cbn [fst snd counts displs buf stride].
    repeat split; assumption.
  - rewrite Hsend, Hrecv. now destruct Hcons as [_ ->].
  - apply Forall_forall. intros r Hr. rewrite map_map in Hr.
    apply in_map_iff in Hr. destruct Hr as [[pr B] [<- Hin]].
    pose proof (in_combine_l _ _ _ _ Hin) as Hpr.
    pose proof (zsum_nonneg _ (consistent_recv_nonneg world pr Hcons Hpr))
      as Hnn.
    destruct Hcons as [Hall _]. rewrite Forall_forall in Hall.
    destruct (Hall pr Hpr) as [_ [_ [_ [H4 H5]]]].
    unfold F. cbn [fst snd counts displs buf stride].
    rewrite length_map, length_seq.
    repeat split; [exact H4 | lia].
Qed.

End ExchangeGathered.

Lemma combine_map_map {T U V : Type} (f : T -> U) (g : T -> V) (l : list T) :
  combine (map f l) (map g l) = map (fun x => (f x, g x)) l.
Proof. induction l as [| x t IH]; [reflexivity | simpl; now rewrite IH]. Qed.

Lemma Forall2_nth {T U : Type} (R : T -> U -> Prop) l1 l2 p d1 d2 :
  Forall2 R l1 l2 -> (p < length l1)%nat -> R (nth p l1 d1) (nth p l2 d2).
Proof.
  intros H Hp. pose proof (Forall2_length H) as Hlen.
  apply (Forall2_nth_error R l1 l2 H p); apply nth_error_nth'; lia.
Qed.

Section GatheredBack.

Variable A : Type.

(** Sending the gathered blocks back along the swapped counts returns
    every send buffer. *)
Lemma gathered_back (M : list (list Z)) (Bs : list (list A)) :
  Forall2 (fun cnt B => length cnt = length M
                        /\ Forall (fun c => 0 <= c) cnt
                        /\ Z.of_nat (length B) = zsum cnt) M Bs ->
  map (gathered (Alltoall M)
                (map (gathered M Bs) (seq 0 (length M))))
      (seq 0 (length M))
  = Bs.
Proof.
  intros H. pose proof (Forall2_length H) as HlB.
  transitivity (map (fun p => nth p Bs []) (seq 0 (length M)));
    [| rewrite HlB; apply map_nth_seq].
  apply map_ext_in. intros p Hp. apply in_seq in Hp.
  destruct (Forall2_nth _ M Bs p [] [] H ltac:(lia)) as [Hrow [Hpos Hlen]].
  unfold gathered at 1. unfold Alltoall.
  rewrite combine_map_map, map_map. cbn [fst snd].
  rewrite <- (concat_blocks A (nth p M []) (nth p Bs []) Hpos Hlen) at 1.
  rewrite Hrow. f_equal. apply map_ext_in. intros q Hq. apply in_seq in Hq.
  unfold block_for at 1, gathered.
  rewrite slice_concat.
  - now apply nth_blocks.
  - apply sized_column.
    revert H. apply Forall2_impl.
    intros cnt B [H1 [H2 H3]]. repeat split; [lia | exact H2 | exact H3].
  - rewrite length_map. lia.
Qed.

End GatheredBack.

(** ** The way there and back *)

Lemma Layout_init_consistent {A : Type} (cfg : list (list Z * list Z))
    (world : list (process A)) :
  valid_world cfg -> Layout_init cfg = Ok (map layout world) ->
  consistent world
  /\ Forall (fun pr => valid_counts (sendcounts (layout pr))
                       /\ valid_counts (recvcounts (layout pr))
                       /\ length (recvcounts (layout pr)) = length world)
            world.
Proof.
  intros Hv Hinit. rewrite (Layout_init_ok cfg Hv) in Hinit.
  inversion Hinit as [Hmap]. clear Hinit.
  destruct Hv as [Hsend Hrecv]. rewrite Forall_forall in Hsend, Hrecv.
  assert (Hlc : length (Alltoall (map fst cfg)) = length cfg)
    by now rewrite Alltoall_length, length_map.
  assert (Hlw : length world = length cfg).
  { rewrite <- (length_map layout world), <- Hmap, length_map,
      length_combine. lia. }
  assert (HS : send_matrix world = map fst cfg).
  { unfold send_matrix. rewrite <- (map_map layout sendcounts), <- Hmap.
    rewrite map_map. cbn [layout_of sendcounts].
    rewrite <- (map_map fst fst). now rewrite map_fst_combine. }
  assert (HR : map (fun pr => recvcounts (layout pr)) world
               = Alltoall (map fst cfg)).
  { rewrite <- (map_map layout recvcounts), <- Hmap.
    rewrite map_map. cbn [layout_of recvcounts].
    now apply map_snd_combine. }
  assert (Hall : Forall (fun l =>
                   (length (sendcounts l) = length cfg
                    /\ valid_counts (sendcounts l)
                    /\ sendoffsets l = exclusive_prefix_sums (sendcounts l)
                    /\ recvoffsets l = exclusive_prefix_sums (recvcounts l)
                    /\ newlength l = zsum (recvcounts l))
                   /\ valid_counts (recvcounts l)
                   /\ length (recvcounts l) = length cfg)
                (map layout world)).
  { rewrite <- Hmap. apply Forall_map. apply Forall_forall.
    intros [[sc idx] rc] Hin. cbn [fst snd layout_of sendcounts recvcounts
      sendoffsets recvoffsets newlength].
    destruct (Hsend _ (in_combine_l _ _ _ _ Hin)) as [H1 H2].
    pose proof (in_combine_r _ _ _ _ Hin) as Hrc.
    cbn [fst] in H1, H2.
    repeat split; try assumption; try reflexivity; try apply H2;
      try apply (Hrecv rc Hrc).
    rewrite (Alltoall_row_length _ _ Hrc). apply length_map. }
  apply Forall_map in Hall. rewrite Forall_forall in Hall.
  split; [split |].
  - apply Forall_forall. intros pr Hpr.
    destruct (Hall pr Hpr) as [[H1 [[H2 _] [H3 [H4 H5]]]] _].
    rewrite Hlw. repeat split; assumption.
  - now rewrite HR, HS.
  - apply Forall_forall. intros pr Hpr.
    destruct (Hall pr Hpr) as [[_ [H2 _]] [H6 H7]].
    rewrite Hlw. split; [exact H2 | split; [exact H6 | exact H7]].
Qed.

Section RoundTrip.

Variable A : Type.
Variable dtype_itemsize : string -> Z.
Variable uninit : nat -> A.

Lemma take1_at (l : list A) i x :
  nth_error l i = Some x -> take1 l (Z.of_nat i) = Ok x.
Proof.
  intros H. assert (Hi : (i < length l)%nat)
    by (apply nth_error_Some; congruence).
  unfold take1.
  destruct (Z.leb_spec (- Z.of_nat (length l)) (Z.of_nat i)); [| lia].
  destruct (Z.ltb_spec (Z.of_nat i) (Z.of_nat (length l))); [| lia].
  destruct (Z.ltb_spec (Z.of_nat i) 0); [lia |].
  cbn [andb]. now rewrite Nat2Z.id, H.
Qed.

Lemma take_arange_from (l : list A) : forall pre,
  mapM (take1 (pre ++ l)) (map Z.of_nat (seq (length pre) (length l)))
  = Ok l.
Proof.
  induction l as [| x l IH]; intros pre; [reflexivity |].
  cbn [length seq map mapM].
  rewrite (take1_at (pre ++ x :: l) (length pre) x).
  2:{ rewrite nth_error_app2, Nat.sub_diag by lia. reflexivity. }
  cbn [bind]. specialize (IH (pre ++ [x])).
  rewrite <- app_assoc, length_app in IH. cbn [app length] in IH.
  rewrite Nat.add_1_r in IH. now rewrite IH.
Qed.

(** [data.take(numpy.arange(len(data)))] is [data]. *)
Lemma take_arange (l : list A) : take l (arange (Z.of_nat (length l))) = Ok l.
Proof.
  unfold take, arange. rewrite Nat2Z.id. exact (take_arange_from l []).
Qed.

(** An index sequence that names every item once selects the items in
    another order. *)
Lemma take_bijective (l : list A) idx :
  Permutation idx (arange (Z.of_nat (length l))) ->
  exists b, take l idx = Ok b /\ Permutation b l.
Proof.
  intros H. exact (mapM_Permutation _ _ _ H l (take_arange l)).
Qed.

End RoundTrip.

Lemma Forall2_combine_maps {T U V W : Type} (R : V -> W -> Prop)
    (G : T * U -> V) (g : U -> W) (l : list T) (m : list U) :
  length l = length m ->
  (forall x y, In (x, y) (combine l m) -> R (G (x, y)) (g y)) ->
  Forall2 R (map G (combine l m)) (map g m).
Proof.
  revert m. induction l as [| a l IH]; intros [| b m] Hlen H;
    try discriminate; [constructor |].
  simpl. constructor.
  - apply H. now left.
  - apply IH; [simpl in Hlen; lia |]. intros x y Hin. apply H. now right.
Qed.

Lemma Forall2_map_left {T U V : Type} (R : U -> V -> Prop) (f : T -> U) l m :
  Forall2 (fun x y => R (f x) y) l m -> Forall2 R (map f l) m.
Proof. induction 1; simpl; constructor; assumption. Qed.

(** The round trip through layouts that are given: a group whose
    layouts were built by the constructor from valid count vectors, whose
    payloads have one element type and one trailing shape, and whose
    index sequences name every item of the payload once. The transfer
    succeeds, the transfer of its result through the swapped layouts
    succeeds, and every rank gets back the items of its payload, in the
    order of its index sequence, so the same items as a multiset, with
    the element type and the trailing shape of the payload. *)
Lemma exchange_round_trip (A : Type) (itemsize : string -> Z)
    (uninit : nat -> A) (cfg : list (list Z * list Z))
    (world : list (process A)) :
  valid_world cfg ->
  Layout_init cfg = Ok (map layout world) ->
  dtypes_agree world -> trailing_agree world ->
  Forall bijective world ->
  exists there back,
    exchange A itemsize uninit world = Ok there
    /\ round_trip A itemsize uninit world = Ok back
    /\ Forall2 (fun pr res =>
                  take (items (data pr)) (indices (layout pr))
                  = Ok (items (snd res))
                  /\ Permutation (items (snd res)) (items (data pr))
                  /\ dtype (snd res) = dtype (data pr)
                  /\ trailing (snd res) = trailing (data pr))
               world back.
Proof.
  intros Hv Hinit Hd Ht Hbij.
  destruct (Layout_init_consistent cfg world Hv Hinit) as [Hcons Hvalid].
  rewrite Forall_forall in Hbij, Hvalid.
  pose proof Hcons as [Hall HrecvM]. rewrite Forall_forall in Hall.
  (* the send buffers of the way there *)
  set (Bs := map (fun pr => match take (items (data pr))
                                   (indices (layout pr)) with
                            | Ok b => b
                            | Raise _ => []
                            end) world).
  assert (HBs : Forall2 (fun pr B =>
                   take (items (data pr)) (indices (layout pr)) = Ok B
                   /\ Permutation B (items (data pr))
                   /\ Z.of_nat (length B) = zsum (sendcounts (layout pr)))
                world Bs).
  { unfold Bs. rewrite <- (map_id world) at 1. apply Forall2_map_same.
    intros pr Hpr. destruct (Hbij pr Hpr) as [Hperm Hsum].
    destruct (take_bijective A _ _ Hperm) as [b [Hb Hpb]].
    rewrite Hb. split; [reflexivity |]. split; [exact Hpb |].
    rewrite (take_length A _ _ _ Hb). lia. }
  assert (HBs' : Forall2 (fun pr B =>
                    take (items (data pr)) (indices (layout pr)) = Ok B
                    /\ Z.of_nat (length B) = zsum (sendcounts (layout pr)))
                 world Bs).
  { revert HBs. apply Forall2_impl. intros pr B [H1 [_ H3]]. now split. }
  pose proof (Forall2_length HBs) as HlB.
  pose proof (exchange_gathered A itemsize uninit world Bs Hcons Hd Ht HBs')
    as Hfwd.
  set (Fs := map (gathered (send_matrix world) Bs) (seq 0 (length world)))
    in *.
  set (H1 := fun x : process A * list A =>
               (S (S (next_block (fst x))),
                mkarray (S (next_block (fst x))) (dtype (data (fst x)))
                        (trailing (data (fst x))) (snd x))) in *.
  set (there := map H1 (combine world Fs)) in *.
  pose proof (exchange_shape A itemsize uninit world there Hfwd) as Hshape.
  assert (HlF : length Fs = length world)
    by (unfold Fs; now rewrite length_map, length_seq).
  assert (Hlt : length there = length world)
    by (unfold there; rewrite length_map, length_combine; lia).
  assert (Hitems : map (fun res : nat * ndarray A => items (snd res)) there
                   = Fs).
  { unfold there. rewrite map_map. unfold H1. cbn [snd items].
    now apply map_snd_combine. }
  (* the group of the way back *)
  set (G := fun pr_res : process A * (nat * ndarray A) =>
              mkprocess (fst (snd pr_res))
                        (layout_of (recvcounts (layout (fst pr_res)))
                                   (arange (newlength (layout (fst pr_res))))
                                   (sendcounts (layout (fst pr_res))))
                        (snd (snd pr_res))).
  set (world' := map G (combine world there)).
  assert (Hlw' : length world' = length world)
    by (unfold world'; rewrite length_map, length_combine; lia).
  assert (HlM : length (send_matrix world) = length world)
    by apply length_map.
  assert (HS' : send_matrix world' = Alltoall (send_matrix world)).
  { rewrite <- HrecvM. unfold send_matrix, world'. rewrite map_map.
    unfold G. cbn [layout sendcounts layout_of fst].
    rewrite <- (map_map fst (fun pr => recvcounts (layout pr))).
    now rewrite map_fst_combine. }
  assert (HR' : map (fun pr => recvcounts (layout pr)) world'
                = send_matrix world).
  { unfold send_matrix, world'. rewrite map_map.
    unfold G. cbn [layout recvcounts layout_of fst].
    rewrite <- (map_map fst (fun pr => sendcounts (layout pr))).
    now rewrite map_fst_combine. }
  assert (Hcons' : consistent world').
  { split.
    - apply Forall_forall. intros pr' Hin. apply in_map_iff in Hin.
      destruct Hin as [[pr res] [<- Hin]].
      pose proof (in_combine_l _ _ _ _ Hin) as Hpr.
      destruct (Hvalid pr Hpr) as [_ [[Hvr _] Hlr]].
      unfold G. cbn [layout sendcounts recvcounts sendoffsets recvoffsets
                     newlength layout_of fst snd].
      rewrite Hlw'. repeat split; assumption.
    - rewrite HR', HS'. symmetry. apply Alltoall_involutive.
      rewrite HlM. unfold send_matrix. apply Forall_map.
      apply Forall_forall. intros pr Hpr.
      now destruct (Hall pr Hpr) as [Hl _]. }
  assert (Hd' : dtypes_agree world').
  { destruct Hd as [d [Hne Hd]]. rewrite Forall_forall in Hd.
    exists d. split.
    - intros Hnil. apply Hne. apply length_zero_iff_nil.
      now rewrite <- Hlw', Hnil.
    - apply Forall_forall. intros pr' Hin. apply in_map_iff in Hin.
      destruct Hin as [[pr res] [<- Hin]].
      destruct (Forall2_In_combine _ _ _ _ _ Hshape Hin)
        as [_ [_ [Hdt _]]].
      unfold G. cbn [data fst snd]. rewrite Hdt.
      apply Hd. exact (in_combine_l _ _ _ _ Hin). }
  assert (Ht' : trailing_agree world').
  { destruct Ht as [tr Ht]. rewrite Forall_forall in Ht.
    exists tr. apply Forall_forall. intros pr' Hin.
    apply in_map_iff in Hin. destruct Hin as [[pr res] [<- Hin]].
    destruct (Forall2_In_combine _ _ _ _ _ Hshape Hin)
      as [_ [_ [_ [Htr _]]]].
    unfold G. cbn [data fst snd]. rewrite Htr.
    apply Ht. exact (in_combine_l _ _ _ _ Hin). }
  assert (HFs : Forall2 (fun pr' B =>
                   take (items (data pr')) (indices (layout pr')) = Ok B
                   /\ Z.of_nat (length B) = zsum (sendcounts (layout pr')))
                world' Fs).
  { rewrite <- Hitems. unfold world'. apply Forall2_combine_maps; [lia |].
    intros pr res Hin.
    destruct (Forall2_In_combine _ _ _ _ _ Hshape Hin)
      as [_ [_ [_ [_ Hnl]]]].
    pose proof (in_combine_l _ _ _ _ Hin) as Hpr.
    destruct (Hall pr Hpr) as [_ [_ [_ [_ Hnew]]]].
    unfold G. cbn [data layout items indices sendcounts layout_of fst snd].
    split; [| lia]. rewrite <- Hnl. apply take_arange. }
  pose proof (exchange_gathered A itemsize uninit world' Fs Hcons' Hd' Ht'
                HFs) as Hbwd.
  assert (HMB : Forall2 (fun cnt B =>
                   length cnt = length (send_matrix world)
                   /\ Forall (fun c => 0 <= c) cnt
                   /\ Z.of_nat (length B) = zsum cnt)
                (send_matrix world) Bs).
  { rewrite HlM. unfold send_matrix. apply Forall2_map_left.
    apply Forall2_of_nth_error; [exact HlB |].
    intros p pr B Hpr HB.
    destruct (Forall2_nth_error _ _ _ HBs' p pr B Hpr HB) as [_ Hlen].
    destruct (Hall pr (nth_error_In _ _ Hpr)) as [Hl [Hpos _]].
    repeat split; assumption. }
  rewrite HS', Hlw' in Hbwd. unfold Fs in Hbwd.
  rewrite <- HlM in Hbwd. rewrite (gathered_back A _ _ HMB) in Hbwd.
  fold H1 in Hbwd.
  exists there, (map H1 (combine world' Bs)).
  split; [exact Hfwd |]. split.
  - unfold round_trip. rewrite Hfwd. cbn [bind].
    rewrite (mapM_pure _ G).
    + cbn [bind]. exact Hbwd.
    + intros [pr res] Hin. cbn [fst snd].
      pose proof (in_combine_l _ _ _ _ Hin) as Hpr.
      destruct (Hvalid pr Hpr) as [Hvs [Hvr Hlr]].
      destruct (Hall pr Hpr) as [Hls _].
      unfold Layout_swapped, Layout_init_with, assert.
      rewrite Hlr, Nat.eqb_refl. cbn [bind].
      rewrite make_layout_ok; [reflexivity | lia | exact Hvr | exact Hvs].
  - apply Forall2_of_nth_error.
    + rewrite length_map, length_combine. lia.
    + intros p pr res Hpr Hres.
      assert (Hp : (p < length world)%nat)
        by (apply nth_error_Some; congruence).
      destruct (nth_error Bs p) as [B |] eqn:HB;
        [| apply nth_error_None in HB; lia].
      destruct (nth_error there p) as [th |] eqn:Hth;
        [| apply nth_error_None in Hth; lia].
      assert (Hw' : nth_error world' p = Some (G (pr, th))).
      { unfold world'. apply map_nth_error. now apply nth_error_combine. }
      assert (Hc : nth_error (combine world' Bs) p = Some (G (pr, th), B))
        by now apply nth_error_combine.
      rewrite (map_nth_error H1 _ _ Hc) in Hres. inversion Hres as [Hres'].
      destruct (Forall2_nth_error _ _ _ HBs p pr B Hpr HB) as [Htk [Hpm _]].
      destruct (Forall2_nth_error _ _ _ Hshape p pr th Hpr Hth)
        as [_ [_ [Hdt [Htr _]]]].
      unfold H1, G. cbn [fst snd items dtype trailing data].
      repeat split; assumption.
Qed.

(** A group of three ranks with such layouts. *)
Lemma exchange_round_trip_example :
  let world :=
    [mkprocess 1%nat (layout_of [1; 0; 1] [1; 0] [1; 0; 0])
               (mkarray 0%nat "<f4"%string [] [10; 11]);
     mkprocess 1%nat (layout_of [0; 1; 0] [0] [0; 1; 0])
               (mkarray 0%nat "<f4"%string [] [20]);
     mkprocess 1%nat (layout_of [0; 0; 0] [] [1; 0; 0])
               (mkarray 0%nat "<f4"%string [] [])] in
  exists there back,
    exchange Z (fun _ => 4) (fun _ => -1) world = Ok there
    /\ round_trip Z (fun _ => 4) (fun _ => -1) world = Ok back
    /\ Forall2 (fun pr res =>
                  take (items (data pr)) (indices (layout pr))
                  = Ok (items (snd res))
                  /\ Permutation (items (snd res)) (items (data pr))
                  /\ dtype (snd res) = dtype (data pr)
                  /\ trailing (snd res) = trailing (data pr))
               world back.
Proof.
  intros world.
  apply (exchange_round_trip Z (fun _ => 4) (fun _ => -1)
           [([1; 0; 1], [1; 0]); ([0; 1; 0], [0]); ([0; 0; 0], [])] world).
  - split; repeat constructor; simpl; lia.
  - reflexivity.
  - exists "<f4"%string. split; [discriminate | repeat constructor].
  - exists []. repeat constructor.
  - constructor; [split; [apply perm_swap | reflexivity] |].
    constructor; [split; [apply Permutation_refl | reflexivity] |].
    constructor; [split; [apply Permutation_refl | reflexivity] |].
    constructor.
Qed.

(** The layouts of that group are the ones [decompose] returns, with
    support radius 0, for the particles at 2.5 and 0.5 on rank 0, at 1.5
    on rank 1 and none on rank 2, on the grid with edges 0, 1, 2, 3. *)
Lemma radius_zero_layouts :
  (do g <- grid3 false;
   decompose g [([[2.5%Q]; [0.5%Q]], Uniform 0%Q);
                ([[1.5%Q]], Uniform 0%Q);
                ([], Uniform 0%Q)])
  = Ok [layout_of [1; 0; 1] [1; 0] [1; 0; 0];
        layout_of [0; 1; 0] [0] [0; 1; 0];
        layout_of [0; 0; 0] [] [1; 0; 0]].
Proof. reflexivity. Qed.

(** The same group, computed: rank 0 sends item 11 to itself and item 10
    to rank 2, and gets both back, in the order of its index sequence. *)
Lemma round_trip_example :
  let world :=
    [mkprocess 1%nat (layout_of [1; 0; 1] [1; 0] [1; 0; 0])
               (mkarray 0%nat "<f4"%string [] [10; 11]);
     mkprocess 1%nat (layout_of [0; 1; 0] [0] [0; 1; 0])
               (mkarray 0%nat "<f4"%string [] [20]);
     mkprocess 1%nat (layout_of [0; 0; 0] [] [1; 0; 0])
               (mkarray 0%nat "<f4"%string [] [])] in
  exchange Z (fun _ => 4) (fun _ => -1) world
  = Ok [(3%nat, mkarray 2%nat "<f4"%string [] [11]);
        (3%nat, mkarray 2%nat "<f4"%string [] [20]);
        (3%nat, mkarray 2%nat "<f4"%string [] [10])]
  /\ round_trip Z (fun _ => 4) (fun _ => -1) world
     = Ok [(5%nat, mkarray 4%nat "<f4"%string [] [11; 10]);
           (5%nat, mkarray 4%nat "<f4"%string [] [20]);
           (5%nat, mkarray 4%nat "<f4"%string [] [])].
Proof. cbv zeta. split; reflexivity. Qed.

(** * The callers of the decomposition *)

(** ** The edges of [buildgrid] *)

Lemma nondecreasing_map_seq (f : nat -> Q) n : forall a,
  (forall i, (a <= i)%nat -> (S i < a + n)%nat -> (f i <= f (S i))%Q) ->
  numpy.nondecreasing (map f (seq a n)) = true.
Proof.
  induction n as [| n IH]; intros a H; [reflexivity |].
  destruct n as [| n]; [reflexivity |].
  change (map f (seq a (S (S n))))
    with (f a :: f (S a) :: map f (seq (S (S a)) n)).
  change (numpy.nondecreasing (f a :: f (S a) :: map f (seq (S (S a)) n)))
    with (Qle_bool (f a) (f (S a))
          && numpy.nondecreasing (map f (seq (S a) (S n)))).
  apply andb_true_iff. split.
  - apply Qle_bool_iff. apply H; lia.
  - apply IH. intros i Hi Hlt. apply H; lia.
Qed.

(** The number of tiles that cover [PX] pixels. *)
Lemma ntile_covers T PX :
  0 < T -> 0 <= PX ->
  let ntile := PX / T + (if PX mod T =? 0 then 0 else 1) in
  0 <= ntile /\ PX <= ntile * T < PX + T.
Proof.
  intros HT HPX ntile. subst ntile.
  pose proof (Z.div_mod PX T ltac:(lia)) as Hdm.
  pose proof (Z.mod_pos_bound PX T HT) as Hm.
  pose proof (Z.div_pos PX T HPX HT) as Hd.
  destruct (Z.eqb_spec (PX mod T) 0) as [Hz | Hnz]; nia.
Qed.

Lemma edge_bounds ntile NX i :
  0 <= ntile -> 0 < NX -> 0 <= i <= NX ->
  0 <= i * ntile <= NX * ntile /\ 0 <= i * ntile / NX <= ntile.
Proof.
  intros Hn HNX Hi. split; [nia |]. split.
  - apply Z.div_pos; nia.
  - apply Z.div_le_upper_bound; nia.
Qed.

(** Without overflow the edges are [i * ntile // NX * TilePadding]. *)
Lemma buildgrid_exact T PX NX :
  0 < T -> 0 <= PX -> 0 < NX ->
  NX * (PX + 1) <= 9223372036854775807 ->
  PX + T <= 9223372036854775807 ->
  let ntile := PX / T + (if PX mod T =? 0 then 0 else 1) in
  mpipaint.buildgrid T PX NX
  = Some (map (fun i => Z.of_nat i * ntile / NX * T)
              (seq 0 (Z.to_nat (NX + 1)))).
Proof.
  intros HT HPX HNX Hb1 Hb2 ntile. unfold mpipaint.buildgrid.
  destruct (Z.eqb_spec T 0) as [-> | _]; [lia |]. fold ntile. f_equal.
  apply map_ext_in. intros i Hi. apply in_seq in Hi.
  destruct (ntile_covers T PX HT HPX) as [Hn Hc]. fold ntile in Hn, Hc.
  assert (Hle : ntile <= PX + 1) by nia.
  destruct (edge_bounds ntile NX (Z.of_nat i) Hn HNX ltac:(lia)) as [H1 H2].
  rewrite (int64_small (Z.of_nat i * ntile)) by nia.
  rewrite (int64_small (Z.of_nat i * ntile / NX)) by nia.
  apply int64_small. nia.
Qed.

(** X1. For a positive tile size, a non-negative number of pixels and at
    least one strip, within 64 bits: [buildgrid] returns [NX + 1] edges
    that start at 0, are whole multiples of the tile size, do not
    decrease (so that they are bins [numpy.digitize] accepts), and end at
    the least multiple of the tile size that covers [PX]. *)
Theorem buildgrid_covers (T PX NX : Z) :
  0 < T -> 0 <= PX -> 0 < NX ->
  NX * (PX + 1) <= 9223372036854775807 ->
  PX + T <= 9223372036854775807 ->
  exists edges,
    mpipaint.buildgrid T PX NX = Some edges
    /\ Z.of_nat (length edges) = NX + 1
    /\ hd 0 edges = 0
    /\ PX <= last edges 0 < PX + T
    /\ Forall (fun e => e mod T = 0) edges
    /\ numpy.nondecreasing (map inject_Z edges) = true.
Proof.
  intros HT HPX HNX Hb1 Hb2.
  rewrite (buildgrid_exact T PX NX HT HPX HNX Hb1 Hb2).
  destruct (ntile_covers T PX HT HPX) as [Hn Hc].
  set (ntile := PX / T + (if PX mod T =? 0 then 0 else 1)) in *.
  eexists. split; [reflexivity |].
  split; [rewrite length_map, length_seq; lia |].
  replace (Z.to_nat (NX + 1)) with (S (Z.to_nat NX)) by lia.
  split; [reflexivity |]. split; [| split].
  - rewrite seq_S, map_app. cbn [map]. rewrite last_last. cbn [Nat.add].
    rewrite Z2Nat.id by lia.
    replace (NX * ntile / NX) with ntile
      by (rewrite (Z.mul_comm NX ntile), Z.div_mul; lia).
    exact Hc.
  - apply Forall_forall. intros e He. apply in_map_iff in He.
    destruct He as [i [<- _]]. apply Z.mod_mul. lia.
  - rewrite map_map. apply nondecreasing_map_seq. intros i _ Hi.
    rewrite <- Zle_Qle. apply Z.mul_le_mono_nonneg_r; [lia |].
    apply Z.div_le_mono; [lia |]. nia.
Qed.

Lemma buildgrid_covers_witness :
  exists edges,
    mpipaint.buildgrid 256 2200 3 = Some edges
    /\ Z.of_nat (length edges) = 3 + 1
    /\ hd 0 edges = 0
    /\ 2200 <= last edges 0 < 2200 + 256
    /\ Forall (fun e => e mod 256 = 0) edges
    /\ numpy.nondecreasing (map inject_Z edges) = true.
Proof. apply (buildgrid_covers 256 2200 3); lia. Defined.

(** X2. Under the same conditions the strips are balanced: with
    [q = ntile // NX], every strip is [q] or [q + 1] tiles wide. *)
Theorem buildgrid_balanced (T PX NX : Z) (edges : list Z) (i : nat) :
  0 < T -> 0 <= PX -> 0 < NX ->
  NX * (PX + 1) <= 9223372036854775807 ->
  PX + T <= 9223372036854775807 ->
  mpipaint.buildgrid T PX NX = Some edges ->
  Z.of_nat i < NX ->
  let ntile := PX / T + (if PX mod T =? 0 then 0 else 1) in
  let width := nth (S i) edges 0 - nth i edges 0 in
  width = ntile / NX * T \/ width = (ntile / NX + 1) * T.
Proof.
  intros HT HPX HNX Hb1 Hb2 Hgrid Hi ntile width.
  rewrite (buildgrid_exact T PX NX HT HPX HNX Hb1 Hb2) in Hgrid.
  fold ntile in Hgrid. inversion Hgrid as [Hedges]. clear Hgrid.
  destruct (ntile_covers T PX HT HPX) as [Hn _]. fold ntile in Hn.
  assert (Hnth : forall k, (k < Z.to_nat (NX + 1))%nat ->
            nth k edges 0 = Z.of_nat k * ntile / NX * T).
  { intros k Hk. rewrite <- Hedges.
    rewrite (nth_indep _ 0 ((fun i => Z.of_nat i * ntile / NX * T) 0%nat))
      by (rewrite length_map, length_seq; exact Hk).
    rewrite (map_nth (fun i => Z.of_nat i * ntile / NX * T)).
    now rewrite seq_nth. }
  subst width. rewrite !Hnth by lia. rewrite Nat2Z.inj_succ.
  set (a := Z.of_nat i * ntile).
  replace (Z.succ (Z.of_nat i) * ntile) with (a + ntile) by (subst a; lia).
  assert (Ha : 0 <= a) by (subst a; nia).
  pose proof (Z.div_mod a NX ltac:(lia)) as Hda.
  pose proof (Z.div_mod ntile NX ltac:(lia)) as Hdn.
  pose proof (Z.div_mod (a + ntile) NX ltac:(lia)) as Hds.
  pose proof (Z.mod_pos_bound a NX HNX) as Hma.
  pose proof (Z.mod_pos_bound ntile NX HNX) as Hmn.
  pose proof (Z.mod_pos_bound (a + ntile) NX HNX) as Hms.
  assert (Hcase : (a + ntile) / NX = a / NX + ntile / NX
                  \/ (a + ntile) / NX = a / NX + ntile / NX + 1) by nia.
  destruct Hcase as [-> | ->]; [left | right]; ring.
Qed.

Lemma buildgrid_balanced_witness :
  let width := nth 2 [0; 768; 1536; 2304] 0 - nth 1 [0; 768; 1536; 2304] 0 in
  width = 9 / 3 * 256 \/ width = (9 / 3 + 1) * 256.
Proof.
  apply (buildgrid_balanced 256 2200 3 [0; 768; 1536; 2304] 1);
    try lia; reflexivity.
Defined.

(** ** The mesh of ranks of [main] *)

Lemma mesh_width_spec size : forall (n : nat),
  (1 <= n)%nat ->
  exists NX,
    mpipaint.mesh_width size n = Some NX
    /\ 1 <= NX <= Z.of_nat n
    /\ size mod NX = 0
    /\ (forall d, NX < d <= Z.of_nat n -> size mod d <> 0).
Proof.
  induction n as [| n IH]; intros Hn; [lia |].
  cbn [mpipaint.mesh_width].
  destruct (Z.eqb_spec (size mod Z.of_nat (S n)) 0) as [Hz | Hnz].
  - exists (Z.of_nat (S n)).
    split; [reflexivity |]. split; [lia |]. split; [exact Hz |].
    intros d Hd. lia.
  - destruct n as [| n].
    + exfalso. apply Hnz. apply Z.mod_1_r.
    + destruct (IH ltac:(lia)) as [NX [Heq [Hr [Hd Hmax]]]].
      exists NX. split; [exact Heq |]. split; [lia |]. split; [exact Hd |].
      intros d Hdr.
      destruct (Z.eq_dec d (Z.of_nat (S (S n)))) as [-> | Hne];
        [exact Hnz | apply Hmax; lia].
Qed.

(** X3. For a group of at least one rank, whatever the rounded square
    root: the loop ends on the largest divisor [NX] of the group size
    that is at most the starting value, no division by zero occurs, and
    [NX * NY] is the group size, which is what the assertion of
    [GridND.__init__] asks of the mesh. *)
Theorem mesh_shape_factors (size root : Z) :
  1 <= size ->
  exists NX NY,
    mpipaint.mesh_shape size root = Some (NX, NY)
    /\ 1 <= NX <= Z.max root 1
    /\ NX * NY = size
    /\ numpy.product [NX; NY] = size
    /\ (forall d, NX < d <= Z.max root 1 -> size mod d <> 0).
Proof.
  intros Hsize. unfold mpipaint.mesh_shape.
  set (start := if root <? 1 then 1 else root).
  assert (Hstart : start = Z.max root 1)
    by (subst start; destruct (Z.ltb_spec root 1); lia).
  destruct (mesh_width_spec size (Z.to_nat start) ltac:(lia))
    as [NX [-> [Hr [Hd Hmax]]]].
  rewrite Z2Nat.id in Hr, Hmax by lia. rewrite Hstart in Hr, Hmax.
  exists NX, (size / NX).
  assert (Hmul : NX * (size / NX) = size).
  { pose proof (Z.div_mod size NX ltac:(lia)). lia. }
  split; [reflexivity |]. split; [lia |]. split; [exact Hmul |].
  split; [| exact Hmax].
  unfold numpy.product. cbn [fold_left]. lia.
Qed.

Lemma mesh_shape_factors_witness :
  exists NX NY,
    mpipaint.mesh_shape 12 3 = Some (NX, NY)
    /\ 1 <= NX <= Z.max 3 1
    /\ NX * NY = 12
    /\ numpy.product [NX; NY] = 12
    /\ (forall d, NX < d <= Z.max 3 1 -> 12 mod d <> 0).
Proof. apply (mesh_shape_factors 12 3). lia. Defined.

(** ** The work shares of [main] *)

Lemma seq_from s n : seq s n = map (fun k => (s + k)%nat) (seq 0 n).
Proof.
  revert s. induction n as [| n IH]; intros s; [reflexivity |].
  cbn [seq map]. f_equal; [lia |].
  rewrite (IH (S s)), <- seq_shift, map_map.
  apply map_ext. intros k. lia.
Qed.

Lemma rows_app a b c :
  a <= b <= c ->
  mpipaint.rows (a, b) ++ mpipaint.rows (b, c) = mpipaint.rows (a, c).
Proof.
  intros H. unfold mpipaint.rows. cbn [fst snd].
  replace (Z.to_nat (c - a)) with (Z.to_nat (b - a) + Z.to_nat (c - b))%nat
    by lia.
  rewrite seq_app, map_app. f_equal. cbn [Nat.add].
  rewrite (seq_from (Z.to_nat (b - a))), map_map.
  apply map_ext. intros k. lia.
Qed.

Lemma rows_empty a : mpipaint.rows (a, a) = [].
Proof. unfold mpipaint.rows. cbn [fst snd]. now rewrite Z.sub_diag. Qed.

(** The shares of the ranks [0], ..., [n - 1] of a chunk of [len] rows
    from [cstart] are the first [n * len // size] rows of the chunk. *)
Lemma shares_prefix size len cstart :
  0 < size -> 0 <= len -> forall n : nat,
  flat_map (fun r => mpipaint.rows (Z.of_nat r * len / size + cstart,
                                    (Z.of_nat r + 1) * len / size + cstart))
           (seq 0 n)
  = mpipaint.rows (cstart, Z.of_nat n * len / size + cstart).
Proof.
  intros Hsize Hlen. induction n as [| n IH].
  - cbn [seq flat_map]. change (Z.of_nat 0 * len) with 0.
    rewrite Z.div_0_l by lia. symmetry. apply rows_empty.
  - rewrite seq_S, flat_map_app, IH. cbn [Nat.add flat_map].
    rewrite app_nil_r.
    replace (Z.of_nat n + 1) with (Z.of_nat (S n)) by lia.
    apply rows_app. split.
    + assert (0 <= Z.of_nat n * len / size) by (apply Z.div_pos; nia). lia.
    + assert (Z.of_nat n * len / size <= Z.of_nat (S n) * len / size)
        by (apply Z.div_le_mono; nia).
      lia.
Qed.

(** The chunks [0], ..., [k - 1] hold the first [min (k * step) n] rows. *)
Lemma chunks_prefix (F : Z -> list Z) n step :
  0 < step -> 0 <= n ->
  (forall i, 0 <= i < n ->
             F i = mpipaint.rows (i, Z.min (i + step) n)) ->
  forall k : nat,
  Z.of_nat k <= (n + step - 1) / step ->
  flat_map F (map (fun k => Z.of_nat k * step) (seq 0 k))
  = mpipaint.rows (0, Z.min (Z.of_nat k * step) n).
Proof.
  intros Hstep Hn HF. induction k as [| k IH]; intros Hk.
  - cbn [seq map flat_map]. change (Z.of_nat 0 * step) with 0.
    rewrite Z.min_l by lia. symmetry. apply rows_empty.
  - rewrite seq_S, map_app, flat_map_app, IH by lia.
    cbn [Nat.add map flat_map]. rewrite app_nil_r.
    assert (Hlt : Z.of_nat k * step < n).
    { assert (Hk1 : Z.of_nat k + 1 <= (n + step - 1) / step) by lia.
      pose proof (Z.div_mod (n + step - 1) step ltac:(lia)) as Hdm.
      pose proof (Z.mod_pos_bound (n + step - 1) step Hstep) as Hm.
      nia. }
    rewrite HF by nia.
    rewrite (Z.min_l (Z.of_nat k * step) n) by lia.
    replace (Z.of_nat k * step + step) with (Z.of_nat (S k) * step) by lia.
    apply rows_app. nia.
Qed.

(** X4. For a group of at least one rank, a positive chunk size and a
    block of [NumPartTotal] rows: the ranges that the ranks read, chunk
    after chunk and rank after rank, are the rows 0, 1, ...,
    [NumPartTotal - 1], each once and in order. *)
Theorem all_rows_once (NumPartTotal CHUNK_SIZE size : Z) :
  0 <= NumPartTotal -> 0 < CHUNK_SIZE -> 0 < size ->
  mpipaint.all_rows NumPartTotal CHUNK_SIZE size
  = mpipaint.rows (0, NumPartTotal).
Proof.
  intros HN HC Hsize. unfold mpipaint.all_rows, mpipaint.chunk_starts.
  set (step := size * CHUNK_SIZE).
  assert (Hstep : 0 < step) by (subst step; nia).
  set (cnt := (NumPartTotal + step - 1) / step).
  assert (Hcnt : 0 <= cnt) by (subst cnt; apply Z.div_pos; lia).
  rewrite (chunks_prefix _ NumPartTotal step Hstep HN).
  - f_equal. f_equal. rewrite Z2Nat.id by exact Hcnt.
    apply Z.min_r. subst cnt.
    pose proof (Z.div_mod (NumPartTotal + step - 1) step ltac:(lia)) as Hdm.
    pose proof (Z.mod_pos_bound (NumPartTotal + step - 1) step Hstep) as Hm.
    nia.
  - intros i Hi. unfold mpipaint.share, mpipaint.slice_indices.
    fold step.
    destruct (Z.ltb_spec i 0) as [Hneg | _]; [lia |].
    destruct (Z.ltb_spec (i + step) 0) as [Hneg | _]; [lia |].
    rewrite (Z.min_l i NumPartTotal) by lia.
    set (len := Z.min (i + step) NumPartTotal - i).
    assert (Hlen : 0 <= len) by (subst len; lia).
    rewrite (shares_prefix size len i Hsize Hlen (Z.to_nat size)).
    rewrite Z2Nat.id by lia.
    replace (size * len / size) with len
      by (rewrite (Z.mul_comm size len), Z.div_mul; lia).
    f_equal. f_equal. subst len. lia.
  - rewrite Z2Nat.id by exact Hcnt. subst cnt. lia.
Qed.

Lemma all_rows_once_witness :
  mpipaint.all_rows 10 2 3 = mpipaint.rows (0, 10).
Proof. apply (all_rows_once 10 2 3); lia. Defined.

(** * The rest of [src/domain.py] *)

(** ** The cell of a rank *)

Lemma product_from l : forall a, fold_left Z.mul l a = a * numpy.product l.
Proof.
  unfold numpy.product. induction l as [| m l IH]; intros a; cbn [fold_left].
  - lia.
  - rewrite (IH (a * m)), (IH (1 * m)). lia.
Qed.

Lemma product_cons m l : numpy.product (m :: l) = m * numpy.product l.
Proof.
  unfold numpy.product at 1. cbn [fold_left]. rewrite product_from. lia.
Qed.

Lemma product_positive l : Forall (fun m => 0 < m) l -> 0 < numpy.product l.
Proof.
  induction 1 as [| m l Hm _ IH]; [reflexivity |].
  rewrite product_cons. nia.
Qed.

Lemma ravel_false ds t :
  ravel ds false t
  = fold_left (fun acc db => acc * fst db + snd db) (combine ds t) 0.
Proof. reflexivity. Qed.

Lemma ravel_from shape : forall coords a,
  length coords = length shape ->
  fold_left (fun acc db => acc * fst db + snd db) (combine shape coords) a
  = a * numpy.product shape + ravel shape false coords.
Proof.
  induction shape as [| m shape IH]; intros coords a Hlen.
  - cbn. unfold numpy.product. cbn. lia.
  - destruct coords as [| c coords]; [discriminate |].
    cbn [length] in Hlen.
    rewrite ravel_false. cbn [combine fold_left fst snd].
    rewrite (IH coords (a * m + c)), (IH coords (0 * m + c)) by lia.
    rewrite product_cons. lia.
Qed.

Lemma ravel_cons m shape c coords :
  length coords = length shape ->
  ravel (m :: shape) false (c :: coords)
  = c * numpy.product shape + ravel shape false coords.
Proof.
  intros Hlen. rewrite ravel_false. cbn [combine fold_left fst snd].
  rewrite ravel_from by exact Hlen. lia.
Qed.

Lemma ravel_range shape coords :
  Forall (fun m => 0 < m) shape -> in_mesh shape coords ->
  0 <= ravel shape false coords < numpy.product shape.
Proof.
  intros Hpos H. induction H as [| m c shape coords Hc H IH].
  - cbn. unfold numpy.product. cbn. lia.
  - inversion Hpos as [| m' l' Hm Hrest]. subst m' l'.
    rewrite ravel_cons by (symmetry; exact (Forall2_length H)).
    rewrite product_cons. specialize (IH Hrest).
    pose proof (product_positive shape Hrest). nia.
Qed.

(** What [unravel] computes: mixed-radix digits and the quotient. *)
Lemma unravel_spec shape : forall index,
  Forall (fun m => 0 < m) shape -> 0 <= index ->
  in_mesh shape (fst (unravel shape index))
  /\ 0 <= snd (unravel shape index)
  /\ index = snd (unravel shape index) * numpy.product shape
             + ravel shape false (fst (unravel shape index)).
Proof.
  induction shape as [| m shape IH]; intros index Hpos Hidx.
  - cbn. unfold numpy.product, in_mesh. cbn. split; [constructor | lia].
  - inversion Hpos as [| m' l' Hm Hrest]. subst m' l'.
    destruct (IH index Hrest Hidx) as [Hin [Hval Heq]].
    cbn [unravel]. destruct (unravel shape index) as [coords val].
    cbn [fst snd] in *.
    pose proof (Z.mod_pos_bound val m Hm) as Hmod.
    pose proof (Z.div_mod val m ltac:(lia)) as Hdm.
    split; [constructor; [lia | exact Hin] |].
    split; [apply Z.div_pos; lia |].
    rewrite ravel_cons by (symmetry; exact (Forall2_length Hin)).
    rewrite product_cons. nia.
Qed.

Lemma unravel_ravel shape : forall coords v,
  Forall (fun m => 0 < m) shape -> in_mesh shape coords ->
  unravel shape (v * numpy.product shape + ravel shape false coords)
  = (coords, v).
Proof.
  induction shape as [| m shape IH]; intros coords v Hpos Hin.
  - inversion Hin. subst. cbn. unfold numpy.product. cbn. f_equal. lia.
  - inversion Hin as [| m' c shape' cs Hc Hrest]. subst m' shape' coords.
    inversion Hpos as [| m' l' Hm Hp]. subst m' l'.
    rewrite ravel_cons by (symmetry; exact (Forall2_length Hrest)).
    rewrite product_cons. cbn [unravel].
    replace (v * (m * numpy.product shape)
             + (c * numpy.product shape + ravel shape false cs))
      with ((v * m + c) * numpy.product shape + ravel shape false cs) by lia.
    rewrite (IH cs (v * m + c) Hp Hrest).
    f_equal.
    + f_equal. rewrite Z.add_comm, Z.mod_add by lia. apply Z.mod_small. lia.
    + rewrite Z.add_comm, Z.div_add by lia. rewrite Z.div_small by lia. lia.
Qed.

(** An index inside the mesh is the flat rank of its coordinates. *)
Lemma unravel_index_spec shape index coords :
  Forall (fun m => 0 < m) shape ->
  unravel_index index shape = Ok coords ->
  in_mesh shape coords /\ ravel shape false coords = index.
Proof.
  intros Hpos. unfold unravel_index.
  destruct (Z.leb_spec 0 index) as [H0 | _]; cbn [andb]; [| discriminate].
  destruct (Z.ltb_spec index (numpy.product shape)) as [Hlt | _];
    [| discriminate].
  intros H. inversion H as [Hc]. clear H.
  destruct (unravel_spec shape index Hpos H0) as [Hin [Hval Heq]].
  split; [exact Hin |].
  pose proof (ravel_range shape _ Hpos Hin) as Hr.
  assert (Hz : snd (unravel shape index) = 0) by nia.
  rewrite Hz in Heq. lia.
Qed.

Lemma mesh_dims edges :
  Forall well_formed_edges edges ->
  map (fun g => int32 (Z.of_nat (length g) - 1)) edges = mesh edges
  /\ Forall (fun m => 0 <= m) (mesh edges).
Proof.
  intros H. unfold mesh. split.
  - apply map_ext_in. intros e He. rewrite Forall_forall in H.
    destruct (H e He) as [_ [Hlen _]]. apply int32_small. lia.
  - apply Forall_map. revert H. apply Forall_impl.
    intros e [_ [Hlen _]]. lia.
Qed.

Lemma positive_extents l :
  Forall (fun m => 0 <= m) l -> 0 < numpy.product l ->
  Forall (fun m => 0 < m) l.
Proof.
  induction 1 as [| m l Hm _ IH]; intros Hp; [constructor |].
  rewrite product_cons in Hp.
  assert (Hm' : 0 < m).
  { destruct (Z.eq_dec m 0) as [-> | Hne]; [| lia].
    rewrite Z.mul_0_l in Hp. lia. }
  constructor; [exact Hm' |]. apply IH.
  now apply (Z.mul_pos_cancel_l m).
Qed.

Lemma nondecreasing_step e : forall i a b,
  numpy.nondecreasing e = true ->
  nth_error e i = Some a -> nth_error e (S i) = Some b -> (a <= b)%Q.
Proof.
  induction e as [| x e IH]; intros i a b Hmono Ha Hb.
  - destruct i; discriminate.
  - destruct i as [| i].
    + destruct e as [| y e]; [discriminate |].
      cbn in Ha, Hb. inversion Ha. inversion Hb. subst.
      cbn in Hmono. apply andb_true_iff in Hmono.
      apply Qle_bool_iff. apply Hmono.
    + apply (IH i a b (nondecreasing_tail _ _ Hmono) Ha Hb).
Qed.

Lemma in_mesh_edges edges : forall coords,
  in_mesh (mesh edges) coords ->
  Forall2 (fun e c => 0 <= c < Z.of_nat (length e) - 1) edges coords.
Proof.
  unfold in_mesh, mesh. induction edges as [| e edges IH]; intros coords H;
    inversion H; subst; constructor; auto.
Qed.

(** The attributes of a rank inside the mesh, written out. *)
Lemma GridND_init_rank_ok edges size per rank :
  Forall well_formed_edges edges ->
  Z.of_nat size = numpy.product (mesh edges) ->
  (rank < size)%nat ->
  let coords := fst (unravel (mesh edges) (Z.of_nat rank)) in
  GridND_init_rank edges size per rank
  = Ok (mkGridND (mesh edges) edges per size,
        mkcell coords
               (map (fun gr => nth (Z.to_nat (snd gr)) (fst gr) 0%Q)
                    (combine edges coords))
               (map (fun gr => nth (S (Z.to_nat (snd gr))) (fst gr) 0%Q)
                    (combine edges coords)))
  /\ in_mesh (mesh edges) coords
  /\ ravel (mesh edges) false coords = Z.of_nat rank.
Proof.
  intros Hwf Hsize Hrank coords.
  destruct (mesh_dims edges Hwf) as [Hdims Hnn].
  assert (Hpos : Forall (fun m => 0 < m) (mesh edges))
    by (apply positive_extents; [exact Hnn | lia]).
  assert (Hun : unravel_index (Z.of_nat rank) (mesh edges) = Ok coords).
  { unfold unravel_index.
    destruct (Z.leb_spec 0 (Z.of_nat rank)); [| lia].
    destruct (Z.ltb_spec (Z.of_nat rank) (numpy.product (mesh edges)));
      [reflexivity | lia]. }
  destruct (unravel_index_spec _ _ _ Hpos Hun) as [Hin Hrav].
  split; [| split; assumption].
  unfold GridND_init_rank, GridND_init, assert.
  rewrite Hdims, Hsize, Z.eqb_refl. cbn [bind dims]. rewrite Hun.
  cbn [bind].
  assert (Hbound : forall e c, In (e, c) (combine edges coords) ->
            0 <= c < Z.of_nat (length e) - 1).
  { intros e c Hec.
    pose proof (in_mesh_edges edges coords Hin) as H2.
    exact (Forall2_In_combine _ _ _ _ _ H2 Hec). }
  rewrite (mapM_pure _ (fun gr => nth (Z.to_nat (snd gr)) (fst gr) 0%Q)).
  2:{ intros [e c] Hec. cbn [fst snd]. specialize (Hbound e c Hec).
      unfold getitem. rewrite <- (Z2Nat.id c) at 1 by lia.
      apply take1_at. apply nth_error_nth'. lia. }
  cbn [bind].
  rewrite (mapM_pure _ (fun gr => nth (S (Z.to_nat (snd gr))) (fst gr) 0%Q)).
  2:{ intros [e c] Hec. cbn [fst snd]. specialize (Hbound e c Hec).
      unfold getitem.
      replace (c + 1) with (Z.of_nat (S (Z.to_nat c))) by lia.
      apply take1_at. apply nth_error_nth'. lia. }
  reflexivity.
Qed.

Lemma nth_map_combine {T U V : Type} (F : T * U -> V) (l1 : list T)
    (l2 : list U) j d1 d2 d :
  (j < length l1)%nat -> length l1 = length l2 ->
  nth j (map F (combine l1 l2)) d = F (nth j l1 d1, nth j l2 d2).
Proof.
  intros Hj Hlen.
  rewrite (nth_indep _ d (F (d1, d2)))
    by (rewrite length_map, length_combine; lia).
  rewrite (map_nth F). now rewrite combine_nth.
Qed.

(** X5. On a grid of well-formed edge vectors whose mesh has as many
    cells as the group has ranks, [GridND.__init__] succeeds on every
    rank: the coordinates [myrank] name a cell of the mesh in every
    dimension, and [mystart] and [myend] are the lower and the upper edge
    of that cell, in this order. The grid it builds is well formed. *)
Theorem rank_owns_cell (edges : list (list Q)) (size : nat) (per : bool)
    (rank : nat) :
  Forall well_formed_edges edges ->
  Z.of_nat size = numpy.product (mesh edges) ->
  (rank < size)%nat ->
  exists g c,
    GridND_init_rank edges size per rank = Ok (g, c)
    /\ well_formed_grid g
    /\ length (myrank c) = length edges
    /\ length (mystart c) = length edges
    /\ length (myend c) = length edges
    /\ forall j, (j < length edges)%nat ->
         cell_of (nth j edges []) (nth j (myrank c) 0)
                 (nth j (mystart c) 0%Q) (nth j (myend c) 0%Q).
Proof.
  intros Hwf Hsize Hrank.
  destruct (GridND_init_rank_ok edges size per rank Hwf Hsize Hrank)
    as [Hinit [Hin _]].
  set (coords := fst (unravel (mesh edges) (Z.of_nat rank))) in *.
  pose proof (in_mesh_edges edges coords Hin) as H2.
  pose proof (Forall2_length H2) as Hlen.
  eexists. eexists. split; [exact Hinit |].
  cbn [myrank mystart myend].
  split; [| split; [| split; [| split]]].
  - split; [| exact Hwf]. cbn [dims grid].
    symmetry. apply (mesh_dims edges Hwf).
  - lia.
  - rewrite length_map, length_combine. lia.
  - rewrite length_map, length_combine. lia.
  - intros j Hj.
    rewrite !(nth_map_combine _ edges coords j [] 0) by assumption.
    cbn [fst snd].
    pose proof (Forall2_nth _ edges coords j [] 0 H2 Hj) as Hc.
    cbn beta in Hc.
    set (e := nth j edges []) in *. set (c := nth j coords 0) in *.
    assert (He : well_formed_edges e).
    { rewrite Forall_forall in Hwf. apply Hwf. now apply nth_In. }
    assert (Ha : nth_error e (Z.to_nat c) = Some (nth (Z.to_nat c) e 0%Q))
      by (apply nth_error_nth'; lia).
    assert (Hb : nth_error e (S (Z.to_nat c))
                 = Some (nth (S (Z.to_nat c)) e 0%Q))
      by (apply nth_error_nth'; lia).
    repeat split; try lia; try assumption.
    destruct He as [Hmono _].
    exact (nondecreasing_step e _ _ _ Hmono Ha Hb).
Qed.

Lemma rank_owns_cell_witness :
  exists g c,
    GridND_init_rank [[0; 1; 2]%Q; [0; 2; 4; 6]%Q] 6 false 4 = Ok (g, c)
    /\ well_formed_grid g
    /\ length (myrank c) = 2%nat
    /\ length (mystart c) = 2%nat
    /\ length (myend c) = 2%nat
    /\ forall j, (j < 2)%nat ->
         cell_of (nth j [[0; 1; 2]%Q; [0; 2; 4; 6]%Q] [])
                 (nth j (myrank c) 0)
                 (nth j (mystart c) 0%Q) (nth j (myend c) 0%Q).
Proof.
  apply (rank_owns_cell [[0; 1; 2]%Q; [0; 2; 4; 6]%Q] 6 false 4).
  - repeat constructor; simpl; try lia; discriminate.
  - reflexivity.
  - lia.
Defined.

(** X6. Under the same conditions the ranks of the group and the cells
    of the mesh correspond one to one: two ranks with the same [myrank]
    are the same rank, and every cell of the mesh is the [myrank] of a
    rank of the group. *)
Theorem ranks_tile_mesh (edges : list (list Q)) (size : nat) (per : bool) :
  Forall well_formed_edges edges ->
  Z.of_nat size = numpy.product (mesh edges) ->
  (forall r1 r2 g1 c1 g2 c2,
     (r1 < size)%nat -> (r2 < size)%nat ->
     GridND_init_rank edges size per r1 = Ok (g1, c1) ->
     GridND_init_rank edges size per r2 = Ok (g2, c2) ->
     myrank c1 = myrank c2 -> r1 = r2)
  /\ (forall coords,
        in_mesh (mesh edges) coords ->
        exists rank g c,
          (rank < size)%nat
          /\ GridND_init_rank edges size per rank = Ok (g, c)
          /\ myrank c = coords).
Proof.
  intros Hwf Hsize. split.
  - intros r1 r2 g1 c1 g2 c2 Hr1 Hr2 H1 H2 Heq.
    destruct (GridND_init_rank_ok edges size per r1 Hwf Hsize Hr1)
      as [Hi1 [_ Hv1]].
    destruct (GridND_init_rank_ok edges size per r2 Hwf Hsize Hr2)
      as [Hi2 [_ Hv2]].
    rewrite Hi1 in H1. rewrite Hi2 in H2.
    inversion H1 as [[Hg1 Hc1]]. inversion H2 as [[Hg2 Hc2]].
    subst c1 c2. cbn [myrank] in Heq. rewrite Heq in Hv1. lia.
  - intros coords Hin.
    destruct (mesh_dims edges Hwf) as [_ Hnn].
    assert (Hsz : 0 < numpy.product (mesh edges)).
    { destruct (Z.eq_dec (numpy.product (mesh edges)) 0) as [Hz | Hnz].
      - exfalso. clear - Hin Hz Hnn. revert Hz.
        induction Hin as [| m c ms cs Hc _ IH]; intros Hz.
        + discriminate.
        + rewrite product_cons in Hz. inversion Hnn. subst.
          apply Z.eq_mul_0 in Hz. destruct Hz as [Hz | Hz]; [lia | auto].
      - lia. }
    assert (Hpos : Forall (fun m => 0 < m) (mesh edges))
      by (now apply positive_extents).
    pose proof (ravel_range _ _ Hpos Hin) as Hr.
    set (rank := Z.to_nat (ravel (mesh edges) false coords)).
    assert (Hrank : (rank < size)%nat) by (subst rank; lia).
    destruct (GridND_init_rank_ok edges size per rank Hwf Hsize Hrank)
      as [Hinit _].
    eexists rank, _, _. split; [exact Hrank |]. split; [exact Hinit |].
    cbn [myrank]. subst rank. rewrite Z2Nat.id by lia.
    pose proof (unravel_ravel (mesh edges) coords 0 Hpos Hin) as Hu.
    rewrite Z.mul_0_l, Z.add_0_l in Hu. now rewrite Hu.
Qed.

Lemma ranks_tile_mesh_witness :
  let edges := [[0; 1; 2]%Q; [0; 2; 4; 6]%Q] in
  (forall r1 r2 g1 c1 g2 c2,
     (r1 < 6)%nat -> (r2 < 6)%nat ->
     GridND_init_rank edges 6 false r1 = Ok (g1, c1) ->
     GridND_init_rank edges 6 false r2 = Ok (g2, c2) ->
     myrank c1 = myrank c2 -> r1 = r2)
  /\ (forall coords,
        in_mesh (mesh edges) coords ->
        exists rank g c,
          (rank < 6)%nat
          /\ GridND_init_rank edges 6 false rank = Ok (g, c)
          /\ myrank c = coords).
Proof.
  intros edges. apply (ranks_tile_mesh edges 6 false).
  - repeat constructor; simpl; try lia; discriminate.
  - reflexivity.
Defined.

(** ** The bin bounds of [decompose] *)

Lemma searchsorted_mono a x y :
  (x <= y)%Q -> numpy.searchsorted a x <= numpy.searchsorted a y.
Proof.
  intros Hxy. induction a as [| e t IH]; cbn [numpy.searchsorted]; [lia |].
  destruct (Qle_bool e x) eqn:Hx.
  - apply Qle_bool_iff in Hx.
    assert (Hy : Qle_bool e y = true)
      by (apply Qle_bool_iff; eapply Qle_trans; eassumption).
    rewrite Hy. lia.
  - pose proof (searchsorted_range t y). destruct (Qle_bool e y); lia.
Qed.

Lemma nondecreasing_head e t x :
  numpy.nondecreasing (e :: t) = true -> In x t -> (e <= x)%Q.
Proof.
  revert e. induction t as [| y t IH]; intros e Hmono Hin; [contradiction |].
  cbn in Hmono. apply andb_true_iff in Hmono. destruct Hmono as [Hey Hm].
  apply Qle_bool_iff in Hey. destruct Hin as [-> | Hin]; [exact Hey |].
  eapply Qle_trans; [exact Hey |]. now apply IH.
Qed.

(** On sorted edges the index counts the edges that are at most [x]. *)
Lemma searchsorted_iff a : forall i e x,
  numpy.nondecreasing a = true -> nth_error a i = Some e ->
  (Z.of_nat i < numpy.searchsorted a x <-> (e <= x)%Q).
Proof.
  induction a as [| e0 t IH]; intros i e x Hmono He.
  - destruct i; discriminate.
  - cbn [numpy.searchsorted]. destruct i as [| i].
    + cbn in He. inversion He. subst e0.
      pose proof (searchsorted_range t x).
      destruct (Qle_bool e x) eqn:Hx.
      * apply Qle_bool_iff in Hx. split; [auto | lia].
      * split; [lia |]. intros Hle. apply Qle_bool_iff in Hle. congruence.
    + cbn in He. destruct (Qle_bool e0 x) eqn:Hx.
      * rewrite <- (IH i e x (nondecreasing_tail _ _ Hmono) He). lia.
      * split; [lia |]. intros Hle. exfalso.
        assert (H0 : (e0 <= e)%Q)
          by (apply (nondecreasing_head e0 t e Hmono);
              eapply nth_error_In; eassumption).
        assert (Hc : Qle_bool e0 x = true)
          by (apply Qle_bool_iff; eapply Qle_trans; eassumption).
        congruence.
Qed.

Lemma last_edge_last edges :
  edges <> [] -> last_edge edges = Ok (last edges 0%Q).
Proof.
  intros Hne. unfold last_edge.
  destruct (exists_last Hne) as [l [e ->]].
  now rewrite rev_app_distr, last_last.
Qed.

Lemma combine_map_l {T U V : Type} (f : T -> U) (l : list T) (m : list V) :
  combine (map f l) m = map (fun p => (f (fst p), snd p)) (combine l m).
Proof.
  revert m. induction l as [| x l IH]; intros [| y m]; try reflexivity.
  cbn. now rewrite IH.
Qed.

(** The rows [sil[j]] and [sir[j]], particle by particle. *)
Lemma bin_bounds_rows (g : GridND) pos s j edges sml :
  well_formed_grid g -> well_formed_batch g pos ->
  nth_error (grid g) j = Some edges ->
  broadcast (length pos) s = Ok sml ->
  let dim := Z.of_nat (length edges) - 1 in
  let post := fun a => if periodic g then a
                       else int16 (numpy.clip a 0 dim) in
  let col := map (fun row => nth j row 0%Q) pos in
  bin_bounds g pos s j
  = Ok (map (fun xr =>
               post (int16 (numpy.searchsorted edges
                              (binned (periodic g) edges (fst xr) - snd xr)
                            - 1)))
            (combine col sml),
        map (fun xr =>
               post (int16 (numpy.searchsorted edges
                              (binned (periodic g) edges (fst xr) + snd xr))))
            (combine col sml)).
Proof.
  intros Hg Hpos He Hsml dim post col.
  destruct (well_formed_dim g j edges Hg He) as [Hdim [Hnth [Hwf Hj]]].
  destruct Hwf as [Hmono [Hlen _]].
  unfold bin_bounds. rewrite (column_ok g pos j Hpos Hj). cbn [bind].
  rewrite Hnth, Hdim. fold col. fold dim.
  assert (Hne : edges <> []) by (destruct edges; [simpl in Hlen; lia | discriminate]).
  assert (Hz : forall (f : Q -> Q -> Q) tmp,
             map (numpy.digitize1 edges) (zip_with f tmp sml)
             = map (fun p => numpy.searchsorted edges (f (fst p) (snd p)))
                   (combine tmp sml)).
  { intros f tmp. unfold zip_with. rewrite map_map. apply map_ext.
    intros p. now apply digitize1_nondecreasing. }
  destruct (periodic g) eqn:Hper.
  - rewrite (last_edge_last edges Hne). cbn [bind]. rewrite Hsml. cbn [bind].
    rewrite !(digitize_nondecreasing _ _ Hmono). cbn [bind].
    rewrite !Hz, !combine_map_l, !map_map. cbn [fst snd]. subst post.
    unfold binned. reflexivity.
  - cbn [bind]. rewrite Hsml. cbn [bind].
    rewrite !(digitize_nondecreasing _ _ Hmono). cbn [bind].
    rewrite !Hz, !map_map. subst post. unfold binned. reflexivity.
Qed.

Lemma support_indices edges lo hi :
  (lo <= hi)%Q ->
  0 <= numpy.searchsorted edges lo <= numpy.searchsorted edges hi
  /\ numpy.searchsorted edges hi <= Z.of_nat (length edges).
Proof.
  intros H. pose proof (searchsorted_range edges lo).
  pose proof (searchsorted_range edges hi).
  pose proof (searchsorted_mono edges lo hi H). lia.
Qed.

Lemma support_ordered (t r : Q) : (0 <= r)%Q -> (t - r <= t + r)%Q.
Proof.
  intros Hr. apply Qle_minus_iff.
  setoid_replace (t + r + - (t - r))%Q with (r + r)%Q by ring.
  change 0%Q with (0 + 0)%Q. now apply Qplus_le_compat.
Qed.

Lemma in_combine_nonneg (col sml : list Q) x r :
  Forall (fun r => (0 <= r)%Q) sml -> In (x, r) (combine col sml) ->
  (0 <= r)%Q.
Proof.
  intros H Hin. rewrite Forall_forall in H. apply H.
  eapply in_combine_r. eassumption.
Qed.

Lemma broadcast_length n s sml :
  broadcast n s = Ok sml -> length sml = n.
Proof.
  unfold broadcast. destruct s as [r | rs].
  - intros H. inversion H. apply repeat_length.
  - destruct rs as [| r [| r' rs]].
    + destruct (Nat.eqb_spec (length (@nil Q)) n) as [Heq | Hne];
        intros H; inversion H. exact Heq.
    + intros H. inversion H. apply repeat_length.
    + destruct (Nat.eqb_spec (length (r :: r' :: rs)) n) as [Heq | Hne];
        intros H; inversion H. subst sml. exact Heq.
Qed.

(** X7. On a grid that is not periodic, for radii that are not negative:
    in every dimension the clamped bin bounds of every particle satisfy
    [0 <= sil <= sir <= dim], so the kernel never addresses a cell
    outside the mesh. *)
Theorem clamped_bounds_in_mesh (g : GridND) pos s sml j edges :
  periodic g = false ->
  well_formed_grid g -> well_formed_batch g pos ->
  nth_error (grid g) j = Some edges ->
  broadcast (length pos) s = Ok sml ->
  Forall (fun r => (0 <= r)%Q) sml ->
  exists sil sir,
    bin_bounds g pos s j = Ok (sil, sir)
    /\ length sil = length pos
    /\ Forall2 (fun a b => 0 <= a <= b
                            /\ b <= Z.of_nat (length edges) - 1)
               sil sir.
Proof.
  intros Hper Hg Hpos He Hsml Hnn.
  pose proof (bin_bounds_rows g pos s j edges sml Hg Hpos He Hsml) as Hrows.
  cbv zeta in Hrows. rewrite Hper in Hrows.
  destruct (well_formed_dim g j edges Hg He) as [_ [_ [[_ [Hlen _]] _]]].
  eexists. eexists. split; [exact Hrows |]. split.
  - rewrite length_map, length_combine, length_map.
    pose proof (broadcast_length _ _ _ Hsml).
    lia.
  - apply Forall2_map_same. intros [x r] Hin. cbn [fst snd binned].
    pose proof (in_combine_nonneg _ _ _ _ Hnn Hin) as Hr.
    destruct (support_indices edges (x - r) (x + r) (support_ordered x r Hr))
      as [H1 H2].
    rewrite (int16_small (numpy.searchsorted edges (x - r) - 1)) by lia.
    rewrite (int16_small (numpy.searchsorted edges (x + r))) by lia.
    unfold numpy.clip. rewrite !int16_small by lia. lia.
Qed.

Lemma clamped_bounds_in_mesh_witness :
  exists sil sir,
    (do g <- grid3 false;
     bin_bounds g [[0.5%Q]; [2.9%Q]; [7%Q]] (Uniform 0.2%Q) 0)
    = Ok (sil, sir)
    /\ length sil = 3%nat
    /\ Forall2 (fun a b => 0 <= a <= b /\ b <= 4 - 1) sil sir.
Proof.
  change (grid3 false)
    with (Ok (mkGridND [3] [[0; 1; 2; 3]%Q] false 3)).
  cbn [bind].
  apply (clamped_bounds_in_mesh (mkGridND [3] [[0; 1; 2; 3]%Q] false 3)
           [[0.5%Q]; [2.9%Q]; [7%Q]] (Uniform 0.2%Q)
           (repeat 0.2%Q 3) 0 [0; 1; 2; 3]%Q).
  - reflexivity.
  - split; [reflexivity |]. repeat constructor; simpl; try lia; discriminate.
  - repeat constructor.
  - reflexivity.
  - reflexivity.
  - repeat constructor; discriminate.
Defined.

(** X8. On a periodic grid, for radii that are not negative: in every
    dimension the bin bounds of every particle satisfy
    [-1 <= sil < sir <= dim + 1], so every particle has at least one bin
    in every dimension, and only the bins -1 and [dim] lie outside the
    mesh, next to it. *)
Theorem periodic_bounds_nonempty (g : GridND) pos s sml j edges :
  periodic g = true ->
  well_formed_grid g -> well_formed_batch g pos ->
  nth_error (grid g) j = Some edges ->
  broadcast (length pos) s = Ok sml ->
  Forall (fun r => (0 <= r)%Q) sml ->
  exists sil sir,
    bin_bounds g pos s j = Ok (sil, sir)
    /\ length sil = length pos
    /\ Forall2 (fun a b => -1 <= a < b /\ b <= Z.of_nat (length edges))
               sil sir.
Proof.
  intros Hper Hg Hpos He Hsml Hnn.
  pose proof (bin_bounds_rows g pos s j edges sml Hg Hpos He Hsml) as Hrows.
  cbv zeta in Hrows. rewrite Hper in Hrows.
  destruct (well_formed_dim g j edges Hg He) as [_ [_ [[_ [Hlen _]] _]]].
  eexists. eexists. split; [exact Hrows |]. split.
  - rewrite length_map, length_combine, length_map.
    pose proof (broadcast_length _ _ _ Hsml). lia.
  - apply Forall2_map_same. intros [x r] Hin. cbn [fst snd].
    pose proof (in_combine_nonneg _ _ _ _ Hnn Hin) as Hr.
    set (t := binned true edges x).
    destruct (support_indices edges (t - r) (t + r) (support_ordered t r Hr))
      as [H1 H2].
    rewrite (int16_small (numpy.searchsorted edges (t - r) - 1)) by lia.
    rewrite (int16_small (numpy.searchsorted edges (t + r))) by lia.
    lia.
Qed.

Lemma periodic_bounds_nonempty_witness :
  exists sil sir,
    (do g <- grid3 true;
     bin_bounds g [[0.5%Q]; [2.9%Q]; [7%Q]] (Uniform 0.2%Q) 0)
    = Ok (sil, sir)
    /\ length sil = 3%nat
    /\ Forall2 (fun a b => -1 <= a < b /\ b <= 4) sil sir.
Proof.
  change (grid3 true)
    with (Ok (mkGridND [3] [[0; 1; 2; 3]%Q] true 3)).
  cbn [bind].
  apply (periodic_bounds_nonempty (mkGridND [3] [[0; 1; 2; 3]%Q] true 3)
           [[0.5%Q]; [2.9%Q]; [7%Q]] (Uniform 0.2%Q)
           (repeat 0.2%Q 3) 0 [0; 1; 2; 3]%Q).
  - reflexivity.
  - split; [reflexivity |]. repeat constructor; simpl; try lia; discriminate.
  - repeat constructor.
  - reflexivity.
  - reflexivity.
  - repeat constructor; discriminate.
Defined.

(** X9. On a grid that is not periodic: the cell [k] of the mesh that
    contains the coordinate of a particle lies in the bin range
    [sil, sir) of the particle, whatever its support radius (not
    negative); with support radius 0 the bin range holds that cell and no
    other, so no cell at all for a particle outside the domain. This is
    the rule of the docstring: a particle that intersects a domain is
    transported to it. *)
Theorem bins_meet_support (g : GridND) pos s sml j edges i row x r k :
  well_formed_grid g -> well_formed_batch g pos -> periodic g = false ->
  nth_error (grid g) j = Some edges ->
  broadcast (length pos) s = Ok sml ->
  nth_error pos i = Some row -> nth_error row j = Some x ->
  nth_error sml i = Some r -> (0 <= r)%Q ->
  (S k < length edges)%nat ->
  exists sil sir a b,
    bin_bounds g pos s j = Ok (sil, sir)
    /\ nth_error sil i = Some a
    /\ nth_error sir i = Some b
    /\ (meets edges k x x -> a <= Z.of_nat k < b)
    /\ ((r == 0)%Q -> a <= Z.of_nat k < b -> meets edges k x x).
Proof.
  intros Hg Hpos Hper He Hsml Hrow Hx Hr Hr0 Hk.
  pose proof (bin_bounds_rows g pos s j edges sml Hg Hpos He Hsml) as Hrows.
  cbv zeta in Hrows. rewrite Hper in Hrows. unfold binned in Hrows.
  destruct (well_formed_dim g j edges Hg He) as [_ [_ [[Hmono [Hlen _]] _]]].
  assert (Hxr : nth_error (combine (map (fun row => nth j row 0%Q) pos) sml) i
                = Some (x, r)).
  { apply nth_error_combine. split; [| exact Hr].
    exact (nth_error_column pos i j row x Hrow Hx). }
  pose proof (searchsorted_range edges (x - r)) as R1.
  pose proof (searchsorted_range edges (x + r)) as R2.
  assert (Hlo : Z.of_nat (S k) < numpy.searchsorted edges (x - r)
                <-> (nth (S k) edges 0 <= x - r)%Q)
    by (apply searchsorted_iff; [exact Hmono | apply nth_error_nth'; lia]).
  assert (Hhi : Z.of_nat k < numpy.searchsorted edges (x + r)
                <-> (nth k edges 0 <= x + r)%Q)
    by (apply searchsorted_iff; [exact Hmono | apply nth_error_nth'; lia]).
  assert (Hmeet : numpy.searchsorted edges (x - r) - 1 <= Z.of_nat k
                  /\ Z.of_nat k < numpy.searchsorted edges (x + r)
                  <-> meets edges k (x - r) (x + r)).
  { unfold meets. rewrite <- Hhi. split.
    - intros [H1 H2]. split; [exact H2 |].
      apply Qnot_le_lt. intros Hc. apply Hlo in Hc. lia.
    - intros [H1 H2]. split; [| exact H1].
      destruct (Z_lt_le_dec (Z.of_nat (S k)) (numpy.searchsorted edges (x - r)))
        as [Hc | Hc]; [| lia].
      apply Hlo in Hc. exfalso. exact (Qlt_not_le _ _ H2 Hc). }
  eexists. eexists. eexists. eexists.
  split; [exact Hrows |].
  split; [exact (map_nth_error _ _ _ Hxr) |].
  split; [exact (map_nth_error _ _ _ Hxr) |].
  cbn [fst snd].
  rewrite (int16_small (numpy.searchsorted edges (x - r) - 1)) by lia.
  rewrite (int16_small (numpy.searchsorted edges (x + r))) by lia.
  unfold numpy.clip. rewrite !int16_small by lia.
  split.
  - intros [H1 H2].
    assert (Hm : meets edges k (x - r) (x + r)).
    { split.
      - apply (Qle_trans _ x); [exact H1 |].
        rewrite <- (Qplus_0_r x) at 1. apply Qplus_le_r. exact Hr0.
      - apply (Qle_lt_trans _ x); [| exact H2].
        rewrite <- (Qplus_0_r x) at 2. unfold Qminus.
        apply Qplus_le_r. apply (Qopp_le_compat 0 r). exact Hr0. }
    apply Hmeet in Hm. lia.
  - intros Hz Hab.
    assert (Hm : meets edges k (x - r) (x + r)) by (apply Hmeet; lia).
    destruct Hm as [H1 H2]. split.
    + rewrite Hz, Qplus_0_r in H1. exact H1.
    + assert (Hx0 : (x - r == x)%Q) by (rewrite Hz; ring).
      rewrite Hx0 in H2. exact H2.
Qed.

Lemma bins_meet_support_witness :
  exists sil sir a b,
    bin_bounds (mkGridND [3] [[0; 1; 2; 3]%Q] false 3)
               [[0.5%Q]; [1.9%Q]] (Uniform 0%Q) 0 = Ok (sil, sir)
    /\ nth_error sil 1 = Some a
    /\ nth_error sir 1 = Some b
    /\ (meets [0; 1; 2; 3]%Q 1 1.9%Q 1.9%Q -> a <= Z.of_nat 1 < b)
    /\ ((0 == 0)%Q -> a <= Z.of_nat 1 < b
        -> meets [0; 1; 2; 3]%Q 1 1.9%Q 1.9%Q).
Proof.
  apply (bins_meet_support (mkGridND [3] [[0; 1; 2; 3]%Q] false 3)
           [[0.5%Q]; [1.9%Q]] (Uniform 0%Q) (repeat 0%Q 2) 0
           [0; 1; 2; 3]%Q 1 [1.9%Q] 1.9%Q 0%Q 1).
  - split; [reflexivity |]. repeat constructor; simpl; try lia; discriminate.
  - repeat constructor.
  - reflexivity.
  - reflexivity.
  - reflexivity.
  - reflexivity.
  - reflexivity.
  - reflexivity.
  - discriminate.
  - simpl. lia.
Defined.

(** ** The errors of [decompose] *)

Lemma broadcast_cases n s :
  (broadcasts n s -> exists sml, broadcast n s = Ok sml)
  /\ (~ broadcasts n s -> broadcast n s = Raise ValueError).
Proof.
  unfold broadcasts, broadcast. destruct s as [r | rs].
  - split; [eauto | tauto].
  - destruct rs as [| r [| r' rs]].
    + destruct (Nat.eqb_spec (length (@nil Q)) n) as [Heq | Hne].
      * split; [eauto | tauto].
      * split; [| reflexivity]. intros [H | H]; [discriminate | tauto].
    + split; [eauto |]. intros H. exfalso. apply H. now left.
    + destruct (Nat.eqb_spec (length (r :: r' :: rs)) n) as [Heq | Hne].
      * split; [eauto | tauto].
      * split; [| reflexivity]. intros [H | H]; [discriminate | tauto].
Qed.

Lemma mapM_total {T U : Type} (f : T -> outcome U) (P : T -> U -> Prop)
    (l : list T) :
  (forall x, In x l -> exists y, f x = Ok y /\ P x y) ->
  exists ys, mapM f l = Ok ys /\ Forall2 P l ys.
Proof.
  induction l as [| x l IH]; intros H.
  - exists []. split; [reflexivity | constructor].
  - destruct (H x (or_introl eq_refl)) as [y [Hy Hp]].
    destruct IH as [ys [Hys Hall]]; [intros z Hz; apply H; now right |].
    exists (y :: ys). cbn [mapM]. rewrite Hy. cbn [bind]. rewrite Hys.
    split; [reflexivity | now constructor].
Qed.

(** X10. On a well-formed grid of at least one dimension, for a
    well-formed batch that is not empty and holds fewer than 2^31
    particles: the loop of [decompose] over the dimensions computes the
    rows of bin bounds when the support radii broadcast against the batch
    (a scalar, one value, or one value per particle); when they do not,
    [decompose] raises [ValueError] before it reaches the kernel. *)
Theorem decompose_fails_only_on_radii (g : GridND) pos s :
  well_formed_grid g -> dims g <> [] ->
  well_formed_batch g pos -> pos <> [] ->
  Z.of_nat (length pos) < 2147483648 ->
  (broadcasts (length pos) s ->
   exists bounds,
     mapM (bin_bounds g pos s) (seq 0 (length (dims g))) = Ok bounds
     /\ length bounds = length (dims g))
  /\ (~ broadcasts (length pos) s ->
      decompose_local g pos s = Raise ValueError).
Proof.
  intros Hg Hdims Hpos Hne Hlen.
  assert (Hgl : length (dims g) = length (grid g)).
  { destruct Hg as [Hd _]. rewrite Hd. apply length_map. }
  destruct (broadcast_cases (length pos) s) as [Hyes Hno].
  split.
  - intros Hb. destruct (Hyes Hb) as [sml Hsml].
    destruct (mapM_total (bin_bounds g pos s) (fun _ _ => True)
                (seq 0 (length (dims g)))) as [bounds [Hm Hall]].
    { intros j Hj. apply in_seq in Hj.
      destruct (nth_error (grid g) j) as [edges |] eqn:He;
        [| apply nth_error_None in He; lia].
      eexists. split; [| exact I].
      exact (bin_bounds_rows g pos s j edges sml Hg Hpos He Hsml). }
    exists bounds. split; [exact Hm |].
    rewrite <- (Forall2_length Hall). apply length_seq.
  - intros Hb. specialize (Hno Hb).
    rewrite (decompose_local_small g pos s Hlen). unfold assign.
    destruct (Nat.eqb_spec (length pos) 0) as [Hz | _].
    { apply length_zero_iff_nil in Hz. contradiction. }
    destruct (dims g) as [| d ds] eqn:Hd; [contradiction |].
    cbn [length seq mapM].
    assert (H0 : bin_bounds g pos s 0 = Raise ValueError).
    { destruct (nth_error (grid g) 0) as [edges |] eqn:He;
        [| apply nth_error_None in He; rewrite <- Hgl in He;
           simpl in He; lia].
      destruct (well_formed_dim g 0 edges Hg He) as [_ [Hnth [[_ [Hl _]] Hj]]].
      unfold bin_bounds. rewrite (column_ok g pos 0 Hpos Hj). cbn [bind].
      rewrite Hnth.
      assert (Hedges : edges <> [])
        by (destruct edges; [simpl in Hl; lia | discriminate]).
      rewrite (last_edge_last edges Hedges).
      destruct (periodic g); cbn [bind]; rewrite Hno; reflexivity. }
    rewrite H0. reflexivity.
Qed.

Lemma decompose_fails_only_on_radii_witness :
  let g := mkGridND [3] [[0; 1; 2; 3]%Q] true 3 in
  let pos := [[0.5%Q]; [2.9%Q]] in
  (exists bounds,
     mapM (bin_bounds g pos (PerParticle [0.1%Q; 0.2%Q]))
          (seq 0 (length (dims g))) = Ok bounds
     /\ length bounds = length (dims g))
  /\ decompose_local g pos (PerParticle [0.1%Q; 0.2%Q; 0.3%Q])
     = Raise ValueError.
Proof.
  intros g pos.
  assert (Hg : well_formed_grid g)
    by (split; [reflexivity |];
        repeat constructor; simpl; try lia; discriminate).
  assert (Hpos : well_formed_batch g pos) by (repeat constructor).
  split.
  - apply (proj1 (decompose_fails_only_on_radii g pos
                    (PerParticle [0.1%Q; 0.2%Q]) Hg ltac:(discriminate)
                    Hpos ltac:(discriminate) ltac:(simpl; lia))).
    right. reflexivity.
  - apply (proj2 (decompose_fails_only_on_radii g pos
                    (PerParticle [0.1%Q; 0.2%Q; 0.3%Q]) Hg
                    ltac:(discriminate) Hpos ltac:(discriminate)
                    ltac:(simpl; lia))).
    intros [H | H]; discriminate.
Defined.

(** ** The constructor of [Layout] *)

Lemma assign_tail_total (n : nat) src :
  length src = pred n -> exists off, assign_tail n src = Ok off.
Proof.
  intros H. unfold assign_tail. rewrite H, Nat.eqb_refl. cbn [bind]. eauto.
Qed.

Lemma make_layout_total sendcnt idx recvcnt :
  length recvcnt = length sendcnt ->
  exists l,
    make_layout sendcnt idx recvcnt = Ok l
    /\ sendcounts l = sendcnt /\ recvcounts l = recvcnt /\ indices l = idx.
Proof.
  intros Hlen. unfold make_layout.
  destruct (assign_tail_total (length sendcnt) (removelast (cumsum sendcnt)))
    as [so ->].
  { unfold cumsum. now rewrite removelast_length, cumsum_from_length. }
  destruct (assign_tail_total (length sendcnt) (removelast (cumsum recvcnt)))
    as [ro ->].
  { unfold cumsum. now rewrite removelast_length, cumsum_from_length, Hlen. }
  cbn [bind]. eexists. split; [reflexivity |]. repeat split.
Qed.

Lemma mapM_assert_raise {T : Type} (b : T -> bool) (l : list T) :
  (forall e, mapM (fun x => assert (b x)) l = Raise e -> e = AssertionError)
  /\ (mapM (fun x => assert (b x)) l = Raise AssertionError
      <-> Exists (fun x => b x = false) l).
Proof.
  induction l as [| x l [IH1 IH2]].
  - split; [discriminate |]. split; [discriminate |].
    intros H. inversion H.
  - cbn [mapM]. unfold assert at 1 3. destruct (b x) eqn:Hb; cbn [bind].
    + destruct (mapM (fun x => assert (b x)) l) as [ys | e] eqn:Hm;
        cbn [bind].
      * split; [discriminate |]. split; [discriminate |].
        intros H. inversion H as [? ? Hx | ? ? Hx]; [congruence |].
        apply IH2 in Hx. discriminate.
      * split.
        -- intros e' H. inversion H. subst. now apply IH1.
        -- split.
           ++ intros H. inversion H. subst. apply Exists_cons_tl.
              now apply IH2.
           ++ intros _. f_equal. now apply IH1.
    + split; [intros e H; now inversion H |].
      split; [intros _; now apply Exists_cons_hd | reflexivity].
Qed.

(** X11. The constructor called by a group validates one thing: it
    raises [AssertionError] exactly when some rank passes a count vector
    whose length is not the size of the group. In every other case,
    whatever the counts, every rank gets its layout, with the send counts
    and the index sequence it passed and the receive counts of the
    collective exchange. *)
Theorem Layout_init_fails_only_on_shape (world : list (list Z * list Z)) :
  (Layout_init world = Raise AssertionError
   <-> Exists (fun w => length (fst w) <> length world) world)
  /\ (forall e, Layout_init world = Raise e -> e = AssertionError)
  /\ (Forall (fun w => length (fst w) = length world) world ->
      exists layouts,
        Layout_init world = Ok layouts
        /\ map sendcounts layouts = map fst world
        /\ map recvcounts layouts = Alltoall (map fst world)
        /\ map indices layouts = map snd world).
Proof.
  assert (Hok : Forall (fun w => length (fst w) = length world) world ->
            exists layouts,
              Layout_init world = Ok layouts
              /\ map sendcounts layouts = map fst world
              /\ map recvcounts layouts = Alltoall (map fst world)
              /\ map indices layouts = map snd world).
  { intros Hall. rewrite Forall_forall in Hall. unfold Layout_init.
    rewrite (mapM_pure _ (fun _ => tt)).
    2:{ intros w Hw. unfold assert. now rewrite (Hall w Hw), Nat.eqb_refl. }
    cbn [bind].
    assert (Hlen : length world = length (Alltoall (map fst world)))
      by now rewrite Alltoall_length, length_map.
    destruct (mapM_total
                (fun wr => make_layout (fst (fst wr)) (snd (fst wr)) (snd wr))
                (fun wr l => sendcounts l = fst (fst wr)
                             /\ recvcounts l = snd wr
                             /\ indices l = snd (fst wr))
                (combine world (Alltoall (map fst world))))
      as [layouts [Hl H2]].
    { intros [w r] Hwr. cbn [fst snd]. apply make_layout_total.
      rewrite (Alltoall_row_length _ _ (in_combine_r _ _ _ _ Hwr)), length_map.
      symmetry. apply Hall. exact (in_combine_l _ _ _ _ Hwr). }
    exists layouts. split; [exact Hl |].
    assert (Hs : map sendcounts layouts
                 = map (fun wr => fst (fst wr))
                       (combine world (Alltoall (map fst world)))
                 /\ map recvcounts layouts
                    = map snd (combine world (Alltoall (map fst world)))
                 /\ map indices layouts
                    = map (fun wr => snd (fst wr))
                          (combine world (Alltoall (map fst world)))).
    { clear - H2. induction H2 as [| wr l wrs ls [H1 [H3 H4]] _ [I1 [I2 I3]]].
      - repeat split.
      - cbn [map]. rewrite H1, H3, H4, I1, I2, I3. repeat split. }
    destruct Hs as [-> [-> ->]].
    rewrite map_snd_combine by exact Hlen.
    rewrite <- (map_map fst fst), <- (map_map fst snd).
    rewrite map_fst_combine by exact Hlen. repeat split. }
  destruct (mapM_assert_raise
              (fun w : list Z * list Z =>
                 Nat.eqb (length world) (length (fst w))) world)
    as [Honly Hiff].
  assert (Hex : Exists (fun w => length (fst w) <> length world) world
                <-> Exists (fun w : list Z * list Z =>
                              Nat.eqb (length world) (length (fst w)) = false)
                           world).
  { rewrite !Exists_exists. split; intros [w [Hw Hne]]; exists w;
      (split; [exact Hw |]).
    - apply Nat.eqb_neq. congruence.
    - apply Nat.eqb_neq in Hne. congruence. }
  split; [| split; [| exact Hok]].
  - rewrite Hex, <- Hiff. unfold Layout_init.
    destruct (mapM (fun w => assert (Nat.eqb (length world) (length (fst w))))
                   world) as [u | e] eqn:Hm; cbn [bind].
    + split; [| discriminate]. intros Hr. exfalso.
      assert (Hall : Forall (fun w => length (fst w) = length world) world).
      { apply Forall_forall. intros w Hw.
        destruct (Nat.eq_dec (length (fst w)) (length world)) as [He | Hne];
          [exact He |].
        exfalso.
        assert (Hx : Exists (fun w : list Z * list Z =>
                               Nat.eqb (length world) (length (fst w)) = false)
                            world).
        { apply Exists_exists. exists w. split; [exact Hw |].
          apply Nat.eqb_neq. congruence. }
        apply Hiff in Hx. discriminate. }
      destruct (Hok Hall) as [layouts [Hl _]]. unfold Layout_init in Hl.
      rewrite Hm in Hl. cbn [bind] in Hl. congruence.
    + split; intros H; inversion H; reflexivity.
  - intros e. unfold Layout_init.
    destruct (mapM (fun w => assert (Nat.eqb (length world) (length (fst w))))
                   world) as [u | e'] eqn:Hm; cbn [bind].
    + intros Hr. exfalso.
      assert (Hall : Forall (fun w => length (fst w) = length world) world).
      { apply Forall_forall. intros w Hw.
        destruct (Nat.eq_dec (length (fst w)) (length world)) as [He | Hne];
          [exact He |].
        exfalso.
        assert (Hx : Exists (fun w : list Z * list Z =>
                               Nat.eqb (length world) (length (fst w)) = false)
                            world).
        { apply Exists_exists. exists w. split; [exact Hw |].
          apply Nat.eqb_neq. congruence. }
        apply Hiff in Hx. discriminate. }
      destruct (Hok Hall) as [layouts [Hl _]]. unfold Layout_init in Hl.
      rewrite Hm in Hl. cbn [bind] in Hl. congruence.
    + intros H. inversion H. subst. now apply Honly.
Qed.

Lemma Layout_init_fails_only_on_shape_witness :
  exists layouts,
    Layout_init [([-1; 5], [0]); ([2147483647; 2147483647], [])] = Ok layouts
    /\ map sendcounts layouts = [[-1; 5]; [2147483647; 2147483647]]
    /\ map recvcounts layouts
       = Alltoall [[-1; 5]; [2147483647; 2147483647]]
    /\ map indices layouts = [[0]; []].
Proof.
  apply (proj2 (proj2 (Layout_init_fails_only_on_shape
                         [([-1; 5], [0]);
                          ([2147483647; 2147483647], [])]))).
  repeat constructor.
Defined.

Lemma assign_tail_cases (n : nat) src :
  (assign_tail n src = Raise ValueError
   <-> length src <> pred n /\ length src <> 1%nat)
  /\ (forall e, assign_tail n src = Raise e -> e = ValueError).
Proof.
  unfold assign_tail.
  destruct (Nat.eqb_spec (length src) (pred n)) as [Heq | Hne]; cbn [bind].
  - split; [| discriminate]. split; [discriminate | tauto].
  - destruct src as [| x [| y t]]; cbn [bind].
    + split; [| intros e H; now inversion H].
      split; [intros _; split; [exact Hne | discriminate] | reflexivity].
    + split; [| discriminate]. split; [discriminate |].
      intros [_ H]. now contradiction H.
    + split; [| intros e H; now inversion H].
      split; [intros _; split; [exact Hne | discriminate] | reflexivity].
Qed.

(** X16. With explicit receive counts the constructor compares only the
    number of send counts with the size of the group ([AssertionError]).
    Receive counts of another length are refused with [ValueError] by the
    assignment of the offsets, except that two receive counts are taken
    for a group of any size: numpy broadcasts the single cumulative sum
    into the offsets. *)
Theorem Layout_init_with_checks (size : nat) (sendcnt idx recvcnt : list Z) :
  (Layout_init_with size sendcnt idx recvcnt = Raise AssertionError
   <-> size <> length sendcnt)
  /\ (size = length sendcnt ->
      (Layout_init_with size sendcnt idx recvcnt = Raise ValueError
       <-> pred (length recvcnt) <> pred (length sendcnt)
           /\ length recvcnt <> 2%nat))
  /\ (size = length sendcnt ->
      pred (length recvcnt) = pred (length sendcnt)
      \/ length recvcnt = 2%nat ->
      exists l,
        Layout_init_with size sendcnt idx recvcnt = Ok l
        /\ sendcounts l = sendcnt /\ recvcounts l = recvcnt
        /\ indices l = idx).
Proof.
  assert (Hsend : exists so,
            assign_tail (length sendcnt) (removelast (cumsum sendcnt)) = Ok so).
  { apply assign_tail_total. unfold cumsum.
    now rewrite removelast_length, cumsum_from_length. }
  destruct Hsend as [so Hso].
  assert (Hlr : length (removelast (cumsum recvcnt)) = pred (length recvcnt)).
  { unfold cumsum. now rewrite removelast_length, cumsum_from_length. }
  destruct (assign_tail_cases (length sendcnt) (removelast (cumsum recvcnt)))
    as [Hiff Honly].
  rewrite Hlr in Hiff.
  assert (H2 : pred (length recvcnt) <> 1%nat <-> length recvcnt <> 2%nat)
    by lia.
  unfold Layout_init_with, assert, make_layout.
  destruct (Nat.eqb_spec size (length sendcnt)) as [Heq | Hne]; cbn [bind].
  - rewrite Hso. cbn [bind].
    destruct (assign_tail (length sendcnt) (removelast (cumsum recvcnt)))
      as [ro | e] eqn:Hro; cbn [bind].
    + split; [split; [discriminate | contradiction] |].
      split.
      * intros _. split; [discriminate |]. intros Hc.
        assert (Hx : @Ok (list Z) ro = Raise ValueError)
          by (apply Hiff; tauto).
        discriminate.
      * intros _ _. eexists. split; [reflexivity |]. repeat split.
    + pose proof (Honly e eq_refl) as ->.
      split; [split; [discriminate | contradiction] |].
      split.
      * intros _. split; [| reflexivity].
        intros _. destruct (proj1 Hiff eq_refl) as [Ha Hb].
        split; [exact Ha | lia].
      * intros _ Hc. exfalso.
        assert (Hx : pred (length recvcnt) <> pred (length sendcnt)
                     /\ pred (length recvcnt) <> 1%nat)
          by (apply Hiff; reflexivity).
        lia.
  - split; [split; [intros _; exact Hne | reflexivity] |].
    split; intros Hc; contradiction.
Qed.

Lemma Layout_init_with_checks_witness :
  exists l,
    Layout_init_with 3 [1; 0; 2] [0; 1; 2] [7; 9] = Ok l
    /\ sendcounts l = [1; 0; 2] /\ recvcounts l = [7; 9]
    /\ indices l = [0; 1; 2].
Proof.
  apply (proj2 (proj2 (Layout_init_with_checks 3 [1; 0; 2] [0; 1; 2] [7; 9]))).
  - reflexivity.
  - right. reflexivity.
Defined.

(** ** What is sent is received *)

Lemma zsum_map_add {T : Type} (f g : T -> Z) (l : list T) :
  zsum (map (fun x => f x + g x) l) = zsum (map f l) + zsum (map g l).
Proof.
  induction l as [| x l IH]; [reflexivity |].
  cbn [map]. rewrite !zsum_cons, IH. lia.
Qed.

Lemma zsum_map_zero {T : Type} (l : list T) : zsum (map (fun _ => 0) l) = 0.
Proof. induction l as [| x l IH]; [reflexivity |]. cbn [map]. now rewrite zsum_cons, IH. Qed.

Lemma zsum_swap {T U : Type} (f : T -> U -> Z) (Q : list T) (M : list U) :
  zsum (map (fun q => zsum (map (fun s => f q s) M)) Q)
  = zsum (map (fun s => zsum (map (fun q => f q s) Q)) M).
Proof.
  induction Q as [| q Q IH].
  - cbn [map]. now rewrite zsum_map_zero.
  - cbn [map]. rewrite zsum_cons, IH.
    rewrite <- zsum_map_add. f_equal.
Qed.

Lemma zsum_Alltoall (M : list (list Z)) :
  Forall (fun row => length row = length M) M ->
  zsum (map zsum (Alltoall M)) = zsum (map zsum M).
Proof.
  intros H. unfold Alltoall. rewrite map_map.
  rewrite (zsum_swap (fun q s => nth q s 0)).
  f_equal. apply map_ext_in. intros s Hs. rewrite Forall_forall in H.
  rewrite <- (H s Hs). now rewrite map_nth_seq.
Qed.

(** X12. For a group with valid count vectors the totals of the layouts
    balance: the new lengths of all ranks add up to the old lengths of
    all ranks, so the group receives as many items as it sends. *)
Theorem layout_totals_balance (world : list (list Z * list Z)) :
  valid_world world ->
  exists layouts,
    Layout_init world = Ok layouts
    /\ zsum (map newlength layouts) = zsum (map oldlength layouts).
Proof.
  intros Hv. rewrite (Layout_init_ok world Hv). eexists.
  split; [reflexivity |]. rewrite !map_map.
  cbn [layout_of newlength oldlength].
  destruct Hv as [Hsend _].
  assert (Hlen : length world = length (Alltoall (map fst world)))
    by now rewrite Alltoall_length, length_map.
  rewrite <- (map_map snd zsum), map_snd_combine by exact Hlen.
  rewrite <- (map_map fst (fun w => zsum (fst w))),
    map_fst_combine by exact Hlen.
  rewrite <- (map_map fst zsum). apply zsum_Alltoall.
  rewrite length_map. apply Forall_map. revert Hsend. apply Forall_impl.
  intros w [Hl _]. exact Hl.
Qed.

Lemma layout_totals_balance_witness :
  exists layouts,
    Layout_init [([1; 2], [0; 1; 2]); ([0; 1], [0])] = Ok layouts
    /\ zsum (map newlength layouts) = zsum (map oldlength layouts).
Proof.
  apply (layout_totals_balance [([1; 2], [0; 1; 2]); ([0; 1], [0])]).
  split; repeat constructor; simpl; lia.
Defined.

(** ** The order and the conservation of the items *)

Lemma concat_map_app_perm {T U : Type} (g h : T -> list U) (L : list T) :
  Permutation (concat (map (fun x => g x ++ h x) L))
              (concat (map g L) ++ concat (map h L)).
Proof.
  induction L as [| x L IH]; [constructor |].
  cbn [map concat]. rewrite <- !app_assoc. apply Permutation_app_head.
  eapply Permutation_trans; [apply Permutation_app_head; exact IH |].
  rewrite !app_assoc. apply Permutation_app_tail. apply Permutation_app_comm.
Qed.

Lemma concat_map_nil {T U : Type} (L : list T) :
  concat (map (fun _ : T => @nil U) L) = [].
Proof. induction L as [| x L IH]; [reflexivity | exact IH]. Qed.

Lemma concat_transpose {T U V : Type} (f : T -> U -> list V) (Q : list T)
    (L : list U) :
  Permutation (concat (map (fun q => concat (map (f q) L)) Q))
              (concat (map (fun x => concat (map (fun q => f q x) Q)) L)).
Proof.
  induction Q as [| q Q IH].
  - cbn [map concat]. rewrite concat_map_nil. constructor.
  - cbn [map concat].
    eapply Permutation_trans; [apply Permutation_app_head; exact IH |].
    apply Permutation_sym.
    apply (concat_map_app_perm (f q) (fun x => concat (map (fun q => f q x) Q))).
Qed.

Section ExchangeItems.

Variable A : Type.
Variable dtype_itemsize : string -> Z.
Variable uninit : nat -> A.

(** The result of [exchange] on a group whose layouts fit together,
    rank by rank. *)
Lemma exchange_items (world : list (process A)) (Bs : list (list A)) :
  consistent world -> dtypes_agree world -> trailing_agree world ->
  Forall2 (fun pr B =>
             take (items (data pr)) (indices (layout pr)) = Ok B
             /\ Z.of_nat (length B) = zsum (sendcounts (layout pr)))
          world Bs ->
  exists results,
    exchange A dtype_itemsize uninit world = Ok results
    /\ map (fun res => items (snd res)) results
       = map (gathered (send_matrix world) Bs) (seq 0 (length world)).
Proof.
  intros Hc Hd Ht Htake.
  rewrite (exchange_gathered A dtype_itemsize uninit world Bs Hc Hd Ht Htake).
  eexists. split; [reflexivity |].
  rewrite map_map. cbn [snd items]. apply map_snd_combine.
  now rewrite length_map, length_seq.
Qed.

End ExchangeItems.

(** X13. On a group whose layouts fit together and whose payloads have
    one element type and one trailing shape, [exchange] returns to rank
    [q] the blocks addressed to it in the order of the sending ranks:
    from every rank [p], the slice of the buffer [data.take(indices)] of
    [p] that starts at [sendoffsets[q]] and holds [sendcounts[q]]
    items. *)
Theorem exchange_keeps_rank_order (A : Type) (itemsize : string -> Z)
    (uninit : nat -> A) (world : list (process A)) (Bs : list (list A)) :
  consistent world -> dtypes_agree world -> trailing_agree world ->
  Forall2 (fun pr B =>
             take (items (data pr)) (indices (layout pr)) = Ok B
             /\ Z.of_nat (length B) = zsum (sendcounts (layout pr)))
          world Bs ->
  exists results,
    exchange A itemsize uninit world = Ok results
    /\ length results = length world
    /\ forall q res,
         nth_error results q = Some res ->
         items (snd res)
         = concat (map (fun pb =>
                          slice (snd pb)
                                (nth q (sendoffsets (layout (fst pb))) 0)
                                (nth q (sendcounts (layout (fst pb))) 0))
                       (combine world Bs)).
Proof.
  intros Hc Hd Ht Htake.
  destruct (exchange_items A itemsize uninit world Bs Hc Hd Ht Htake)
    as [results [Hex Hitems]].
  exists results. split; [exact Hex |].
  assert (Hlen : length results = length world).
  { rewrite <- (length_map (fun res => items (snd res)) results), Hitems.
    now rewrite length_map, length_seq. }
  split; [exact Hlen |].
  intros q res Hres.
  assert (Hq : (q < length world)%nat)
    by (rewrite <- Hlen; apply nth_error_Some; congruence).
  pose proof (map_nth_error (fun res => items (snd res)) _ _ Hres) as Hn.
  rewrite Hitems in Hn.
  rewrite (map_nth_error _ _ _ (nth_error_seq0 _ _ Hq)) in Hn.
  inversion Hn as [Hg]. clear Hn. unfold gathered, send_matrix.
  rewrite combine_map_l, map_map. f_equal.
  apply map_ext_in. intros [pr B] Hin. cbn [fst snd]. unfold block_for.
  destruct Hc as [Hall _]. rewrite Forall_forall in Hall.
  destruct (Hall pr (in_combine_l _ _ _ _ Hin)) as [_ [_ [Hso _]]].
  now rewrite Hso.
Qed.

Lemma exchange_keeps_rank_order_witness :
  let world :=
    [mkprocess 1%nat (layout_of [1; 2] [2; 0; 1] [1; 1])
               (mkarray 0%nat "<f4"%string [] [10; 11; 12]);
     mkprocess 1%nat (layout_of [1; 0] [0] [2; 0])
               (mkarray 0%nat "<f4"%string [] [20])] in
  let Bs := [[12; 10; 11]; [20]] in
  exists results,
    exchange Z (fun _ => 4) (fun _ => -1) world = Ok results
    /\ length results = length world
    /\ forall q res,
         nth_error results q = Some res ->
         items (snd res)
         = concat (map (fun pb =>
                          slice (snd pb)
                                (nth q (sendoffsets (layout (fst pb))) 0)
                                (nth q (sendcounts (layout (fst pb))) 0))
                       (combine world Bs)).
Proof.
  intros world Bs.
  apply (exchange_keeps_rank_order Z (fun _ => 4) (fun _ => -1) world Bs).
  - split; [| reflexivity].
    repeat constructor; simpl; lia.
  - exists "<f4"%string. split; [discriminate | repeat constructor].
  - exists []. repeat constructor.
  - repeat constructor.
Defined.

(** X14. Under the same conditions nothing is lost and nothing is made
    up: the items that all ranks hold after the transfer are, as a
    multiset, the items of the buffers [data.take(indices)] of all
    ranks. Where every index sequence names every item of its payload
    once, they are the items of the payloads of the group. *)
Theorem exchange_conserves_items (A : Type) (itemsize : string -> Z)
    (uninit : nat -> A) (world : list (process A)) (Bs : list (list A)) :
  consistent world -> dtypes_agree world -> trailing_agree world ->
  Forall2 (fun pr B =>
             take (items (data pr)) (indices (layout pr)) = Ok B
             /\ Z.of_nat (length B) = zsum (sendcounts (layout pr)))
          world Bs ->
  exists results,
    exchange A itemsize uninit world = Ok results
    /\ Permutation (received results) (concat Bs)
    /\ (Forall bijective world ->
        Permutation (received results)
                    (concat (map (fun pr => items (data pr)) world))).
Proof.
  intros Hc Hd Ht Htake.
  destruct (exchange_items A itemsize uninit world Bs Hc Hd Ht Htake)
    as [results [Hex Hitems]].
  exists results. split; [exact Hex |].
  pose proof (Forall2_length Htake) as HlB.
  assert (HM : length (send_matrix world) = length world)
    by apply length_map.
  assert (Hperm : Permutation (received results) (concat Bs)).
  { unfold received. rewrite Hitems. unfold gathered.
    eapply Permutation_trans;
      [apply (concat_transpose
                (fun q (cb : list Z * list A) =>
                   block_for q (fst cb) (snd cb))) |].
    replace (map (fun x : list Z * list A =>
                    concat (map (fun q => block_for q (fst x) (snd x))
                                (seq 0 (length world))))
                 (combine (send_matrix world) Bs))
      with Bs; [apply Permutation_refl |].
    rewrite <- (map_snd_combine (send_matrix world) Bs) at 1 by lia.
    apply map_ext_in. intros [cnt B] Hin. cbn [fst snd].
    unfold send_matrix in Hin. rewrite combine_map_l in Hin.
    apply in_map_iff in Hin. destruct Hin as [[pr B'] [Heq Hin]].
    cbn [fst snd] in Heq. inversion Heq. subst cnt B'.
    destruct (Forall2_In_combine _ _ _ _ _ Htake Hin) as [_ Hlen].
    destruct Hc as [Hall _]. rewrite Forall_forall in Hall.
    destruct (Hall pr (in_combine_l _ _ _ _ Hin)) as [Hl [Hpos _]].
    rewrite <- Hl. symmetry. now apply concat_blocks. }
  split; [exact Hperm |].
  intros Hbij. eapply Permutation_trans; [exact Hperm |].
  clear - Htake Hbij. induction Htake as [| pr B world Bs [Hb _] _ IH].
  - constructor.
  - inversion Hbij as [| pr' w' [Hp _] Hrest]. subst pr' w'.
    cbn [map concat]. apply Permutation_app; [| now apply IH].
    destruct (take_bijective A _ _ Hp) as [b [Hb' Hpb]].
    rewrite Hb in Hb'. inversion Hb'. now subst.
Qed.

Lemma exchange_conserves_items_witness :
  let world :=
    [mkprocess 1%nat (layout_of [1; 2] [2; 0; 1] [1; 1])
               (mkarray 0%nat "<f4"%string [] [10; 11; 12]);
     mkprocess 1%nat (layout_of [1; 0] [0] [2; 0])
               (mkarray 0%nat "<f4"%string [] [20])] in
  let Bs := [[12; 10; 11]; [20]] in
  exists results,
    exchange Z (fun _ => 4) (fun _ => -1) world = Ok results
    /\ Permutation (received results) (concat Bs)
    /\ (Forall bijective world ->
        Permutation (received results)
                    (concat (map (fun pr => items (data pr)) world))).
Proof.
  intros world Bs.
  apply (exchange_conserves_items Z (fun _ => 4) (fun _ => -1) world Bs).
  - split; [| reflexivity].
    repeat constructor; simpl; lia.
  - exists "<f4"%string. split; [discriminate | repeat constructor].
  - exists []. repeat constructor.
  - repeat constructor.
Defined.

(** ** The transfer does not look at the items *)

Lemma mapM_map {T U V : Type} (g : U -> outcome V) (h : T -> U) (l : list T) :
  mapM g (map h l) = mapM (fun x => g (h x)) l.
Proof.
  induction l as [| x l IH]; [reflexivity |].
  cbn [map mapM]. now rewrite IH.
Qed.

Lemma mapM_map_outcome {T U V : Type} (g : T -> outcome V) (h : T -> outcome U)
    (k : U -> V) (l : list T) :
  (forall x, g x = map_outcome k (h x)) ->
  mapM g l = map_outcome (map k) (mapM h l).
Proof.
  intros H. induction l as [| x l IH]; [reflexivity |].
  cbn [mapM]. rewrite H, IH.
  destruct (h x) as [y | e]; [| reflexivity].
  cbn [map_outcome bind]. destruct (mapM h l) as [ys | e]; reflexivity.
Qed.

Lemma combine_map_r {T U V : Type} (h : U -> V) (l : list T) (m : list U) :
  combine l (map h m) = map (fun p => (fst p, h (snd p))) (combine l m).
Proof.
  revert m. induction l as [| x l IH]; intros [| y m]; try reflexivity.
  cbn. now rewrite IH.
Qed.

Lemma indexed_map {T U : Type} (h : T -> U) (l : list T) :
  indexed (map h l) = map (fun p => (fst p, h (snd p))) (indexed l).
Proof. unfold indexed. now rewrite length_map, combine_map_r. Qed.

Lemma forallb_map_ext {T U : Type} (p : U -> bool) (p' : T -> bool)
    (h : T -> U) (l : list T) :
  (forall x, p (h x) = p' x) -> forallb p (map h l) = forallb p' l.
Proof.
  intros H. induction l as [| x l IH]; [reflexivity |].
  cbn [map forallb]. now rewrite H, IH.
Qed.

Lemma fold_left_natural {X S T : Type} (F : S -> X -> S) (G : T -> X -> T)
    (k : S -> T) (l : list X) :
  (forall a x, G (k a) x = k (F a x)) ->
  forall a, fold_left G l (k a) = k (fold_left F l a).
Proof.
  intros H. induction l as [| x l IH]; intros a; [reflexivity |].
  cbn [fold_left]. now rewrite H, IH.
Qed.

Section Natural.

Variables A B : Type.
Variable f : A -> B.
Variable dtype_itemsize : string -> Z.
Variable uninit : nat -> A.

Lemma take1_map (l : list A) k :
  take1 (map f l) k = map_outcome f (take1 l k).
Proof.
  unfold take1. rewrite length_map.
  destruct ((- Z.of_nat (length l) <=? k) && (k <? Z.of_nat (length l)));
    [| reflexivity].
  rewrite nth_error_map.
  destruct (nth_error l _); reflexivity.
Qed.

Lemma take_map (l : list A) idx :
  take (map f l) idx = map_outcome (map f) (take l idx).
Proof. unfold take. apply mapM_map_outcome. intros k. apply take1_map. Qed.

Lemma slice_map (l : list A) off cnt :
  slice (map f l) off cnt = map f (slice l off cnt).
Proof. unfold slice. now rewrite skipn_map, firstn_map. Qed.

Lemma write_map (l : list A) off xs :
  write (map f l) off (map f xs) = map f (write l off xs).
Proof.
  unfold write.
  now rewrite !map_app, length_map, skipn_map, firstn_map.
Qed.

Lemma pair_ok_map p q (s r : vmsg A) :
  pair_ok B p q (map_vmsg f s) (map_vmsg f r) = pair_ok A p q s r.
Proof.
  unfold pair_ok, map_vmsg. cbn [buf counts displs stride].
  now rewrite !length_map.
Qed.

Lemma Alltoallv_map (send recv : list (vmsg A)) :
  Alltoallv B (map (map_vmsg f) send) (map (map_vmsg f) recv)
  = map_outcome (map (map f)) (Alltoallv A send recv).
Proof.
  unfold Alltoallv. rewrite !length_map, !indexed_map.
  rewrite (forallb_map_ext (vmsg_ok B (length send))
             (vmsg_ok A (length send)) (map_vmsg f) send)
    by reflexivity.
  rewrite (forallb_map_ext (vmsg_ok B (length send))
             (vmsg_ok A (length send)) (map_vmsg f) recv)
    by reflexivity.
  rewrite (forallb_map_ext _
             (fun ps => forallb (fun qr => pair_ok A (fst ps) (fst qr)
                                             (snd ps) (snd qr))
                                (indexed recv))
             (fun p => (fst p, map_vmsg f (snd p))) (indexed send)).
  2:{ intros [p s]. cbn [fst snd]. apply forallb_map_ext.
      intros [q r]. cbn [fst snd]. apply pair_ok_map. }
  destruct (Nat.eqb (length recv) (length send)
            && forallb (vmsg_ok A (length send)) send
            && forallb (vmsg_ok A (length send)) recv
            && forallb _ (indexed send)); [| reflexivity].
  cbn [map_outcome]. f_equal. rewrite !map_map.
  apply map_ext. intros [q r]. cbn [fst snd].
  rewrite <- (fold_left_map
                (fun acc (ps : nat * vmsg B) =>
                   write acc (nth (fst ps) (displs B (map_vmsg f r)) 0)
                         (slice (buf B (snd ps))
                                (nth q (displs B (snd ps)) 0)
                                (nth q (counts B (snd ps)) 0)))
                (fun p : nat * vmsg A => (fst p, map_vmsg f (snd p)))).
  cbn [map_vmsg buf counts displs fst snd].
  apply (fold_left_natural
           (fun acc (ps : nat * vmsg A) =>
              write acc (nth (fst ps) (displs A r) 0)
                    (slice (buf A (snd ps)) (nth q (displs A (snd ps)) 0)
                           (nth q (counts A (snd ps)) 0)))
           _ (map f)).
  intros acc [p s]. cbn [fst snd]. rewrite slice_map. apply write_map.
Qed.

Lemma stage_map (pr : process A) :
  stage B dtype_itemsize (fun i => f (uninit i)) (map_process f pr)
  = map_outcome (fun sr => (map_vmsg f (fst sr), map_vmsg f (snd sr)))
                (stage A dtype_itemsize uninit pr).
Proof.
  unfold stage, map_process, map_array. cbn [layout data items dtype trailing].
  rewrite take_map.
  destruct (take (items (data pr)) (indices (layout pr))) as [b | e];
    [| reflexivity].
  cbn [map_outcome bind]. unfold numpy_empty.
  destruct (newlength (layout pr) <? 0); [reflexivity |].
  cbn [bind map_outcome fst snd]. unfold map_vmsg. cbn [buf counts displs stride].
  now rewrite map_map.
Qed.

End Natural.

(** X15. [exchange] does not look at the items it moves: transforming
    every item of every payload and then exchanging gives the same
    outcome as exchanging and then transforming every item of the
    results. Payloads that are exchanged through the same layouts
    therefore stay aligned, item by item. *)
Theorem exchange_natural (A B : Type) (f : A -> B) (itemsize : string -> Z)
    (uninit : nat -> A) (world : list (process A)) :
  exchange B itemsize (fun i => f (uninit i)) (map (map_process f) world)
  = map_outcome (map (fun res => (fst res, map_array f (snd res))))
                (exchange A itemsize uninit world).
Proof.
  unfold exchange. rewrite map_map.
  change (map (fun x => dtype (data (map_process f x))) world)
    with (map (fun pr => dtype (data pr)) world).
  destruct (negb (Nat.eqb (length (nodup string_dec
                                     (map (fun pr => dtype (data pr)) world)))
                          1)); [reflexivity |].
  rewrite mapM_map.
  rewrite (mapM_map_outcome _ (stage A itemsize uninit)
             (fun sr => (map_vmsg f (fst sr), map_vmsg f (snd sr))))
    by (intros pr; apply stage_map).
  destruct (mapM (stage A itemsize uninit) world) as [staged | e] eqn:Hst;
    [| reflexivity].
  cbn [map_outcome bind]. rewrite !map_map. cbn [fst snd].
  rewrite <- (map_map fst (map_vmsg f)), <- (map_map snd (map_vmsg f)).
  rewrite Alltoallv_map.
  destruct (Alltoallv A (map fst staged) (map snd staged)) as [rcv | e] eqn:Hall;
    [| reflexivity].
  cbn [map_outcome bind]. f_equal.
  rewrite combine_map_l, combine_map_r, !map_map.
  apply map_ext. intros [pr its]. reflexivity.
Qed.

(** ** Offsets beyond 32 bits *)

Lemma offsets_wrap_from counts : forall acc,
  0 <= acc -> Forall (fun c => 0 <= c) counts ->
  acc + zsum counts <= 9223372036854775807 ->
  firstn (length counts)
         (int32 acc :: map int32 (removelast (cumsum_from acc counts)))
  = map int32 (prefix_sums_from acc counts).
Proof.
  induction counts as [| c t IH]; intros acc Hacc Hpos Hsum; [reflexivity |].
  inversion Hpos as [| c' t' Hc Ht]. subst c' t'.
  pose proof (zsum_nonneg t Ht) as Hnn.
  rewrite zsum_cons in Hsum.
  cbn [length firstn prefix_sums_from cumsum_from map]. f_equal.
  rewrite (int64_small (acc + c)) by lia.
  destruct t as [| c2 t2]; [reflexivity |].
  rewrite <- (IH (acc + c)) by (try assumption; lia).
  cbn [cumsum_from].
  change (removelast (?x :: ?y :: ?l)) with (x :: removelast (y :: l)).
  cbn [map length firstn]. reflexivity.
Qed.

Lemma assign_tail_wrap counts :
  Forall (fun c => 0 <= c) counts ->
  zsum counts <= 9223372036854775807 ->
  assign_tail (length counts) (removelast (cumsum counts))
  = Ok (map int32 (exclusive_prefix_sums counts)).
Proof.
  intros Hpos Hsum. unfold assign_tail, cumsum.
  rewrite removelast_length, cumsum_from_length, Nat.eqb_refl.
  cbn [bind]. f_equal. rewrite exclusive_prefix_sums_from.
  apply (offsets_wrap_from counts 0); [lia | exact Hpos | lia].
Qed.

(** X17. Whatever the totals, within 64 bits: for counts that are not
    negative the offsets of a layout are the exclusive prefix sums
    wrapped to 32 bits, while the lengths are the exact sums. So where
    the counts before some rank add up to 2^31 or more (and less than
    2^32), the offset of that rank is negative. *)
Theorem layout_offsets_wrap (sendcnt idx recvcnt : list Z) :
  length recvcnt = length sendcnt ->
  Forall (fun c => 0 <= c) sendcnt -> zsum sendcnt <= 9223372036854775807 ->
  Forall (fun c => 0 <= c) recvcnt -> zsum recvcnt <= 9223372036854775807 ->
  exists l,
    Layout_init_with (length sendcnt) sendcnt idx recvcnt = Ok l
    /\ sendoffsets l = map int32 (exclusive_prefix_sums sendcnt)
    /\ recvoffsets l = map int32 (exclusive_prefix_sums recvcnt)
    /\ oldlength l = zsum sendcnt
    /\ newlength l = zsum recvcnt
    /\ (forall k, (k < length sendcnt)%nat ->
          2147483648 <= nth k (exclusive_prefix_sums sendcnt) 0 < 4294967296 ->
          nth k (sendoffsets l) 0 < 0).
Proof.
  intros Hlen Hsp Hss Hrp Hrs.
  unfold Layout_init_with, assert, make_layout.
  rewrite Nat.eqb_refl. cbn [bind].
  rewrite (assign_tail_wrap sendcnt Hsp Hss). cbn [bind].
  rewrite <- Hlen, (assign_tail_wrap recvcnt Hrp Hrs). cbn [bind].
  pose proof (zsum_nonneg _ Hsp). pose proof (zsum_nonneg _ Hrp).
  rewrite !int64_small by lia.
  eexists. split; [reflexivity |].
  cbn [sendoffsets recvoffsets oldlength newlength].
  repeat (split; [reflexivity |]).
  intros k Hk Hrange.
  rewrite (nth_indep _ 0 (int32 0))
    by (rewrite length_map, exclusive_prefix_sums_length; lia).
  rewrite (map_nth int32).
  set (z := nth k (exclusive_prefix_sums sendcnt) 0) in *.
  unfold int32, wrap. change (2 ^ (32 - 1)) with 2147483648.
  change (2 ^ 32) with 4294967296.
  replace (z + 2147483648) with ((z - 2147483648) + 1 * 4294967296) by lia.
  rewrite Z.mod_add by lia. rewrite Z.mod_small by lia. lia.
Qed.

Lemma layout_offsets_wrap_witness :
  exists l,
    Layout_init_with 3 [2147483647; 2147483647; 1] [] [1; 2; 3] = Ok l
    /\ sendoffsets l
       = map int32 (exclusive_prefix_sums [2147483647; 2147483647; 1])
    /\ recvoffsets l = map int32 (exclusive_prefix_sums [1; 2; 3])
    /\ oldlength l = zsum [2147483647; 2147483647; 1]
    /\ newlength l = zsum [1; 2; 3]
    /\ (forall k, (k < 3)%nat ->
          2147483648
          <= nth k (exclusive_prefix_sums [2147483647; 2147483647; 1]) 0
          < 4294967296 ->
          nth k (sendoffsets l) 0 < 0).
Proof.
  apply (layout_offsets_wrap [2147483647; 2147483647; 1] [] [1; 2; 3]).
  - reflexivity.
  - repeat constructor; lia.
  - simpl. lia.
  - repeat constructor; lia.
  - simpl. lia.
Defined.

(** ** Point particles and growing supports *)

Lemma searchsorted_Qeq a x y :
  (x == y)%Q -> numpy.searchsorted a x = numpy.searchsorted a y.
Proof.
  intros H.
  assert (H1 : (x <= y)%Q) by (rewrite H; apply Qle_refl).
  assert (H2 : (y <= x)%Q) by (rewrite H; apply Qle_refl).
  pose proof (searchsorted_mono a x y H1).
  pose proof (searchsorted_mono a y x H2). lia.
Qed.

(** Inside the domain the index of [digitize] names a cell. *)
Lemma inside_index edges t :
  numpy.nondecreasing edges = true -> edges <> [] ->
  (hd 0 edges <= t)%Q -> (t < last edges 0)%Q ->
  1 <= numpy.searchsorted edges t <= Z.of_nat (length edges) - 1.
Proof.
  intros Hmono Hne Hlo Hhi.
  pose proof (searchsorted_range edges t) as Hrange.
  assert (Hpos : (0 < length edges)%nat)
    by (destruct edges; [contradiction | cbn; lia]).
  split.
  - assert (H0 : Z.of_nat 0 < numpy.searchsorted edges t).
    { apply (searchsorted_iff edges 0 (hd 0%Q edges) t Hmono); [| exact Hlo].
      destruct edges; [contradiction | reflexivity]. }
    lia.
  - destruct (Z_le_gt_dec (numpy.searchsorted edges t)
                          (Z.of_nat (length edges) - 1)) as [Hle | Hgt];
      [exact Hle |].
    exfalso.
    assert (Hl : (last edges 0 <= t)%Q).
    { apply (searchsorted_iff edges (pred (length edges)) (last edges 0%Q) t
               Hmono).
      - destruct (exists_last Hne) as [l [e ->]].
        rewrite last_last, length_app. cbn [length].
        rewrite Nat.add_1_r. cbn [pred].
        rewrite nth_error_app2, Nat.sub_diag by lia. reflexivity.
      - lia. }
    exact (Qlt_not_le _ _ Hhi Hl).
Qed.

(** X18. A particle without extent (support radius 0) has exactly one
    bin in a dimension, [sir = sil + 1]: on a periodic grid always, the
    bin then lying between -1 and the extent of the mesh, both included;
    on a grid that is not periodic when its coordinate lies inside the
    domain, from the first edge up to but not including the last, and
    the bin is then the cell of the mesh that contains the coordinate. *)
Theorem point_particle_one_bin (g : GridND) pos s sml j edges i row x r :
  well_formed_grid g -> well_formed_batch g pos ->
  nth_error (grid g) j = Some edges ->
  broadcast (length pos) s = Ok sml ->
  nth_error pos i = Some row -> nth_error row j = Some x ->
  nth_error sml i = Some r -> (r == 0)%Q ->
  exists sil sir a b,
    bin_bounds g pos s j = Ok (sil, sir)
    /\ nth_error sil i = Some a
    /\ nth_error sir i = Some b
    /\ (periodic g = true ->
        b = a + 1 /\ -1 <= a <= Z.of_nat (length edges) - 1)
    /\ (periodic g = false ->
        (hd 0 edges <= x)%Q -> (x < last edges 0)%Q ->
        b = a + 1
        /\ 0 <= a < Z.of_nat (length edges) - 1
        /\ (nth (Z.to_nat a) edges 0 <= x)%Q
        /\ (x < nth (S (Z.to_nat a)) edges 0)%Q).
Proof.
  intros Hg Hpos He Hsml Hrow Hx Hr Hr0.
  pose proof (bin_bounds_rows g pos s j edges sml Hg Hpos He Hsml) as Hrows.
  cbv zeta in Hrows.
  destruct (well_formed_dim g j edges Hg He) as [_ [_ [[Hmono [Hlen _]] _]]].
  assert (Hxr : nth_error (combine (map (fun row => nth j row 0%Q) pos) sml) i
                = Some (x, r)).
  { apply nth_error_combine. split; [| exact Hr].
    exact (nth_error_column pos i j row x Hrow Hx). }
  set (t := binned (periodic g) edges x).
  assert (Hm : (t - r == t)%Q) by (rewrite Hr0; ring).
  assert (Hp : (t + r == t)%Q) by (rewrite Hr0; ring).
  set (d := numpy.searchsorted edges t).
  pose proof (searchsorted_range edges t) as Hrange. fold d in Hrange.
  assert (Hne : edges <> [])
    by (destruct edges; [simpl in Hlen; lia | discriminate]).
  eexists. eexists. eexists. eexists.
  split; [exact Hrows |].
  split; [exact (map_nth_error _ _ _ Hxr) |].
  split; [exact (map_nth_error _ _ _ Hxr) |].
  cbn [fst snd]. fold t.
  rewrite (searchsorted_Qeq edges _ _ Hm), (searchsorted_Qeq edges _ _ Hp).
  fold d.
  rewrite (int16_small (d - 1)), (int16_small d) by lia.
  split; intros Hper.
  - rewrite Hper. lia.
  - intros Hlo Hhi.
    assert (Ht : t = x) by (unfold t, binned; now rewrite Hper).
    pose proof (inside_index edges x Hmono Hne Hlo Hhi) as Hd.
    rewrite <- Ht in Hd. fold d in Hd.
    rewrite Hper. unfold numpy.clip.
    rewrite (int16_small (Z.min (Z.max (d - 1) 0) _)),
      (int16_small (Z.min (Z.max d 0) _)) by lia.
    replace (Z.min (Z.max (d - 1) 0) (Z.of_nat (length edges) - 1))
      with (d - 1) by lia.
    replace (Z.min (Z.max d 0) (Z.of_nat (length edges) - 1)) with d by lia.
    split; [lia |]. split; [lia |]. split.
    + apply (searchsorted_iff edges (Z.to_nat (d - 1)) _ x Hmono).
      * apply nth_error_nth'. lia.
      * rewrite <- Ht. fold d. lia.
    + apply Qnot_le_lt. intros Hc.
      apply (searchsorted_iff edges (S (Z.to_nat (d - 1))) _ x Hmono) in Hc.
      * rewrite <- Ht in Hc. fold d in Hc. lia.
      * apply nth_error_nth'. lia.
Qed.

Lemma point_particle_one_bin_witness :
  exists sil sir a b,
    bin_bounds (mkGridND [3] [[0; 1; 2; 3]%Q] false 3)
               [[0.5%Q]; [2%Q]] (Uniform 0%Q) 0 = Ok (sil, sir)
    /\ nth_error sil 1 = Some a
    /\ nth_error sir 1 = Some b
    /\ (false = true -> b = a + 1 /\ -1 <= a <= 4 - 1)
    /\ (false = false ->
        (0 <= 2)%Q -> (2 < 3)%Q ->
        b = a + 1
        /\ 0 <= a < 4 - 1
        /\ (nth (Z.to_nat a) [0; 1; 2; 3]%Q 0 <= 2)%Q
        /\ (2 < nth (S (Z.to_nat a)) [0; 1; 2; 3]%Q 0)%Q).
Proof.
  apply (point_particle_one_bin (mkGridND [3] [[0; 1; 2; 3]%Q] false 3)
           [[0.5%Q]; [2%Q]] (Uniform 0%Q) (repeat 0%Q 2) 0
           [0; 1; 2; 3]%Q 1 [2%Q] 2%Q 0%Q).
  - split; [reflexivity |]. repeat constructor; simpl; try lia; discriminate.
  - repeat constructor.
  - reflexivity.
  - reflexivity.
  - reflexivity.
  - reflexivity.
  - reflexivity.
  - reflexivity.
Defined.

Lemma Forall2_combine_rel {T U V : Type} (R : V -> V -> Prop)
    (P : U -> U -> Prop) (F F' : T * U -> V) (col : list T) :
  (forall x r r', P r r' -> R (F (x, r)) (F' (x, r'))) ->
  forall m m', Forall2 P m m' ->
  Forall2 R (map F (combine col m)) (map F' (combine col m')).
Proof.
  intros H. induction col as [| x col IH]; intros m m' Hm; [constructor |].
  destruct Hm as [| r r' m m' Hr Hm]; [constructor |].
  cbn [combine map]. constructor; [now apply H | now apply IH].
Qed.

Lemma Qminus_le_compat (t r r' : Q) : (r <= r')%Q -> (t - r' <= t - r)%Q.
Proof.
  intros H. apply Qplus_le_compat; [apply Qle_refl |].
  now apply Qopp_le_compat.
Qed.

(** X19. A larger support never loses a bin: for two sets of radii on
    the same batch, where every radius of the second is at least the
    radius of the first, every lower bound [sil] of the second is at most
    the one of the first and every upper bound [sir] at least the one of
    the first. *)
Theorem bounds_grow_with_radius (g : GridND) pos s s' sml sml' j edges :
  well_formed_grid g -> well_formed_batch g pos ->
  nth_error (grid g) j = Some edges ->
  broadcast (length pos) s = Ok sml ->
  broadcast (length pos) s' = Ok sml' ->
  Forall2 Qle sml sml' ->
  exists sil sir sil' sir',
    bin_bounds g pos s j = Ok (sil, sir)
    /\ bin_bounds g pos s' j = Ok (sil', sir')
    /\ Forall2 Z.ge sil sil'
    /\ Forall2 Z.le sir sir'.
Proof.
  intros Hg Hpos He Hsml Hsml' Hle.
  pose proof (bin_bounds_rows g pos s j edges sml Hg Hpos He Hsml) as Hrows.
  pose proof (bin_bounds_rows g pos s' j edges sml' Hg Hpos He Hsml')
    as Hrows'.
  cbv zeta in Hrows, Hrows'.
  destruct (well_formed_dim g j edges Hg He) as [_ [_ [[_ [Hlen _]] _]]].
  assert (Hpost : forall a b,
            -1 <= a <= b -> b <= Z.of_nat (length edges) ->
            (if periodic g then a
             else int16 (numpy.clip a 0 (Z.of_nat (length edges) - 1)))
            <= (if periodic g then b
                else int16 (numpy.clip b 0 (Z.of_nat (length edges) - 1)))).
  { intros a b Hab Hb. destruct (periodic g); [lia |].
    unfold numpy.clip. rewrite !int16_small by lia. lia. }
  eexists. eexists. eexists. eexists.
  split; [exact Hrows |]. split; [exact Hrows' |]. split.
  - apply (Forall2_combine_rel Z.ge Qle); [| exact Hle].
    intros x r r' Hr. cbn [fst snd]. apply Z.le_ge.
    set (t := binned (periodic g) edges x).
    pose proof (searchsorted_range edges (t - r)).
    pose proof (searchsorted_range edges (t - r')).
    pose proof (searchsorted_mono edges (t - r') (t - r)
                  (Qminus_le_compat t r r' Hr)).
    rewrite (int16_small (numpy.searchsorted edges (t - r) - 1)) by lia.
    rewrite (int16_small (numpy.searchsorted edges (t - r') - 1)) by lia.
    apply Hpost; lia.
  - apply (Forall2_combine_rel Z.le Qle); [| exact Hle].
    intros x r r' Hr. cbn [fst snd].
    set (t := binned (periodic g) edges x).
    pose proof (searchsorted_range edges (t + r)).
    pose proof (searchsorted_range edges (t + r')).
    assert (Hq : (t + r <= t + r')%Q)
      by (apply Qplus_le_compat; [apply Qle_refl | exact Hr]).
    pose proof (searchsorted_mono edges (t + r) (t + r') Hq).
    rewrite (int16_small (numpy.searchsorted edges (t + r))) by lia.
    rewrite (int16_small (numpy.searchsorted edges (t + r'))) by lia.
    apply Hpost; lia.
Qed.

Lemma bounds_grow_with_radius_witness :
  exists sil sir sil' sir',
    bin_bounds (mkGridND [3] [[0; 1; 2; 3]%Q] true 3)
               [[0.5%Q]; [2.9%Q]] (Uniform 0.2%Q) 0 = Ok (sil, sir)
    /\ bin_bounds (mkGridND [3] [[0; 1; 2; 3]%Q] true 3)
                  [[0.5%Q]; [2.9%Q]] (PerParticle [0.6%Q; 0.2%Q]) 0
       = Ok (sil', sir')
    /\ Forall2 Z.ge sil sil'
    /\ Forall2 Z.le sir sir'.
Proof.
  apply (bounds_grow_with_radius (mkGridND [3] [[0; 1; 2; 3]%Q] true 3)
           [[0.5%Q]; [2.9%Q]] (Uniform 0.2%Q) (PerParticle [0.6%Q; 0.2%Q])
           (repeat 0.2%Q 2) [0.6%Q; 0.2%Q] 0 [0; 1; 2; 3]%Q).
  - split; [reflexivity |]. repeat constructor; simpl; try lia; discriminate.
  - repeat constructor.
  - reflexivity.
  - reflexivity.
  - reflexivity.
  - repeat constructor; discriminate.
Defined.

(** * The round trip after [decompose] with support radius 0 *)

(** ** Particles without extent *)

Lemma combine_map_repeat {T U V : Type} (f : T -> U) (l : list T) (c : V) :
  combine (map f l) (repeat c (length l)) = map (fun x => (f x, c)) l.
Proof. induction l as [| x l IH]; [reflexivity |]. cbn. now rewrite IH. Qed.

(** The rows of bin bounds of a batch of particles without extent: one
    bin each, on a periodic grid and for particles inside the domain. *)
Lemma point_rows (g : GridND) pos j edges :
  well_formed_grid g -> well_formed_batch g pos ->
  nth_error (grid g) j = Some edges ->
  (periodic g = false -> inside_domain g pos) ->
  bin_bounds g pos (Uniform 0%Q) j
  = Ok (map (fun row => point_bin (periodic g) edges (nth j row 0%Q)) pos,
        map (fun row => point_bin (periodic g) edges (nth j row 0%Q) + 1) pos)
  /\ (periodic g = false ->
      Forall (fun row =>
                0 <= point_bin false edges (nth j row 0%Q)
                < Z.of_nat (length edges) - 1) pos).
Proof.
  intros Hg Hpos He Hin.
  destruct (well_formed_dim g j edges Hg He) as [_ [_ [[Hmono [Hlen _]] _]]].
  assert (Hne : edges <> [])
    by (destruct edges; [simpl in Hlen; lia | discriminate]).
  assert (Hcell : periodic g = false ->
            Forall (fun row =>
                      0 <= point_bin false edges (nth j row 0%Q)
                      < Z.of_nat (length edges) - 1) pos).
  { intros Hper. specialize (Hin Hper). unfold inside_domain in Hin.
    revert Hin. apply Forall_impl. intros row Hrow.
    destruct (Hrow j edges He) as [Hlo Hhi].
    unfold point_bin, binned.
    pose proof (inside_index edges _ Hmono Hne Hlo Hhi). lia. }
  split; [| exact Hcell].
  pose proof (bin_bounds_rows g pos (Uniform 0%Q) j edges
                (repeat 0%Q (length pos)) Hg Hpos He eq_refl) as Hrows.
  cbv zeta in Hrows. rewrite Hrows. clear Hrows.
  rewrite combine_map_repeat, !map_map. cbn [fst snd].
  f_equal. f_equal.
  - apply map_ext_in. intros row Hrow.
    set (t := binned (periodic g) edges (nth j row 0%Q)).
    assert (Hm : (t - 0 == t)%Q) by ring.
    rewrite (searchsorted_Qeq edges _ _ Hm).
    pose proof (searchsorted_range edges t) as Hr.
    rewrite int16_small by lia. unfold point_bin. fold t.
    destruct (periodic g) eqn:Hper; [reflexivity |].
    specialize (Hcell eq_refl). rewrite Forall_forall in Hcell.
    specialize (Hcell row Hrow). unfold point_bin in Hcell.
    subst t. unfold binned in *.
    unfold numpy.clip. rewrite int16_small; lia.
  - apply map_ext_in. intros row Hrow.
    set (t := binned (periodic g) edges (nth j row 0%Q)).
    assert (Hm : (t + 0 == t)%Q) by ring.
    rewrite (searchsorted_Qeq edges _ _ Hm).
    pose proof (searchsorted_range edges t) as Hr.
    rewrite int16_small by lia. unfold point_bin. fold t.
    destruct (periodic g) eqn:Hper; [lia |].
    specialize (Hcell eq_refl). rewrite Forall_forall in Hcell.
    specialize (Hcell row Hrow). unfold point_bin in Hcell.
    subst t. unfold binned in *.
    unfold numpy.clip. rewrite int16_small; lia.
Qed.

(** The rows of all dimensions. *)
Lemma point_bounds (g : GridND) pos :
  well_formed_grid g -> well_formed_batch g pos ->
  (periodic g = false -> inside_domain g pos) ->
  mapM (bin_bounds g pos (Uniform 0%Q)) (seq 0 (length (dims g)))
  = Ok (map (fun j =>
               (map (fun row => point_bin (periodic g) (nth j (grid g) [])
                                          (nth j row 0%Q)) pos,
                map (fun row => point_bin (periodic g) (nth j (grid g) [])
                                          (nth j row 0%Q) + 1) pos))
            (seq 0 (length (dims g)))).
Proof.
  intros Hg Hpos Hin. apply mapM_pure. intros j Hj. apply in_seq in Hj.
  assert (Hlen : length (dims g) = length (grid g))
    by (destruct Hg as [-> _]; apply length_map).
  apply (point_rows g pos j (nth j (grid g) []) Hg Hpos); [| exact Hin].
  apply nth_error_nth'. lia.
Qed.

Lemma point_particle_bounds (g : GridND) pos i :
  (i < length pos)%nat ->
  let bounds :=
    map (fun j =>
           (map (fun row => point_bin (periodic g) (nth j (grid g) [])
                                      (nth j row 0%Q)) pos,
            map (fun row => point_bin (periodic g) (nth j (grid g) [])
                                      (nth j row 0%Q) + 1) pos))
        (seq 0 (length (dims g))) in
  particle_bounds (map fst bounds) i = point_cell g (nth i pos [])
  /\ particle_bounds (map snd bounds) i
     = map (fun a => a + 1) (point_cell g (nth i pos [])).
Proof.
  intros Hi bounds. subst bounds. unfold particle_bounds, point_cell.
  rewrite !map_map. cbn [fst snd].
  split; apply map_ext; intros j.
  - rewrite (nth_indep _ 0 (point_bin (periodic g) (nth j (grid g) [])
                                      (nth j [] 0%Q)))
      by (rewrite length_map; exact Hi).
    exact (map_nth (fun row => point_bin (periodic g) (nth j (grid g) [])
                                         (nth j row 0%Q)) pos [] i).
  - rewrite (nth_indep _ 0 (point_bin (periodic g) (nth j (grid g) [])
                                      (nth j [] 0%Q) + 1))
      by (rewrite length_map; exact Hi).
    exact (map_nth (fun row => point_bin (periodic g) (nth j (grid g) [])
                                         (nth j row 0%Q) + 1) pos [] i).
Qed.

(** One bin in every dimension gives one destination rank. *)
Lemma bin_range_one a : bin_range a (a + 1) = [a].
Proof.
  unfold bin_range. replace (a + 1 - a) with 1 by lia.
  change (Z.to_nat 1) with 1%nat. cbn [seq map Z.of_nat].
  now rewrite Z.add_0_r.
Qed.

Lemma cartesian_singletons l : cartesian (map (fun a => [a]) l) = [l].
Proof.
  induction l as [| a l IH]; [reflexivity |].
  cbn [map cartesian flat_map]. rewrite IH. reflexivity.
Qed.

Lemma destinations_one ds per lo :
  destinations ds per lo (map (fun a => a + 1) lo) = [ravel ds per lo].
Proof.
  unfold destinations, zip_with.
  assert (H : map (fun p => bin_range (fst p) (snd p))
                  (combine lo (map (fun a => a + 1) lo))
              = map (fun a => [a]) lo).
  { induction lo as [| a lo IH]; [reflexivity |].
    cbn [map combine fst snd]. now rewrite bin_range_one, IH. }
  rewrite H, cartesian_singletons. reflexivity.
Qed.

(** The rank of a tuple of bins names a rank of the mesh: on a periodic
    grid whatever the bins are, otherwise for bins inside the mesh. *)
Lemma ravel_true ds t :
  ravel ds true t
  = fold_left (fun acc db => acc * fst db + snd db mod fst db) (combine ds t) 0.
Proof. reflexivity. Qed.

Lemma ravel_wrapped ds : forall t a,
  fold_left (fun acc db => acc * fst db + snd db mod fst db) (combine ds t) a
  = fold_left (fun acc db => acc * fst db + snd db)
              (combine ds (zip_with (fun d b => b mod d) ds t)) a.
Proof.
  induction ds as [| d ds IH]; intros [| b t] a; try reflexivity.
  unfold zip_with. cbn [combine map fold_left fst snd]. apply IH.
Qed.

Lemma wrapped_in_mesh ds : forall t,
  Forall (fun m => 0 < m) ds -> length t = length ds ->
  in_mesh ds (zip_with (fun d b => b mod d) ds t).
Proof.
  unfold in_mesh.
  induction ds as [| d ds IH]; intros [| b t] Hpos Hlen; try discriminate.
  - constructor.
  - inversion Hpos as [| d' ds' Hd Hrest]. subst d' ds'.
    unfold zip_with. cbn [combine map fst snd]. constructor.
    + apply Z.mod_pos_bound. exact Hd.
    + apply IH; [exact Hrest | simpl in Hlen; lia].
Qed.

Lemma ravel_in_range ds per t :
  Forall (fun m => 0 < m) ds -> length t = length ds ->
  (per = false -> in_mesh ds t) ->
  0 <= ravel ds per t < numpy.product ds.
Proof.
  intros Hpos Hlen Hin. destruct per.
  - rewrite ravel_true, ravel_wrapped, <- ravel_false.
    apply ravel_range; [exact Hpos |]. now apply wrapped_in_mesh.
  - apply ravel_range; [exact Hpos |]. now apply Hin.
Qed.

Lemma point_cell_length (g : GridND) row :
  length (point_cell g row) = length (dims g).
Proof. unfold point_cell. now rewrite length_map, length_seq. Qed.

Lemma point_cell_in_mesh (g : GridND) pos row :
  well_formed_grid g -> periodic g = false ->
  inside_domain g pos -> In row pos ->
  in_mesh (dims g) (point_cell g row).
Proof.
  intros Hg Hper Hin Hrow. unfold in_mesh, point_cell.
  rewrite <- (map_nth_seq (dims g) 0) at 1.
  apply Forall2_map_same. intros j Hj. apply in_seq in Hj.
  assert (Hlen : length (dims g) = length (grid g))
    by (destruct Hg as [-> _]; apply length_map).
  assert (He : nth_error (grid g) j = Some (nth j (grid g) []))
    by (apply nth_error_nth'; lia).
  destruct (well_formed_dim g j _ Hg He) as [Hdim [_ [[Hmono [Hl _]] _]]].
  assert (Hne : nth j (grid g) [] <> [])
    by (destruct (nth j (grid g) []); [simpl in Hl; lia | discriminate]).
  unfold inside_domain in Hin. rewrite Forall_forall in Hin.
  destruct (Hin row Hrow j _ He) as [Hlo Hhi].
  rewrite Hdim, Hper. unfold point_bin, binned.
  pose proof (inside_index _ _ Hmono Hne Hlo Hhi). lia.
Qed.

(** ** The kernel when every particle has one destination rank *)

Lemma occurrences_one r r0 :
  occurrences (Z.of_nat r) [Z.of_nat r0]
  = if Nat.eqb r r0 then 1%nat else 0%nat.
Proof.
  unfold occurrences. cbn [existsb]. rewrite orb_false_r.
  destruct (Nat.eqb_spec r r0), (Z.eqb_spec (Z.of_nat r) (Z.of_nat r0));
    try reflexivity; lia.
Qed.

Lemma occurrences_le r l : (occurrences r l <= 1)%nat.
Proof. unfold occurrences. destruct (existsb (Z.eqb r) l); lia. Qed.

Lemma list_sum_occurrences (pd : nat -> list Z) r l :
  (list_sum (map (fun i => occurrences r (pd i)) l) <= length l)%nat.
Proof.
  induction l as [| i l IH]; [apply Nat.le_refl |].
  unfold list_sum in *. cbn [map fold_right length]. pose proof (occurrences_le r (pd i)). lia.
Qed.

Lemma no_hit {T : Type} (x : T) r0 : forall n a,
  (r0 < a \/ a + n <= r0)%nat ->
  flat_map (fun r => repeat x (if Nat.eqb r r0 then 1 else 0)) (seq a n) = [].
Proof.
  induction n as [| n IH]; intros a H; [reflexivity |].
  cbn [seq flat_map]. rewrite (IH (S a)) by lia.
  destruct (Nat.eqb_spec a r0); [lia | reflexivity].
Qed.

Lemma single_hit {T : Type} (x : T) r0 : forall n a,
  (a <= r0 < a + n)%nat ->
  flat_map (fun r => repeat x (if Nat.eqb r r0 then 1 else 0)) (seq a n) = [x].
Proof.
  induction n as [| n IH]; intros a H; [lia |].
  cbn [seq flat_map]. destruct (Nat.eqb_spec a r0) as [-> | Hne].
  - rewrite no_hit by lia. reflexivity.
  - rewrite (IH (S a)) by lia. reflexivity.
Qed.

Lemma flat_map_transpose {T U V : Type} (f : T -> U -> list V) (Q : list T)
    (L : list U) :
  Permutation (flat_map (fun q => flat_map (f q) L) Q)
              (flat_map (fun x => flat_map (fun q => f q x) Q) L).
Proof.
  rewrite !flat_map_concat_map.
  rewrite (map_ext _ (fun q => concat (map (f q) L)))
    by (intros q; apply flat_map_concat_map).
  rewrite (map_ext (fun x => flat_map (fun q => f q x) Q)
                   (fun x => concat (map (fun q => f q x) Q)))
    by (intros x; apply flat_map_concat_map).
  apply concat_transpose.
Qed.

Lemma flat_map_singletons {T U : Type} (f : T -> list U) (h : T -> U) l :
  (forall x, In x l -> f x = [h x]) -> flat_map f l = map h l.
Proof.
  induction l as [| x l IH]; intros H; [reflexivity |].
  cbn [flat_map map]. rewrite (H x (or_introl eq_refl)), IH;
    [reflexivity | intros y Hy; apply H; now right].
Qed.

Lemma length_flat_map_repeat {T U : Type} (h : T -> U) (k : T -> nat) l :
  length (flat_map (fun i => repeat (h i) (k i)) l) = list_sum (map k l).
Proof.
  induction l as [| x l IH]; [reflexivity |].
  unfold list_sum in *. cbn [flat_map map fold_right]. now rewrite length_app, repeat_length, IH.
Qed.

Lemma zsum_lengths {T U : Type} (F : T -> list U) l :
  zsum (map (fun r => Z.of_nat (length (F r))) l)
  = Z.of_nat (length (flat_map F l)).
Proof.
  induction l as [| x l IH]; [reflexivity |].
  cbn [flat_map map]. rewrite zsum_cons, IH, length_app. lia.
Qed.

Lemma combine_seq_repeat {T : Type} (c : T) : forall n a,
  combine (seq a n) (repeat c n) = map (fun x => (x, c)) (seq a n).
Proof.
  induction n as [| n IH]; intros a; [reflexivity |].
  cbn [seq repeat combine map]. now rewrite IH.
Qed.

Lemma arange_of_nat n : arange (Z.of_nat n) = map Z.of_nat (seq 0 n).
Proof. unfold arange. now rewrite Nat2Z.id. Qed.

(** Both passes of the kernel for a batch of fewer than 2^31 particles
    that have one destination rank each, on counts that start at zero:
    every particle is counted once and placed once. *)
Lemma fill_single npoint size ds sil sir per :
  (forall i, (i < npoint)%nat ->
     exists r, (r < size)%nat
               /\ particle_destinations ds per sil sir i = [Z.of_nat r]) ->
  Z.of_nat npoint < 2147483648 ->
  let counts :=
    gridnd_fill_counts npoint (numpy.zeros size) ds sil sir per in
  length counts = size
  /\ Forall (fun c => 0 <= c) counts
  /\ zsum counts = Z.of_nat npoint
  /\ Permutation (gridnd_fill_indices npoint counts ds sil sir per)
                 (arange (Z.of_nat npoint)).
Proof.
  intros Hone Hsmall counts.
  set (pd := particle_destinations ds per sil sir) in *.
  set (F := fun r : nat =>
              flat_map (fun i => repeat (Z.of_nat i)
                                        (occurrences (Z.of_nat r) (pd i)))
                       (seq 0 npoint)).
  assert (Hcounts : counts = map (fun r => Z.of_nat (length (F r)))
                                 (seq 0 size)).
  { subst counts. unfold gridnd_fill_counts, numpy.zeros.
    rewrite repeat_length, combine_seq_repeat, map_map. cbn [fst snd].
    apply map_ext. intros r. unfold F.
    rewrite length_flat_map_repeat. fold pd.
    pose proof (list_sum_occurrences pd (Z.of_nat r) (seq 0 npoint)) as Hle.
    rewrite length_seq in Hle. apply int32_small. lia. }
  assert (Hlen : length counts = size)
    by (rewrite Hcounts, length_map; apply length_seq).
  assert (Hperm : Permutation (flat_map F (seq 0 size))
                              (arange (Z.of_nat npoint))).
  { unfold F.
    eapply Permutation_trans;
      [apply (flat_map_transpose
                (fun r i => repeat (Z.of_nat i)
                                   (occurrences (Z.of_nat r) (pd i)))) |].
    rewrite arange_of_nat.
    rewrite (flat_map_singletons _ Z.of_nat); [apply Permutation_refl |].
    intros i Hi. apply in_seq in Hi.
    destruct (Hone i) as [r0 [Hr0 Hpd]]; [lia |].
    rewrite Hpd.
    rewrite (flat_map_ext _
               (fun r => repeat (Z.of_nat i)
                                (if Nat.eqb r r0 then 1%nat else 0%nat)))
      by (intros r; now rewrite occurrences_one).
    apply single_hit. lia. }
  split; [exact Hlen |]. split; [| split].
  - rewrite Hcounts. apply Forall_map, Forall_forall. intros r _. lia.
  - rewrite Hcounts, zsum_lengths, (Permutation_length Hperm).
    rewrite arange_of_nat, length_map, length_seq. reflexivity.
  - unfold gridnd_fill_indices. rewrite Hlen. exact Hperm.
Qed.

(** ** [decompose] for particles without extent *)

Lemma zsum_zeros n : zsum (numpy.zeros n) = 0.
Proof.
  unfold numpy.zeros. induction n as [| n IH]; [reflexivity |].
  cbn [repeat]. now rewrite zsum_cons, IH.
Qed.

Lemma dims_positive (g : GridND) :
  well_formed_grid g -> Z.of_nat (comm_size g) = numpy.product (dims g) ->
  (0 < comm_size g)%nat -> Forall (fun m => 0 < m) (dims g).
Proof.
  intros [Hd Hg] Hsize Hpos. apply positive_extents; [| lia].
  rewrite Hd. destruct (mesh_dims (grid g) Hg) as [-> H]. exact H.
Qed.

(** What one rank hands to [Layout]: every particle counted once, every
    source index placed once. *)
Lemma decompose_local_points (g : GridND) pos :
  well_formed_grid g -> Z.of_nat (comm_size g) = numpy.product (dims g) ->
  (0 < comm_size g)%nat ->
  well_formed_batch g pos -> (periodic g = false -> inside_domain g pos) ->
  Z.of_nat (length pos) < 2147483648 ->
  exists counts idx,
    decompose_local g pos (Uniform 0%Q) = Ok (counts, idx)
    /\ length counts = comm_size g
    /\ Forall (fun c => 0 <= c) counts
    /\ zsum counts = Z.of_nat (length pos)
    /\ Permutation idx (arange (Z.of_nat (length pos))).
Proof.
  intros Hg Hsize Hranks Hpos Hin Hsmall.
  rewrite decompose_local_small by exact Hsmall. unfold assign.
  destruct (Nat.eqb_spec (length pos) 0) as [H0 | Hn0].
  - exists (numpy.zeros (comm_size g)), []. split; [reflexivity |].
    split; [apply repeat_length |]. split; [| split].
    + apply Forall_forall. intros c Hc. apply repeat_spec in Hc. lia.
    + rewrite zsum_zeros, H0. reflexivity.
    + rewrite H0. constructor.
  - rewrite (point_bounds g pos Hg Hpos Hin). cbn [bind].
    pose proof (dims_positive g Hg Hsize Hranks) as Hds.
    match goal with
    | |- context [gridnd_fill_counts ?n ?c ?d ?l ?r ?p] =>
        destruct (fill_single n (comm_size g) d l r p) as [H1 [H2 [H3 H4]]]
    end; [| exact Hsmall |].
    + intros i Hi. unfold particle_destinations.
      destruct (point_particle_bounds g pos i Hi) as [-> ->].
      rewrite destinations_one.
      assert (Hr : 0 <= ravel (dims g) (periodic g)
                          (point_cell g (nth i pos []))
                   < numpy.product (dims g)).
      { apply ravel_in_range; [exact Hds | apply point_cell_length |].
        intros Hper. apply (point_cell_in_mesh g pos); auto.
        apply nth_In. exact Hi. }
      exists (Z.to_nat (ravel (dims g) (periodic g)
                          (point_cell g (nth i pos [])))).
      split; [lia |]. rewrite Z2Nat.id by lia. reflexivity.
    + eexists _, _. split; [reflexivity |]. auto.
Qed.

Lemma le_zsum l x : Forall (fun c => 0 <= c) l -> In x l -> x <= zsum l.
Proof.
  induction 1 as [| c l Hc Hl IH]; intros Hin; [contradiction |].
  rewrite zsum_cons. pose proof (zsum_nonneg l Hl).
  destruct Hin as [-> | Hin]; [lia |]. specialize (IH Hin). lia.
Qed.

Lemma in_concat_length {T : Type} (x : list T) L :
  In x L -> (length x <= length (concat L))%nat.
Proof.
  induction L as [| y L IH]; intros Hin; [contradiction |].
  cbn [concat]. rewrite length_app.
  destruct Hin as [-> | Hin]; [lia |]. specialize (IH Hin). lia.
Qed.

(** What the ranks of a group hand to [Layout]. *)
Lemma decompose_points (g : GridND) (batches : list (list (list Q))) :
  well_formed_grid g -> Z.of_nat (comm_size g) = numpy.product (dims g) ->
  comm_size g = length batches ->
  Forall (well_formed_batch g) batches ->
  (periodic g = false -> Forall (inside_domain g) batches) ->
  Z.of_nat (length (concat batches)) < 2147483648 ->
  exists cfg,
    mapM (fun w => decompose_local g (fst w) (snd w))
         (map (fun pos => (pos, Uniform 0%Q)) batches) = Ok cfg
    /\ valid_world cfg
    /\ Forall2 (fun pos w =>
                  zsum (fst w) = Z.of_nat (length pos)
                  /\ Permutation (snd w) (arange (Z.of_nat (length pos))))
               batches cfg.
Proof.
  intros Hg Hsize Hranks Hpos Hin Hsmall.
  destruct (mapM_total
              (fun pos => decompose_local g pos (Uniform 0%Q))
              (fun pos w =>
                 length (fst w) = comm_size g
                 /\ Forall (fun c => 0 <= c) (fst w)
                 /\ zsum (fst w) = Z.of_nat (length pos)
                 /\ Permutation (snd w) (arange (Z.of_nat (length pos))))
              batches) as [cfg [Hcfg Hall]].
  { intros pos Hp.
    destruct (decompose_local_points g pos) as [counts [idx [Hd H]]];
      try assumption.
    - destruct batches; [contradiction | rewrite Hranks; cbn; lia].
    - rewrite Forall_forall in Hpos. now apply Hpos.
    - intros Hper. specialize (Hin Hper). rewrite Forall_forall in Hin.
      now apply Hin.
    - pose proof (in_concat_length pos batches Hp). lia.
    - exists (counts, idx). split; [exact Hd | exact H]. }
  exists cfg. rewrite mapM_map. cbn [fst snd]. split; [exact Hcfg |].
  pose proof (Forall2_length Hall) as Hlen.
  assert (Htotal : zsum (map zsum (map fst cfg))
                   = Z.of_nat (length (concat batches))).
  { clear - Hall. induction Hall as [| pos w batches cfg Hw _ IH];
      [reflexivity |].
    cbn [map concat]. rewrite zsum_cons, IH, length_app.
    destruct Hw as [_ [_ [-> _]]]. lia. }
  assert (Hrows : Forall (fun w => length (fst w) = length cfg
                                   /\ Forall (fun c => 0 <= c) (fst w)
                                   /\ zsum (fst w) <= 2147483647) cfg).
  { apply Forall_forall. intros w Hw.
    destruct (In_nth_error _ _ Hw) as [p Hp].
    destruct (nth_error batches p) as [pos |] eqn:Hb.
    - destruct (Forall2_nth_error _ _ _ Hall p pos w Hb Hp)
        as [H1 [H2 [H3 _]]].
      pose proof (in_concat_length pos batches (nth_error_In _ _ Hb)).
      repeat split; [congruence | exact H2 | lia].
    - apply nth_error_None in Hb.
      assert (p < length cfg)%nat by (apply nth_error_Some; congruence).
      lia. }
  split; [split |].
  - revert Hrows. apply Forall_impl. intros w [H1 [H2 H3]].
    split; [exact H1 | split; assumption].
  - assert (Hnn : Forall (Forall (fun c => 0 <= c)) (map fst cfg)).
    { apply Forall_map. revert Hrows. apply Forall_impl. tauto. }
    assert (Hcols : Forall (fun c => 0 <= c) (map zsum (Alltoall (map fst cfg)))).
    { apply Forall_map, Forall_forall. intros row Hrow.
      apply zsum_nonneg. exact (Alltoall_rows_nonneg _ row Hnn Hrow). }
    apply Forall_forall. intros row Hrow. split.
    + exact (Alltoall_rows_nonneg _ row Hnn Hrow).
    + pose proof (le_zsum _ (zsum row) Hcols (in_map zsum _ _ Hrow)) as Hle.
      rewrite zsum_Alltoall in Hle; [lia |].
      rewrite length_map. apply Forall_map. revert Hrows.
      apply Forall_impl. tauto.
  - revert Hall. apply Forall2_impl. tauto.
Qed.

(** C4, as the specification states it, fails: on the grid with edges
    0, 1, 2, 3 that is not periodic, rank 0 holds the particles at -0.05
    and 0.5, both with support radius 0. The particle at -0.05 lies
    outside the domain and is assigned to no rank: the index sequence of
    rank 0 is [1], and of its payload [42; 43] only the item 43 comes
    back from the round trip. *)
Lemma radius_zero_round_trip_counterexample :
  let world :=
    [mkprocess 1%nat (layout_of [1; 0; 0] [1] [1; 0; 0])
               (mkarray 0%nat "<f4"%string [] [42; 43]);
     mkprocess 1%nat (layout_of [0; 0; 0] [] [0; 0; 0])
               (mkarray 0%nat "<f4"%string [] []);
     mkprocess 1%nat (layout_of [0; 0; 0] [] [0; 0; 0])
               (mkarray 0%nat "<f4"%string [] [])] in
  (do g <- grid3 false;
   decompose g [([[(-0.05)%Q]; [0.5%Q]], Uniform 0%Q);
                ([], Uniform 0%Q);
                ([], Uniform 0%Q)])
  = Ok (map layout world)
  /\ round_trip Z (fun _ => 4) (fun _ => -1) world
     = Ok [(5%nat, mkarray 4%nat "<f4"%string [] [43]);
           (5%nat, mkarray 4%nat "<f4"%string [] []);
           (5%nat, mkarray 4%nat "<f4"%string [] [])]
  /\ ~ Permutation [43] [42; 43].
Proof.
  cbv zeta. split; [reflexivity |]. split; [reflexivity |].
  intros H. apply Permutation_length in H. discriminate.
Qed.

(** C4. On a well-formed grid with one rank per cell, every rank calls
    [decompose] with support radius 0 on a well-formed batch; the grid is
    periodic, or every particle lies inside the domain; the group holds
    fewer than 2^31 particles. Then [decompose] returns a layout to every
    rank, and for payloads with one item per particle, one element type
    and one trailing shape that are exchanged through these layouts: the
    index sequence of every rank names every item of its payload once,
    the transfer succeeds, the transfer of its result through the
    swapped layouts succeeds, and every rank gets back the items of its
    payload, in the order of its index sequence, so the same items as a
    multiset, with the element type and the trailing shape of the
    payload. *)
Theorem radius_zero_round_trip (A : Type) (itemsize : string -> Z)
    (uninit : nat -> A) (g : GridND) (batches : list (list (list Q)))
    (world : list (process A)) :
  well_formed_grid g ->
  Z.of_nat (comm_size g) = numpy.product (dims g) ->
  comm_size g = length batches ->
  Forall (well_formed_batch g) batches ->
  (periodic g = false -> Forall (inside_domain g) batches) ->
  Z.of_nat (length (concat batches)) < 2147483648 ->
  Forall2 (fun pos pr => length (items (data pr)) = length pos)
          batches world ->
  dtypes_agree world -> trailing_agree world ->
  exists layouts,
    decompose g (map (fun pos => (pos, Uniform 0%Q)) batches) = Ok layouts
    /\ (map layout world = layouts ->
        Forall bijective world
        /\ exists there back,
             exchange A itemsize uninit world = Ok there
             /\ round_trip A itemsize uninit world = Ok back
             /\ Forall2 (fun pr res =>
                           take (items (data pr)) (indices (layout pr))
                           = Ok (items (snd res))
                           /\ Permutation (items (snd res)) (items (data pr))
                           /\ dtype (snd res) = dtype (data pr)
                           /\ trailing (snd res) = trailing (data pr))
                        world back).
Proof.
  intros Hg Hsize Hranks Hpos Hin Hsmall Hitems Hd Ht.
  destruct (decompose_points g batches Hg Hsize Hranks Hpos Hin Hsmall)
    as [cfg [Hcfg [Hv Hall]]].
  unfold decompose. rewrite Hcfg. cbn [bind].
  rewrite (Layout_init_ok cfg Hv). eexists. split; [reflexivity |].
  intros Hmap.
  assert (Hbij : Forall bijective world).
  { apply Forall_forall. intros pr Hpr.
    destruct (In_nth_error _ _ Hpr) as [p Hp].
    pose proof (map_nth_error layout _ _ Hp) as Hl. rewrite Hmap in Hl.
    rewrite nth_error_map in Hl.
    destruct (nth_error (combine cfg (Alltoall (map fst cfg))) p)
      as [[w rc] |] eqn:Hwr; [| discriminate].
    cbn [option_map fst snd] in Hl. inversion Hl as [Hlay]. clear Hl.
    apply nth_error_combine in Hwr. destruct Hwr as [Hw _].
    destruct (nth_error batches p) as [pos |] eqn:Hb.
    - destruct (Forall2_nth_error _ _ _ Hall p pos w Hb Hw) as [Hsum Hperm].
      pose proof (Forall2_nth_error _ _ _ Hitems p pos pr Hb Hp) as Hn.
      cbn beta in Hn. unfold bijective. rewrite <- Hlay.
      cbn [layout_of indices sendcounts]. rewrite Hn. split; [exact Hperm |].
      rewrite Hsum, (Permutation_length Hperm), arange_of_nat.
      now rewrite length_map, length_seq.
    - apply nth_error_None in Hb.
      assert (p < length world)%nat by (apply nth_error_Some; congruence).
      pose proof (Forall2_length Hitems). lia. }
  split; [exact Hbij |].
  apply (exchange_round_trip A itemsize uninit cfg world Hv);
    try assumption.
  rewrite Hmap. apply Layout_init_ok. exact Hv.
Qed.

Lemma radius_zero_round_trip_witness :
  let g := mkGridND [3] [[0; 1; 2; 3]%Q] false 3 in
  let batches := [[[2.5%Q]; [0.5%Q]]; [[1.5%Q]]; []] in
  let world :=
    [mkprocess 1%nat (layout_of [1; 0; 1] [1; 0] [1; 0; 0])
               (mkarray 0%nat "<f4"%string [] [10; 11]);
     mkprocess 1%nat (layout_of [0; 1; 0] [0] [0; 1; 0])
               (mkarray 0%nat "<f4"%string [] [20]);
     mkprocess 1%nat (layout_of [0; 0; 0] [] [1; 0; 0])
               (mkarray 0%nat "<f4"%string [] [])] in
  exists layouts,
    decompose g (map (fun pos => (pos, Uniform 0%Q)) batches) = Ok layouts
    /\ (map layout world = layouts ->
        Forall bijective world
        /\ exists there back,
             exchange Z (fun _ => 4) (fun _ => -1) world = Ok there
             /\ round_trip Z (fun _ => 4) (fun _ => -1) world = Ok back
             /\ Forall2 (fun pr res =>
                           take (items (data pr)) (indices (layout pr))
                           = Ok (items (snd res))
                           /\ Permutation (items (snd res)) (items (data pr))
                           /\ dtype (snd res) = dtype (data pr)
                           /\ trailing (snd res) = trailing (data pr))
                        world back).
Proof.
  intros g batches world.
  apply (radius_zero_round_trip Z (fun _ => 4) (fun _ => -1) g batches world).
  - split; [reflexivity |]. repeat constructor; simpl; try lia.
    discriminate.
  - reflexivity.
  - reflexivity.
  - repeat constructor.
  - intros _. unfold inside_domain.
    repeat (apply Forall_cons || apply Forall_nil);
      (intros [| j] edges He;
       [inversion He; subst edges; split; vm_compute; congruence
       | destruct j; discriminate He]).
  - simpl. lia.
  - repeat constructor.
  - exists "<f4"%string. split; [discriminate | repeat constructor].
  - exists []. repeat constructor.
Defined.
